(** * TAPA source-to-source pass: task-graph extraction and validation

    A shallow embedding of the parts of [backend/tapa/task.cpp] that build
    and validate the metadata document of an upper-level task, of the
    direction selection in [Visitor::GetFrtInterface], and of the rounding
    helpers of [src/tapa/util.h].

    The clang syntax tree is represented by the observations the pass makes
    of it (names, template arguments, compile-time values); the json
    metadata document is represented by records and finite maps; the
    diagnostics engine by the list of reported diagnostics.  Undefined
    behaviour in the source (failed assertions, null dereferences, division
    by zero) is the [None] outcome of the monad [M]. *)

From stdpp Require Import gmap strings list fin_maps pretty.
From Stdlib Require Import ZArith Lia Ascii.

Open Scope Z_scope.

(** ** Machine integers *)

Definition wrap64 (z : Z) : Z := z mod 2 ^ 64.
Definition wrap32 (z : Z) : Z := z mod 2 ^ 32.

(** Reading the low 32 bits of a word as [int]. *)
Definition to_int32 (z : Z) : Z :=
  let w := wrap32 z in if decide (w < 2 ^ 31) then w else w - 2 ^ 32.

(** Reading a 64-bit word as [int64_t]. *)
Definition to_int64 (z : Z) : Z :=
  let w := wrap64 z in if decide (w < 2 ^ 63) then w else w - 2 ^ 64.

Definition INT_MAX : Z := 2 ^ 31 - 1.

(** [std::to_string] on integers. *)
Definition to_string (z : Z) : string := pretty z.

(** ** src/tapa/util.h *)

Module util.

Definition join : Z := 0.
Definition detach : Z := -1.

(** [template <uint64_t N> round_up_div(uint64_t i)]:
    [((i - 1) / N + 1)] in 64-bit unsigned arithmetic.  [N] is a template
    argument; [N = 0] does not instantiate to a constant expression. *)
Definition round_up_div (N i : Z) : Z :=
  wrap64 (wrap64 (i - 1) / N + 1).

(** [template <uint64_t N> round_up(uint64_t i)]:
    [((i - 1) / N + 1) * N]. *)
Definition round_up (N i : Z) : Z :=
  wrap64 (wrap64 (wrap64 (i - 1) / N + 1) * N).

End util.

(** ** The syntax tree, as the pass observes it *)

Inductive TemplateArgument :=
| Type_ (printed : string) (const_qualified : bool) (bits : Z)
| Integral (raw : Z)
| Pack.

(** A type: its printed form, the qualified name of the class template it
    specialises (if it does), the template arguments and its width. *)
Record QualType := mkQualType {
  getAsString : string;
  template_name : option string;
  template_args : list TemplateArgument;
  Width : Z;
}.

Record ParmVarDecl := mkParm {
  parm_name : string;
  parm_type : QualType;
}.

(** What the pass reads of a callee: its name and parameters. *)
Record Callee := mkCallee {
  callee_name : string;
  callee_params : list ParmVarDecl;
}.

(** An expression that can evaluate as an integer constant carries its
    value ([Expr::EvaluateAsInt]). *)
Definition IntExpr := option Z.

Inductive Expr :=
| DeclRefExpr (name : string) (ty : QualType)
              (getAsFunction : option Callee) (value : IntExpr)
| CXXOperatorCallExpr (base : option string) (index : IntExpr)
                      (ty : QualType) (value : IntExpr)
| StringLiteral (s : string)
| OtherExpr (class_name : string) (ty : QualType) (value : IntExpr).

Definition char_array : QualType :=
  mkQualType "const char []" None [] 8.

Definition getType (e : Expr) : QualType :=
  match e with
  | DeclRefExpr _ ty _ _ | CXXOperatorCallExpr _ _ ty _ | OtherExpr _ ty _ => ty
  | StringLiteral _ => char_array
  end.

Definition EvaluateAsInt (e : Expr) : IntExpr :=
  match e with
  | DeclRefExpr _ _ _ v | CXXOperatorCallExpr _ _ _ v | OtherExpr _ _ v => v
  | StringLiteral _ => None
  end.

Definition getStmtClassName (e : Expr) : string :=
  match e with
  | DeclRefExpr _ _ _ _ => "DeclRefExpr"
  | CXXOperatorCallExpr _ _ _ _ => "CXXOperatorCallExpr"
  | StringLiteral _ => "StringLiteral"
  | OtherExpr c _ _ => c
  end.

Record VarDecl := mkVar {
  var_name : string;
  var_type : QualType;
}.

(** A [tapa::task::invoke] call site: the template specialisation
    arguments of the method when the callee declaration is a method, and
    the runtime arguments. *)
Record CXXMemberCallExpr := mkCall {
  record_name : string;
  method_name : string;
  getCalleeDecl : option (list TemplateArgument);
  call_args : list Expr;
}.

#[warnings="-register-all"]
Inductive Stmt :=
| DeclStmt (first : option VarDecl)
| ExprWithCleanups (type_string : string) (children : list Stmt)
| MemberCall (call : CXXMemberCallExpr) (children : list Stmt)
| OtherStmt (children : list Stmt).

Definition children_of (s : Stmt) : list Stmt :=
  match s with
  | DeclStmt _ => []
  | ExprWithCleanups _ c | MemberCall _ c | OtherStmt c => c
  end.

Record FunctionDecl := mkFunction {
  getNameAsString : string;
  parameters : list ParmVarDecl;
  getBody : option (list Stmt);
  isGlobal : bool;
  isWrittenInMainFile : bool;
}.

(** ** Type classification helpers

    The patterns passed to [IsTapaType] use literals, alternation and the
    optional marker only: each denotes a finite set of names. *)

Inductive pattern :=
| Lit (s : string)
| Alt (a b : pattern)
| Cat (a b : pattern)
| Opt (a : pattern).

Fixpoint lang (p : pattern) : list string :=
  match p with
  | Lit s => [s]
  | Alt a b => lang a ++ lang b
  | Cat a b => x ← lang a; (λ y, x +:+ y) <$> lang b
  | Opt a => EmptyString :: lang a
  end.

(** Modelled from the spec: [IsTapaType] is declared in a header that is
    not part of the sources at hand.  It matches the template name of the
    type against the pattern inside the [tapa] namespace; a null
    declaration matches nothing. *)
Definition IsTapaType (ty : QualType) (p : pattern) : bool :=
  match template_name ty with
  | Some n => bool_decide (n ∈ (λ s, "tapa::" +:+ s) <$> lang p)
  | None => false
  end.


(** The patterns that occur in the pass. *)
Definition p_mmap := Lit "mmap".
Definition p_async_mmap := Lit "async_mmap".
Definition p_istream := Lit "istream".
Definition p_ostream := Lit "ostream".
Definition p_istreams := Lit "istreams".
Definition p_ostreams := Lit "ostreams".
Definition p_seq := Lit "seq".
Definition p_stream := Lit "stream".
Definition p_streams := Lit "streams".
(** [(async_)?mmap] *)
Definition p_any_mmap := Cat (Opt (Lit "async_")) (Lit "mmap").
(** [(async_)?mmaps] *)
Definition p_any_mmaps := Cat (Opt (Lit "async_")) (Lit "mmaps").
(** [(async_)?mmaps?] *)
Definition p_any_mmap_or_mmaps :=
  Cat (Opt (Lit "async_")) (Cat (Lit "mmap") (Opt (Lit "s"))).
(** [async_mmaps?] *)
Definition p_async_mmap_or_mmaps := Cat (Lit "async_mmap") (Opt (Lit "s")).
(** [(i|o)streams?] *)
Definition p_any_stream_or_streams :=
  Cat (Alt (Lit "i") (Lit "o")) (Cat (Lit "stream") (Opt (Lit "s"))).
(** [(i|o)stream] *)
Definition p_any_stream := Cat (Alt (Lit "i") (Lit "o")) (Lit "stream").
(** [(async_mmaps|streams)] *)
Definition p_vector_actual := Alt (Lit "async_mmaps") (Lit "streams").

(** Modelled from the spec: [IsStreamInterface] is declared in a header
    that is not part of the sources at hand; a stream interface is a
    parameter of a singular stream category. *)
Definition IsStreamInterface (param : ParmVarDecl) : bool :=
  IsTapaType (parm_type param) p_any_stream.

(** Modelled from the spec: [GetArraySize], the fixed array length of an
    array category, is the compile-time constant second template
    argument. *)
Definition GetArraySize (ty : QualType) : option Z :=
  match template_args ty !! 1%nat with
  | Some (Integral raw) => Some (to_int64 raw)
  | _ => None
  end.

(** Modelled from the spec: [ArrayNameAt] and [GetArrayElem] are declared
    in a header that is not part of the sources at hand; they are the two
    array element naming schemes, [base[index]] and a flattened one. *)
Definition ArrayNameAt (name : string) (idx : Z) : string :=
  name +:+ "[" +:+ to_string idx +:+ "]".
Definition GetArrayElem (name : string) (idx : Z) : string :=
  name +:+ "_" +:+ to_string idx.

(** Modelled from the spec: [GetTemplateArg] is declared in a header that
    is not part of the sources at hand; [GetTemplateArg(type, 0)] is the
    first template argument, here read as a type: its printed name (also
    the result of [GetMmapElemType]), its const-qualification and its
    width. *)
Definition GetTemplateArg0 (ty : QualType) : option (string * bool * Z) :=
  match template_args ty !! 0%nat with
  | Some (Type_ s c w) => Some (s, c, w)
  | _ => None
  end.

(** ** The metadata document

    [{ports: [{name, cat, width, type}],
      fifos: {name: {depth, produced_by, consumed_by}},
      tasks: {name: [{step, name?, args: {port: {cat, arg}}}]}}] *)

Module Port.
Record t := mk { name : string; cat : string; width : Z; type : string }.
End Port.

Module Fifo.
(** An edge is the json array [[task_name, ordinal]]. *)
Record t := mk {
  depth : option Z;
  produced_by : option (string * Z);
  consumed_by : option (string * Z);
}.
(** The json [null] a fresh key is created with. *)
Definition null : t := mk None None None.
End Fifo.

Module Arg.
Record t := mk { cat : string; arg : string }.
End Arg.

Module Instance.
Record t := mk {
  step : Z;
  name : option string;
  args : gmap string Arg.t;
}.
End Instance.

Record Metadata := mkMetadata {
  frt_interface : option string;
  ports : list Port.t;
  fifos : gmap string Fifo.t;
  tasks : gmap string (list Instance.t);
}.

Definition null_metadata : Metadata := mkMetadata None [] ∅ ∅.

(** ** Diagnostics *)

Inductive Level := Remark | Warning | Error.

Global Instance Level_eq_dec : EqDecision Level.
Proof. solve_decision. Defined.

Record Diagnostic := mkDiag {
  level : Level;
  format : string;
  arguments : list string;
}.

Global Instance Diagnostic_eq_dec : EqDecision Diagnostic.
Proof. solve_decision. Defined.

Definition is_error (d : Diagnostic) : bool := bool_decide (level d = Error).

(** The diagnostics of the pass, with the format strings of the source. *)
Definition unexpected_invocation (cls : string) : Diagnostic :=
  mkDiag Error "unexpected invocation: %0" [cls].
Definition invocation_accesses (i name slot ty : string) : Diagnostic :=
  mkDiag Remark "invocation #%0 accesses '%1[%2]'" [i; name; slot; ty].
Definition consumed_more_than_once (c : string) : Diagnostic :=
  mkDiag Error "tapa::stream '%0' consumed more than once" [c].
Definition produced_more_than_once (c : string) : Diagnostic :=
  mkDiag Error "tapa::stream '%0' produced more than once" [c].
Definition unexpected_argument (cls : string) : Diagnostic :=
  mkDiag Error "unexpected argument: %0" [cls].
Definition unused_stream (c : string) : Diagnostic :=
  mkDiag Warning "unused stream: %0" [c].
Definition consumed_but_not_produced (c : string) : Diagnostic :=
  mkDiag Error "consumed but not produced stream: %0" [c].
Definition produced_but_not_consumed (c : string) : Diagnostic :=
  mkDiag Error "produced but not consumed stream: %0" [c].
Definition fail_to_evaluate : Diagnostic :=
  mkDiag Error "fail to evaluate as integer at compile time" [].

(** ** The state of the pass while it processes one task *)

Record State := mkState {
  metadata : Metadata;
  diagnostics : list Diagnostic;
}.

(** Computations of the pass: a result and a new state, or undefined
    behaviour. *)
Definition M (A : Type) : Type := State → option (A * State).

Global Instance M_ret : MRet M := λ A a st, Some (a, st).
Global Instance M_bind : MBind M := λ A B k c st,
  match c st with Some (a, st') => k a st' | None => None end.
Definition undefined {A} : M A := λ _, None.

Definition Report (d : Diagnostic) : M unit :=
  λ st, Some (tt, mkState (metadata st) (diagnostics st ++ [d])).

Definition get_metadata : M Metadata := λ st, Some (metadata st, st).
Definition put_metadata (md : Metadata) : M unit :=
  λ st, Some (tt, mkState md (diagnostics st)).

Definition lift {A} (o : option A) : M A :=
  match o with Some a => mret a | None => undefined end.

Definition when (b : bool) (c : M unit) : M unit := if b then c else mret tt.

(** A [for] loop over the elements of [l]. *)
Fixpoint for_each {A} (l : list A) (body : A → M unit) : M unit :=
  match l with
  | [] => mret tt
  | x :: l' => body x;; for_each l' body
  end.

(** A [for] loop that updates local variables of type [B]. *)
Fixpoint for_fold {A B} (l : list A) (body : B → A → M B) (b : B) : M B :=
  match l with
  | [] => mret b
  | x :: l' => b' ← body b x; for_fold l' body b'
  end.

(** [for (int i = 0; i < n; ++i)]: signed overflow of [i] is undefined. *)
Definition int_range (n : Z) : option (list Z) :=
  if decide (n ≤ INT_MAX) then Some (seqZ 0 n) else None.

(** [Visitor::EvalAsInt]. *)
Definition EvalAsInt (e : IntExpr) : M Z :=
  match e with
  | Some v => mret v
  | None => Report fail_to_evaluate;; mret (-1)
  end.

(** ** Updating the metadata document *)

Definition set_frt_interface (s : string) (md : Metadata) : Metadata :=
  mkMetadata (Some s) (ports md) (fifos md) (tasks md).
Definition set_ports (p : list Port.t) (md : Metadata) : Metadata :=
  mkMetadata (frt_interface md) p (fifos md) (tasks md).
Definition set_fifos (f : gmap string Fifo.t) (md : Metadata) : Metadata :=
  mkMetadata (frt_interface md) (ports md) f (tasks md).
Definition set_tasks (t : gmap string (list Instance.t)) (md : Metadata)
  : Metadata :=
  mkMetadata (frt_interface md) (ports md) (fifos md) t.

(** [metadata[key][name]], created as [null] when absent. *)
Definition fifo_at (md : Metadata) (name : string) : Fifo.t :=
  default Fifo.null (fifos md !! name).
Definition instances_at (md : Metadata) (task_name : string)
  : list Instance.t :=
  default [] (tasks md !! task_name).

Definition modify_metadata (f : Metadata → Metadata) : M unit :=
  md ← get_metadata; put_metadata (f md).

Definition update_fifo (name : string) (f : Fifo.t → Fifo.t) : M unit :=
  modify_metadata (λ md, set_fifos (<[name := f (fifo_at md name)]> (fifos md)) md).

Definition set_depth (d : Z) (f : Fifo.t) : Fifo.t :=
  Fifo.mk (Some d) (Fifo.produced_by f) (Fifo.consumed_by f).
Definition set_produced_by (e : string * Z) (f : Fifo.t) : Fifo.t :=
  Fifo.mk (Fifo.depth f) (Some e) (Fifo.consumed_by f).
Definition set_consumed_by (e : string * Z) (f : Fifo.t) : Fifo.t :=
  Fifo.mk (Fifo.depth f) (Fifo.produced_by f) (Some e).

(** [metadata["tasks"][task_name].push_back(inst)] *)
Definition push_instance (task_name : string) (inst : Instance.t) : M unit :=
  modify_metadata (λ md,
    set_tasks (<[task_name := instances_at md task_name ++ [inst]]> (tasks md)) md).

(** [*metadata["tasks"][task_name].rbegin()] updated in place; undefined on
    an empty list. *)
Definition update_last_instance (task_name : string)
    (f : Instance.t → Instance.t) : M unit :=
  md ← get_metadata;
  let l := instances_at md task_name in
  match last l with
  | Some inst =>
      put_metadata
        (set_tasks (<[task_name := removelast l ++ [f inst]]> (tasks md)) md)
  | None => undefined
  end.

Definition set_arg (port : string) (a : Arg.t) (inst : Instance.t)
  : Instance.t :=
  Instance.mk (Instance.step inst) (Instance.name inst)
              (<[port := a]> (Instance.args inst)).
Definition set_name (n : string) (inst : Instance.t) : Instance.t :=
  Instance.mk (Instance.step inst) (Some n) (Instance.args inst).

(** ** Finding the task and its invocations *)

(** [GetTapaTask]: the first child of the body that is an
    [ExprWithCleanups] of type [struct tapa::task]. *)
Fixpoint GetTapaTask (children : list Stmt) : option Stmt :=
  match children with
  | [] => None
  | ExprWithCleanups ty c :: rest =>
      if bool_decide (ty = "struct tapa::task")
      then Some (ExprWithCleanups ty c) else GetTapaTask rest
  | _ :: rest => GetTapaTask rest
  end.

(** [GetTapaInvokes]: all [tapa::task::invoke] calls below [stmt], children
    first. *)
Fixpoint GetTapaInvokes (stmt : Stmt) : list CXXMemberCallExpr :=
  let below := fix below (l : list Stmt) : list CXXMemberCallExpr :=
    match l with
    | [] => []
    | child :: l' => GetTapaInvokes child ++ below l'
    end in
  match stmt with
  | DeclStmt _ => []
  | ExprWithCleanups _ c | OtherStmt c => below c
  | MemberCall invoke c =>
      below c ++
      (if bool_decide (record_name invoke = "tapa::task")
          && bool_decide (method_name invoke = "invoke")
       then [invoke] else [])
  end.

(** ** Ports of the task (task.cpp, lines 360-387) *)

Definition add_port (p : Port.t) : M unit :=
  modify_metadata (λ md, set_ports (ports md ++ [p]) md).

Definition add_mmap_meta (param : ParmVarDecl) (name : string) : M unit :=
  '(elem, _, w) ← lift (GetTemplateArg0 (parm_type param));
  add_port (Port.mk name
    (if IsTapaType (parm_type param) p_async_mmap_or_mmaps
     then "async_mmap" else "mmap")
    w (elem +:+ "*")).

Definition process_port (param : ParmVarDecl) : M unit :=
  let param_name := parm_name param in
  if IsTapaType (parm_type param) p_any_mmap then
    add_mmap_meta param param_name
  else if IsTapaType (parm_type param) p_any_mmaps then
    n ← lift (GetArraySize (parm_type param));
    r ← lift (int_range n);
    for_each r (λ i,
      add_mmap_meta param (param_name +:+ "[" +:+ to_string i +:+ "]"))
  else if IsStreamInterface param then
    mret tt
  else
    add_port (Port.mk param_name "scalar" (Width (parm_type param))
                      (getAsString (parm_type param))).

(** ** Stream declarations of the task body (lines 389-413) *)

(** [args[k].getAsIntegral().getRawData()] *)
Definition integral_arg (ty : QualType) (k : nat) : option Z :=
  match template_args ty !! k with
  | Some (Integral raw) => Some (wrap64 raw)
  | _ => None
  end.

Definition declare_fifo (var_decl : VarDecl) (fifo_depth : Z)
    (fifo_decls : gmap string VarDecl) (var_name : string)
  : M (gmap string VarDecl) :=
  update_fifo var_name (set_depth fifo_depth);;
  mret (<[var_name := var_decl]> fifo_decls).

(** Modelled from the spec: [GetTapaStreamDecl] and [GetTapaStreamsDecl]
    are declared in a header that is not part of the sources at hand; they
    return the declaration of [tapa::stream<T, depth>], respectively of
    [tapa::streams<T, N, depth>], when the type specialises it. *)
Definition process_decl (fifo_decls : gmap string VarDecl) (child : Stmt)
  : M (gmap string VarDecl) :=
  match child with
  | DeclStmt (Some var_decl) =>
      let ty := var_type var_decl in
      if IsTapaType ty p_stream then
        _ ← lift (template_args ty !! 0%nat);
        fifo_depth ← lift (integral_arg ty 1);
        declare_fifo var_decl fifo_depth fifo_decls (var_name var_decl)
      else if IsTapaType ty p_streams then
        _ ← lift (template_args ty !! 0%nat);
        fifo_depth ← lift (integral_arg ty 2);
        n ← lift (GetArraySize ty);
        r ← lift (int_range n);
        for_fold r (λ decls i,
          declare_fifo var_decl fifo_depth decls
                       (ArrayNameAt (var_name var_decl) i)) fifo_decls
      else mret fifo_decls
  | _ => mret fifo_decls
  end.

(** ** Invocations (lines 415-610) *)

Record InvokeHeader := mkHeader {
  step : Z;
  has_name : bool;
  is_vec : bool;
  vec_length : Z;
}.

(** The compile-time arguments of the invocation read from the template
    specialisation arguments of the method (lines 424-433). *)
Definition header_of (args : list TemplateArgument) : option InvokeHeader :=
  step ← match args !! 0%nat with
         | Some (Integral raw) => Some (to_int32 raw)
         | _ => None
         end;
  let vec := match args !! 1%nat with
             | Some (Integral raw) => Some (wrap64 raw)
             | _ => None
             end in
  let has_name := match last args with
                  | Some (Integral _) => true
                  | _ => false
                  end in
  Some (mkHeader step has_name (bool_decide (is_Some vec)) (default 1 vec)).

(** Lines 419-441. *)
Definition invoke_header (invoke : CXXMemberCallExpr) : M InvokeHeader :=
  match getCalleeDecl invoke with
  | Some args => lift (header_of args)
  | None =>
      Report (unexpected_invocation "CXXMemberCallExpr");;
      mret (mkHeader (-1) false false 1)
  end.

Definition as_DeclRefExpr (e : Expr)
  : option (string * QualType * option Callee) :=
  match e with DeclRefExpr n ty f _ => Some (n, ty, f) | _ => None end.

Definition as_CXXOperatorCallExpr (e : Expr) : option (option string * IntExpr) :=
  match e with CXXOperatorCallExpr b ix _ _ => Some (b, ix) | _ => None end.

(** The lambda [get_name] (lines 444-469). *)
Definition get_name (is_vec : bool) (name : string) (i : Z)
    (decl_ref : option (string * QualType * option Callee)) : M string :=
  match decl_ref with
  | Some (decl_name, ty, _) =>
      if is_vec && IsTapaType ty p_vector_actual then
        length ← match template_args ty !! 1%nat with
                 | Some (Integral raw) => EvalAsInt (Some (to_int64 raw))
                 | _ => undefined
                 end;
        let length := wrap64 length in
        if decide (length = 0) then undefined
        else
          when (bool_decide (length ≤ i))
            (Report (invocation_accesses (to_string i) decl_name
                       (to_string (i mod length)) (getAsString ty)));;
          mret (ArrayNameAt name (i mod length))
      else mret name
  | None => mret name
  end.

Definition is_empty (s : string) : bool := bool_decide (s = EmptyString).

(** The lambda [register_arg] (lines 509-515); [arg] and [port] default to
    the empty string. *)
Definition register_arg (task_name arg_name param_name param_cat : string)
    (arg port : string) : M unit :=
  let arg := if is_empty arg then arg_name else arg in
  let port := if is_empty port then param_name else port in
  update_last_instance task_name (set_arg port (Arg.mk param_cat arg)).

(** [metadata["tasks"][task_name].size() - 1] *)
Definition last_ordinal (md : Metadata) (task_name : string) : Z :=
  wrap64 (Z.of_nat (length (instances_at md task_name)) - 1).

(** The lambda [register_consumer] (lines 518-534). *)
Definition register_consumer (task_name arg_name : string) (arg : string)
  : M unit :=
  let arg := if is_empty arg then arg_name else arg in
  md ← get_metadata;
  when (bool_decide (is_Some (Fifo.consumed_by (fifo_at md arg))))
       (Report (consumed_more_than_once arg));;
  update_fifo arg (set_consumed_by (task_name, last_ordinal md task_name)).

(** The lambda [register_producer] (lines 535-551). *)
Definition register_producer (task_name arg_name : string) (arg : string)
  : M unit :=
  let arg := if is_empty arg then arg_name else arg in
  md ← get_metadata;
  when (bool_decide (is_Some (Fifo.produced_by (fifo_at md arg))))
       (Report (produced_more_than_once arg));;
  update_fifo arg (set_produced_by (task_name, last_ordinal md task_name)).

(** The variables [task] and [task_name] of the invocation loop. *)
Record Locals := mkLocals {
  task : option Callee;
  task_name : string;
}.

(** [FunctionDecl::getParamDecl(unsigned i)] requires
    [i < getNumParams()]. *)
Definition getParamDecl (callee : Callee) (i : Z) : option ParmVarDecl :=
  if decide (i < Z.of_nat (length (callee_params callee)))
  then callee_params callee !! Z.to_nat i else None.

(** An actual argument bound to a parameter of the callee
    (lines 503-591). *)
Definition bind_param (h : InvokeHeader) (i_vec : Z) (loc : Locals) (i : Z)
    (arg_name : string)
    (decl_ref : option (string * QualType * option Callee))
    (arg_is_seq : bool) : M unit :=
  callee ← lift (task loc);
  param ← lift (getParamDecl callee
                  (wrap32 (if has_name h then i - 2 else i - 1)));
  let param_name := parm_name param in
  let ty := parm_type param in
  let tn := task_name loc in
  if IsTapaType ty p_mmap then
    a ← get_name (is_vec h) arg_name i_vec decl_ref;
    register_arg tn arg_name param_name "mmap" a EmptyString
  else if IsTapaType ty p_async_mmap then
    a ← get_name (is_vec h) arg_name i_vec decl_ref;
    register_arg tn arg_name param_name "async_mmap" a EmptyString
  else if IsTapaType ty p_istream then
    a ← get_name (is_vec h) arg_name i_vec decl_ref;
    register_consumer tn arg_name a;;
    register_arg tn arg_name param_name "istream" a EmptyString
  else if IsTapaType ty p_ostream then
    a ← get_name (is_vec h) arg_name i_vec decl_ref;
    register_producer tn arg_name a;;
    register_arg tn arg_name param_name "ostream" a EmptyString
  else if IsTapaType ty p_istreams then
    n ← lift (GetArraySize ty);
    r ← lift (int_range n);
    for_each r (λ k,
      let a := ArrayNameAt arg_name k in
      register_consumer tn arg_name a;;
      register_arg tn arg_name param_name "istream" a
                   (ArrayNameAt param_name k))
  else if IsTapaType ty p_ostreams then
    n ← lift (GetArraySize ty);
    r ← lift (int_range n);
    for_each r (λ k,
      let a := ArrayNameAt arg_name k in
      register_producer tn arg_name a;;
      register_arg tn arg_name param_name "ostream" a
                   (ArrayNameAt param_name k))
  else if arg_is_seq then
    register_arg tn arg_name param_name "scalar"
                 ("64'd" +:+ to_string i_vec) EmptyString
  else
    register_arg tn arg_name param_name "scalar" EmptyString EmptyString.

(** One iteration of the loop over the runtime arguments
    (lines 471-608). *)
Definition process_arg (h : InvokeHeader) (i_vec : Z) (loc : Locals)
    (ia : Z * Expr) : M Locals :=
  let '(i, arg) := ia in
  let decl_ref := as_DeclRefExpr arg in
  let arg_eval_as_int_result := EvaluateAsInt arg in
  let op_call := as_CXXOperatorCallExpr arg in
  let arg_is_seq := IsTapaType (getType arg) p_seq in
  if bool_decide (is_Some decl_ref) || bool_decide (is_Some op_call)
     || bool_decide (is_Some arg_eval_as_int_result) || arg_is_seq then
    let arg_name := match decl_ref with
                    | Some (n, _, _) => n
                    | None => EmptyString
                    end in
    arg_name ← match op_call with
               | Some (base, index) =>
                   array_name ← lift base;
                   array_idx ← EvalAsInt index;
                   mret (ArrayNameAt array_name array_idx)
               | None => mret arg_name
               end;
    let arg_name := match arg_eval_as_int_result with
                    | Some v => "64'd" +:+ to_string (wrap64 v)
                    | None => arg_name
                    end in
    if decide (i = 0) then
      push_instance arg_name (Instance.mk (step h) None ∅);;
      '(_, _, fn) ← lift decl_ref;
      mret (mkLocals fn arg_name)
    else
      bind_param h i_vec loc i arg_name decl_ref arg_is_seq;;
      mret loc
  else
    match arg with
    | StringLiteral s =>
        if bool_decide (i = 1) && has_name h then
          update_last_instance (task_name loc) (set_name s);;
          mret loc
        else
          Report (unexpected_argument (getStmtClassName arg));;
          mret loc
    | _ =>
        Report (unexpected_argument (getStmtClassName arg));;
        mret loc
    end.

Fixpoint indexed_from {A} (k : Z) (l : list A) : list (Z * A) :=
  match l with
  | [] => []
  | x :: l' => (k, x) :: indexed_from (k + 1) l'
  end.

(** All the replicas of one invocation (lines 418-610). *)
Definition process_replica (h : InvokeHeader) (invoke : CXXMemberCallExpr)
    (loc : Locals) (i_vec : Z) : M Locals :=
  for_fold (indexed_from 0 (call_args invoke)) (process_arg h i_vec) loc.

Definition process_invoke (invoke : CXXMemberCallExpr) : M unit :=
  h ← invoke_header invoke;
  for_fold (seqZ 0 (vec_length h)) (process_replica h invoke)
           (mkLocals None EmptyString);;
  mret tt.

(** ** End-of-task validation (lines 612-645) *)

Definition erase_fifo (name : string) : M unit :=
  modify_metadata (λ md, set_fifos (delete name (fifos md)) md).

Definition validate_fifo (fifo_decls : gmap string VarDecl)
    (entry : string * Fifo.t) : M unit :=
  let '(fifo_name, fifo) := entry in
  let is_consumed := bool_decide (is_Some (Fifo.consumed_by fifo)) in
  let is_produced := bool_decide (is_Some (Fifo.produced_by fifo)) in
  let fifo_decl := fifo_decls !! fifo_name in
  if negb is_consumed && negb is_produced then
    match fifo_decl with
    | Some _ => Report (unused_stream fifo_name);; erase_fifo fifo_name
    | None => undefined
    end
  else
    when (bool_decide (is_Some fifo_decl)
          && negb (Bool.eqb is_consumed is_produced))
         (Report (if is_consumed
                  then consumed_but_not_produced fifo_name
                  else produced_but_not_consumed fifo_name)).

Definition validate (fifo_decls : gmap string VarDecl) : M unit :=
  md ← get_metadata;
  for_each (map_to_list (fifos md)) (validate_fifo fifo_decls).

(** ** Visitor::ProcessUpperLevelTask (metadata and diagnostics)

    The edits sent to the rewriter (parameter types, pragmas, the body
    stub, the linkage wrapper) do not read or write the metadata document
    or the diagnostics and are left out. *)
Definition ProcessUpperLevelTask (task : Stmt) (func : FunctionDecl)
  : M unit :=
  func_body ← lift (getBody func);
  modify_metadata (set_fifos ∅);;
  for_each (parameters func) process_port;;
  fifo_decls ← for_fold func_body process_decl ∅;
  for_each (GetTapaInvokes task) process_invoke;;
  validate fifo_decls.

(** ** Visitor::GetFrtInterface (lines 683-798) *)

Definition quote : string := String "034"%char EmptyString.
Definition newline : string := String "010"%char EmptyString.
Definition lines (l : list string) : string := String.concat newline l.

(** The access mode of a buffer (lines 724-728). *)
Definition direction (ty : QualType) : option string :=
  '(_, is_const, _) ← GetTemplateArg0 ty;
  let write_device := true in
  let read_device := negb is_const in
  Some (if write_device : bool
        then (if read_device then "ReadWrite" else "WriteOnly")
        else "ReadOnly").

(** The lambda [add_param] (lines 729-747). *)
Definition add_param (direction name var : string) : string :=
  String.concat EmptyString [
    lines [EmptyString; "      } else if (_tapa_arg_info.name == "] +:+ quote;
    name;
    quote +:+ lines [") {"; "        auto _tapa_arg = fpga::"];
    direction;
    "(";
    var;
    ".get(), ";
    var;
    lines [".size());";
           "        _tapa_instance.AllocBuf(_tapa_arg_index, _tapa_arg);";
           "        _tapa_instance.SetArg(_tapa_arg_index, _tapa_arg);"]
  ].

(** The text emitted for one parameter (lines 720-771). *)
Definition frt_param (param : ParmVarDecl) : option (list string) :=
  let name := parm_name param in
  let ty := parm_type param in
  if IsTapaType ty p_any_mmap_or_mmaps then
    d ← direction ty;
    if IsTapaType ty p_any_mmaps then
      array_size ← wrap64 <$> GetArraySize ty;
      Some ((λ i, add_param d (GetArrayElem name i) (ArrayNameAt name i))
              <$> seqZ 0 array_size)
    else Some [add_param d name name]
  else if IsTapaType ty p_any_stream_or_streams then
    Some [lines [EmptyString; "#error stream not supported yet"; EmptyString]]
  else
    Some [String.concat EmptyString [
      lines [EmptyString; "      } else if (_tapa_arg_info.name == "] +:+ quote;
      name;
      quote +:+ lines [") {";
                       "        _tapa_instance.SetArg(_tapa_arg_index, "];
      name;
      ");"]].

Definition frt_prologue : list string :=
  [ lines ["#include <sstream>"; "#include <stdexcept>"; "#include <frt.h>";
           newline] ].

Definition frt_body_head (func_name : string) : list string :=
  [ String.concat EmptyString
      [newline +:+ "#define TAPAB_APP " +:+ quote +:+ "TAPAB_"; func_name;
       quote +:+ newline];
    lines [
      "#define TAPAB " +:+ quote +:+ "TAPAB" +:+ quote;
      "  const char* _tapa_bitstream = nullptr;";
      "  if ((_tapa_bitstream = getenv(TAPAB_APP)) ||";
      "      (_tapa_bitstream = getenv(TAPAB))) {";
      "    fpga::Instance _tapa_instance(_tapa_bitstream);";
      "    int _tapa_arg_index = 0;";
      "    for (const auto& _tapa_arg_info : _tapa_instance.GetArgsInfo()) {";
      "      if (false) {" ] ].

Definition frt_body_tail : string :=
  lines [
    EmptyString;
    "      } else {";
    "        std::stringstream ss;";
    "        ss << " +:+ quote +:+ "unknown argument: " +:+ quote
      +:+ " << _tapa_arg_info;";
    "        throw std::runtime_error(ss.str());";
    "      }";
    "      ++_tapa_arg_index;";
    "    }";
    "    _tapa_instance.WriteToDevice();";
    "    _tapa_instance.Exec();";
    "    _tapa_instance.ReadFromDevice();";
    "    _tapa_instance.Finish();";
    "  } else {";
    "    throw std::runtime_error(" +:+ quote
      +:+ "no bitstream found; please set `" +:+ quote +:+ " TAPAB_APP";
    "                             " +:+ quote +:+ "` or `" +:+ quote
      +:+ " TAPAB " +:+ quote +:+ "`" +:+ quote +:+ ");";
    "  }";
    EmptyString ].

Section Visitor.

(** [extern const string* top_name] and [Visitor::current_task]; a
    function declaration is identified by its name. *)
Variable top_name : string.
Variable current_task : option string.
(** The rewriter's text before and after the body of a function. *)
Variable getRewrittenText : FunctionDecl → string * string.

Definition GetFrtInterface (func : FunctionDecl) : option string :=
  per_param ← mapM frt_param (parameters func);
  Some (String.concat EmptyString
          (frt_prologue
           ++ [fst (getRewrittenText func)]
           ++ frt_body_head (getNameAsString func)
           ++ concat per_param
           ++ [frt_body_tail]
           ++ [snd (getRewrittenText func)])).

Record Visitor := mkVisitor {
  funcs_ : list FunctionDecl;
  rewriters_ : list string;
  metadata_ : gmap string Metadata;
  reported : list Diagnostic;
}.

(** Modelled from the spec: [GetMetadata()] is declared in a header that
    is not part of the sources at hand; it is the document of the current
    task in [metadata_], created as [null] when absent. *)
Definition GetMetadata (v : Visitor) (name : string) : Metadata :=
  default null_metadata (metadata_ v !! name).

(** [Visitor::VisitFunctionDecl] (lines 209-235).  The lower-level
    branch and the removal of other functions only edit source text. *)
Definition VisitFunctionDecl (func : FunctionDecl) (v : Visitor)
  : option Visitor :=
  let name := getNameAsString func in
  match getBody func with
  | Some body =>
      if isGlobal func && isWrittenInMainFile func then
        if bool_decide (rewriters_ v = []) then
          Some (mkVisitor (funcs_ v ++ [func]) (rewriters_ v)
                          (metadata_ v) (reported v))
        else if bool_decide (name ∈ rewriters_ v) then
          if bool_decide (current_task = Some name) then
            match GetTapaTask body with
            | Some task =>
                md ← (if bool_decide (top_name = name)
                      then frt ← GetFrtInterface func;
                           Some (set_frt_interface frt (GetMetadata v name))
                      else Some (GetMetadata v name));
                '(_, st) ← ProcessUpperLevelTask task func
                              (mkState md (reported v));
                Some (mkVisitor (funcs_ v) (rewriters_ v)
                                (<[name := metadata st]> (metadata_ v))
                                (diagnostics st))
            | None => Some v
            end
          else Some v
        else Some v
      else Some v
  | None => Some v
  end.

End Visitor.

(** * Vocabulary of the statements and example programs *)

(** ** Reasoning about computations *)

(** A computation [c] respects a relation [R] between the state before and
    the state after when every run of [c] that returns relates them. *)
Definition respects {A} (R : relation State) (c : M A) : Prop :=
  ∀ st a st', c st = Some (a, st') → R st st'.

(** ** Host glue: the access mode of buffers *)

Definition access_modes : list string := ["ReadOnly"; "WriteOnly"; "ReadWrite"].

Definition mmap_const_float : QualType :=
  mkQualType "tapa::mmap<const float>" (Some "tapa::mmap")
             [Type_ "const float" true 32] 64.

(** ** The ports of a task *)

Definition same_ports : relation State :=
  λ st st', ports (metadata st') = ports (metadata st).

Definition mmap_float : QualType :=
  mkQualType "tapa::mmap<float>" (Some "tapa::mmap") [Type_ "float" false 32] 64.
Definition int_type : QualType := mkQualType "int" None [] 32.
Definition ostream_int : QualType :=
  mkQualType "tapa::ostream<int> &" (Some "tapa::ostream")
             [Type_ "int" false 32] 64.
Definition istream_int : QualType :=
  mkQualType "tapa::istream<int> &" (Some "tapa::istream")
             [Type_ "int" false 32] 64.
Definition function_type : QualType := mkQualType "void (...)" None [] 0.

(** [(mmap<float> a, int n, ostream<int> o)] *)
Definition mmap_scalar_ostream : list ParmVarDecl :=
  [mkParm "a" mmap_float; mkParm "n" int_type; mkParm "o" ostream_int].

(** A callee reference as the first runtime argument of an invocation. *)
Definition callee_ref (c : Callee) : Expr :=
  DeclRefExpr (callee_name c) function_type (Some c) None.

(** [tapa::task().invoke<step>(callee, args...)...]: each call is the
    receiver of the next one. *)
Definition plain_invoke (step : Z) (c : Callee) (args : list Expr)
  : CXXMemberCallExpr :=
  mkCall "tapa::task" "invoke" (Some [Integral step; Pack; Pack])
         (callee_ref c :: args).
Definition task_of (invokes : list CXXMemberCallExpr) : Stmt :=
  ExprWithCleanups "struct tapa::task"
    [foldl (λ receiver invoke, MemberCall invoke [OtherStmt [receiver]])
           (OtherStmt []) invokes].

Definition Producer : Callee := mkCallee "Producer" [mkParm "out" ostream_int].
Definition Consumer : Callee := mkCallee "Consumer" [mkParm "in" istream_int].

(** [void Top(mmap<float> a, int n, ostream<int> o)
      { tapa::task().invoke(Producer, o); }] *)
Definition Top_task : Stmt :=
  task_of [plain_invoke 0 Producer [DeclRefExpr "o" ostream_int None None]].
Definition Top : FunctionDecl :=
  mkFunction "Top" mmap_scalar_ostream (Some [Top_task]) true true.

Definition initial_state : State := mkState null_metadata [].

(** ** Registering channel edges *)


(** ** Vectorised invocations and array-typed actual arguments *)

Definition streams_int_3 : QualType :=
  mkQualType "tapa::streams<int, 3, 2>" (Some "tapa::streams")
             [Type_ "int" false 32; Integral 3; Integral 2] 0.

(** [invoke<step, n>(callee, args...)] *)
Definition vector_invoke (step n : Z) (c : Callee) (args : list Expr)
  : CXXMemberCallExpr :=
  mkCall "tapa::task" "invoke" (Some [Integral step; Integral n; Pack; Pack])
         (callee_ref c :: args).

(** [tapa::streams<int, 3, 2> a; ... invoke<join, 5>(Consumer, a)] *)
Definition wraparound_invoke : CXXMemberCallExpr :=
  vector_invoke 0 5 Consumer [DeclRefExpr "a" streams_int_3 None None].



(** ** The display name of an instance *)

(** [invoke<step>(callee, "name", args...)]: the size of the name is the
    last template argument. *)
Definition named_invoke (step : Z) (c : Callee) (args : list Expr)
  : CXXMemberCallExpr :=
  mkCall "tapa::task" "invoke" (Some [Integral step; Pack; Pack; Integral 6])
         (callee_ref c :: args).

Definition stream_int_2 : QualType :=
  mkQualType "tapa::stream<int, 2>" (Some "tapa::stream")
             [Type_ "int" false 32; Integral 2] 0.
Definition channel_c : Expr := DeclRefExpr "c" stream_int_2 None None.

(** The name literal right after the callee, then the channel. *)
Definition name_first : CXXMemberCallExpr :=
  named_invoke 0 Consumer [StringLiteral "first"; channel_c].
(** The name literal as the last runtime argument. *)
Definition name_last : CXXMemberCallExpr :=
  named_invoke 0 Consumer [channel_c; StringLiteral "last"].

(** After [Consumer] has been pushed as the current task. *)
Definition after_callee : State :=
  mkState (mkMetadata None [] ∅ {[ "Consumer" := [Instance.mk 0 None ∅] ]}) [].

(** ** End-of-task validation *)

Definition edgeless (f : Fifo.t) : bool :=
  negb (bool_decide (is_Some (Fifo.consumed_by f)))
  && negb (bool_decide (is_Some (Fifo.produced_by f))).

(** The diagnostics of one step of the validation loop. *)
Definition entry_diagnostics (decls : gmap string VarDecl)
    (entry : string * Fifo.t) : list Diagnostic :=
  let is_consumed := bool_decide (is_Some (Fifo.consumed_by entry.2)) in
  let is_produced := bool_decide (is_Some (Fifo.produced_by entry.2)) in
  if edgeless entry.2 then [unused_stream entry.1]
  else if bool_decide (is_Some (decls !! entry.1))
          && negb (Bool.eqb is_consumed is_produced)
       then [if is_consumed then consumed_but_not_produced entry.1
             else produced_but_not_consumed entry.1]
       else [].

(** The fifos left by the steps of the validation loop over [l]. *)
Definition pruned (l : list (string * Fifo.t)) (m : gmap string Fifo.t)
  : gmap string Fifo.t :=
  foldl (λ m entry, if edgeless entry.2 then delete entry.1 m else m) m l.

(** The loop dereferences the declaration of every fifo without edges. *)
Definition validation_defined (decls : gmap string VarDecl)
    (l : list (string * Fifo.t)) : bool :=
  forallb (λ entry, implb (edgeless entry.2)
                          (bool_decide (is_Some (decls !! entry.1)))) l.


(** ** Declared channels *)



(** ** Channel conservation *)


(** [void Pipeline() { tapa::stream<int, 2> c;
      tapa::task().invoke(Producer, c).invoke(Consumer, c); }] *)
Definition Pipeline_task : Stmt :=
  task_of [plain_invoke 0 Producer [channel_c];
           plain_invoke 0 Consumer [channel_c]].
Definition Pipeline_body : list Stmt :=
  [DeclStmt (Some (mkVar "c" stream_int_2)); Pipeline_task].
Definition Pipeline : FunctionDecl :=
  mkFunction "Pipeline" [] (Some Pipeline_body) true true.

(** ** The invocation loop only adds to the graph *)

(** From [st] to [st']: diagnostics are appended; a fifo stays, keeps its
    depth and its edges (possibly overwritten); a new fifo has an edge. *)
Record grows (st st' : State) : Prop := mk_grows {
  grows_diagnostics : diagnostics st `prefix_of` diagnostics st';
  grows_fifos : ∀ c f,
    fifos (metadata st) !! c = Some f →
    ∃ f', fifos (metadata st') !! c = Some f'
      ∧ Fifo.depth f' = Fifo.depth f
      ∧ (is_Some (Fifo.produced_by f) → is_Some (Fifo.produced_by f'))
      ∧ (is_Some (Fifo.consumed_by f) → is_Some (Fifo.consumed_by f'));
  grows_new : ∀ c f',
    fifos (metadata st) !! c = None →
    fifos (metadata st') !! c = Some f' → edgeless f' = false;
}.

(** The precondition of the validation loop holds whenever the loop is
    reached: every fifo without edges stems from a declaration. *)
Definition edgeless_declared (decls : gmap string VarDecl) (st : State) : Prop :=
  ∀ c f, fifos (metadata st) !! c = Some f → edgeless f = true →
         is_Some (decls !! c).

Definition same_fifos : relation State :=
  λ st st', fifos (metadata st') = fifos (metadata st).

(** Every fifo present after the declarations is a declared one. *)
Definition all_declared (decls : gmap string VarDecl) (st : State) : Prop :=
  ∀ c, is_Some (fifos (metadata st) !! c) → is_Some (decls !! c).

(** ** Replicas of a vectorised invocation *)

(** From [st] to [st']: the instances of other tasks are the same, and
    those of [tn] are the same up to the last one, which keeps its step. *)
Record keeps_instances (tn : string) (st st' : State) : Prop := mk_keeps {
  keeps_other : ∀ t, t ≠ tn →
    instances_at (metadata st') t = instances_at (metadata st) t;
  keeps_init :
    removelast (instances_at (metadata st') tn)
    = removelast (instances_at (metadata st) tn);
  keeps_step :
    Instance.step <$> last (instances_at (metadata st') tn)
    = Instance.step <$> last (instances_at (metadata st) tn);
}.


(** A parameter of none of the mmap and stream categories. *)
Definition scalar_parameter (ty : QualType) : bool :=
  negb (IsTapaType ty p_mmap || IsTapaType ty p_async_mmap
        || IsTapaType ty p_istream || IsTapaType ty p_ostream
        || IsTapaType ty p_istreams || IsTapaType ty p_ostreams).

Definition Worker : Callee :=
  mkCallee "Worker" [mkParm "n" int_type; mkParm "i" int_type].


(** ** Duplicate producers *)





(** [void Fork() { tapa::stream<int, 2> c;
      tapa::task().invoke(Producer, c).invoke(Producer, c)
                  .invoke(Consumer, c); }] *)
Definition Fork_task : Stmt :=
  task_of [plain_invoke 0 Producer [channel_c];
           plain_invoke 0 Producer [channel_c];
           plain_invoke 0 Consumer [channel_c]].
Definition Fork_body : list Stmt :=
  [DeclStmt (Some (mkVar "c" stream_int_2)); Fork_task].
Definition Fork : FunctionDecl :=
  mkFunction "Fork" [] (Some Fork_body) true true.

Definition no_text (func : FunctionDecl) : string * string :=
  (EmptyString, EmptyString).

(** The visitor while it rewrites [Fork]. *)
Definition Fork_visitor : Visitor := mkVisitor [] ["Fork"] ∅ [].

(** * More of the pass

    The parts that emit text: the signature of a stream operation, the
    pragmas of stream parameters and of lower-level tasks, the parameters
    of an upper-level task rewritten to base addresses; and the constructor
    of [ObjectInfo]. *)

(** ** src/tapa/util.h: [ObjectInfo] *)

(** [std::string::substr(0, n)] and [std::string::erase(0, n)]: at most
    [n] characters are taken, respectively removed. *)
Definition substr (n : nat) (s : string) : string := String.substring 0 n s.

Fixpoint erase (n : nat) (s : string) : string :=
  match n, s with
  | S n', String _ s' => erase n' s'
  | _, _ => s
  end.

Module ObjectInfo.
Record t := mk { name : string; type : string }.

(** The constructor [ObjectInfo(name, type)]. *)
Definition init (name type : string) : t :=
  if bool_decide (substr 7 type = "struct ") then mk name (erase 7 type)
  else if bool_decide (substr 6 type = "class ") then mk name (erase 6 type)
  else mk name type.
End ObjectInfo.

(** ** [GetSignature] (task.cpp, lines 73-118) *)

Inductive RefQualifierKind := RQ_None | RQ_LValue | RQ_RValue.

Record FunctionProtoType := mkProto {
  isConst : bool;
  isVolatile : bool;
  isRestrict : bool;
  getRefQualifier : RefQualifierKind;
}.

(** A function declaration as [GetSignature] reads it: its qualified name,
    the printed types of its parameters, and its prototype if it has
    one. *)
Record Target := mkTarget {
  getQualifiedNameAsString : string;
  target_parameters : list string;
  isVariadic : bool;
  target_type : option FunctionProtoType;
}.

Record DirectCallee := mkDirectCallee {
  declared : Target;
  getTemplateInstantiationPattern : option Target;
}.

(** [std::string::resize(n)]: truncates, or pads with null characters. *)
Definition resize (n : nat) (s : string) : string :=
  String.substring 0 n s
  +:+ String.string_of_list_ascii (replicate (n - String.length s) "000"%char).

(** The qualifiers appended after the parameter list. *)
Definition qualifiers (ty : option FunctionProtoType) (signature : string)
  : string :=
  match ty with
  | Some target_type =>
      let signature :=
        if isConst target_type then signature +:+ " const" else signature in
      let signature :=
        if isVolatile target_type then signature +:+ " volatile"
        else signature in
      let signature :=
        if isRestrict target_type then signature +:+ " restrict"
        else signature in
      match getRefQualifier target_type with
      | RQ_LValue => signature +:+ " &"
      | RQ_RValue => signature +:+ " &&"
      | RQ_None => signature
      end
  | None => signature
  end.

(** [getDirectCallee()] is [None] for a null callee, on which the
    assertion fails.  [signature.size() - 2] is computed only after at
    least one [", "] has been appended. *)
Definition GetSignature (getDirectCallee : option DirectCallee)
  : option string :=
  callee ← getDirectCallee;
  let target :=
    default (declared callee) (getTemplateInstantiationPattern callee) in
  let signature := getQualifiedNameAsString target in
  let signature := signature +:+ "(" in
  let signature :=
    foldl (λ signature ty, (signature +:+ ty) +:+ ", ") signature
          (target_parameters target) in
  let signature :=
    if isVariadic target then signature +:+ "..."
    else if bool_decide (0 < length (target_parameters target))%nat
    then resize (String.length signature - 2) signature
    else signature in
  let signature := signature +:+ ")" in
  Some (qualifiers (target_type target) signature).

(** ** Pragmas of stream parameters and of lower-level tasks
    (task.cpp, lines 175-204 and 656-681) *)

(** [(i|o)streams] *)
Definition p_any_streams := Cat (Alt (Lit "i") (Lit "o")) (Lit "streams").
(** [istreams?] *)
Definition p_istream_or_istreams := Cat (Lit "istream") (Opt (Lit "s")).

(** [llvm::join(args, sep)] *)
Definition llvm_join (args : list string) (sep : string) : string :=
  String.concat sep args.

Section pragmas.

(** [GetFifoVar] and [GetPeekVar] are declared in a header that is not part
    of the sources at hand; nothing is assumed about them. *)
Variable GetFifoVar : string → string.
Variable GetPeekVar : string → string.

(** [AddPragmaForStream]: the argument lists passed to [add], in order.
    The assertion fails on a parameter that is no stream; reserving a
    negative number of names is an error. *)
Definition AddPragmaForStream (param : ParmVarDecl)
  : option (list (list string)) :=
  let ty := parm_type param in
  if IsTapaType ty p_any_stream_or_streams then
    let name := parm_name param in
    names ← (if IsTapaType ty p_any_streams then
               array_size ← GetArraySize ty;
               if decide (0 ≤ array_size)
               then Some (ArrayNameAt name <$> seqZ 0 array_size)
               else None
             else Some [name]);
    Some ([["disaggregate variable ="; name]]
          ++ (if IsTapaType ty p_any_streams
              then [["array_partition variable ="; name; "complete"]]
              else [])
          ++ (names ≫= λ name,
                let fifo_var := GetFifoVar name in
                [["interface ap_fifo port ="; fifo_var];
                 ["aggregate variable ="; fifo_var; "bit"]]
                ++ (if IsTapaType ty p_istream_or_istreams then
                      let peek_var := GetPeekVar name in
                      [["interface ap_fifo port ="; peek_var];
                       ["aggregate variable ="; peek_var; "bit"]]
                    else [])))
  else None.

(** The lambda [add] of [ProcessLowerLevelTask]. *)
Definition pragma_line (args : list string) : string :=
  "#pragma HLS " +:+ llvm_join args " ".

Definition async_mmap_tags : list string :=
  ["read_addr"; "read_data"; "read_peek"; "write_addr"; "write_data"].

(** The argument lists passed to [add] for one parameter. *)
Definition parameter_pragmas (param : ParmVarDecl)
  : option (list (list string)) :=
  let name := parm_name param in
  let ty := parm_type param in
  if IsTapaType ty p_any_stream_or_streams then
    AddPragmaForStream param
  else if IsTapaType ty p_async_mmap then
    Some ([["disaggregate variable ="; name]]
          ++ (async_mmap_tags ≫= λ tag,
                [["interface ap_fifo port ="; name; "."; tag];
                 ["aggregate variable ="; name; " . "; tag; " bit"]]))
  else if IsTapaType ty p_mmap then
    Some [["interface m_axi port ="; name; "offset = direct bundle =";
           name]]
  else Some [].

(** The [lines] built for one parameter: they start and finish with an
    empty line. *)
Definition parameter_lines (param : ParmVarDecl) : option (list string) :=
  pragmas ← parameter_pragmas param;
  Some ([EmptyString] ++ (pragma_line <$> pragmas) ++ [EmptyString]).

(** [Visitor::ProcessLowerLevelTask]: the texts inserted after the opening
    brace of the body, one for each parameter, in the order of the
    insertions.  The body is dereferenced for each parameter. *)
Definition ProcessLowerLevelTask (func : FunctionDecl)
  : option (list string) :=
  mapM (λ param, lines' ← parameter_lines param;
                 _ ← getBody func;
                 Some (llvm_join lines' newline))
       (parameters func).

End pragmas.

(** ** Parameters rewritten to base addresses (task.cpp, lines 258-272) *)

Inductive Edit :=
| ReplaceTypeOf (param_name : string) (text : string)
| ReplaceParameter (param_name : string) (text : string).

Definition rewritten_text (param_name : string) (r : list Z) : string :=
  foldl (λ rewritten_text i,
           (if is_empty rewritten_text then rewritten_text
            else rewritten_text +:+ ", ")
           +:+ "uint64_t " +:+ GetArrayElem param_name i)
        EmptyString r.

Definition rewrite_parameter (param : ParmVarDecl) : option (list Edit) :=
  let param_name := parm_name param in
  if IsTapaType (parm_type param) p_any_mmap then
    Some [ReplaceTypeOf param_name "uint64_t"]
  else if IsTapaType (parm_type param) p_any_mmaps then
    n ← GetArraySize (parm_type param);
    r ← int_range n;
    Some [ReplaceParameter param_name (rewritten_text param_name r)]
  else Some [].

Definition rewrite_parameters (func : FunctionDecl) : option (list Edit) :=
  edits ← mapM rewrite_parameter (parameters func);
  Some (concat edits).

(** * Vocabulary of the further properties *)

(** ** Edges of the task graph *)

(** An edge [(t, k)] refers to an instance that exists: [k] is an index
    into the instance list of task [t]. *)
Definition valid_edge (md : Metadata) (e : option (string * Z)) : Prop :=
  ∀ t k, e = Some (t, k) → 0 ≤ k < Z.of_nat (length (instances_at md t)).

Definition edges_valid (st : State) : Prop :=
  ∀ c f, fifos (metadata st) !! c = Some f →
    valid_edge (metadata st) (Fifo.produced_by f)
    ∧ valid_edge (metadata st) (Fifo.consumed_by f).

(** While the arguments of an invocation are processed the edges are valid
    and the current task, once its declaration is known, has an instance. *)
Definition edges_invariant (loc : Locals) (st : State) : Prop :=
  edges_valid st
  ∧ (is_Some (task loc) → instances_at (metadata st) (task_name loc) ≠ []).

Definition edges_stay : relation State := λ st st',
  edges_valid st → edges_valid st'.

Definition edges_kept (tn : string) : relation State := λ st st',
  edges_valid st ∧ instances_at (metadata st) tn ≠ [] →
  edges_valid st' ∧ instances_at (metadata st') tn ≠ [].

(** Since [st0] an edge is either as it was or refers to an instance
    appended to the list of [fname] since then. *)
Definition edge_from (st0 : State) (fname : string) (st : State)
    (e e0 : option (string * Z)) : Prop :=
  ∀ t k, e = Some (t, k) →
    e0 = Some (t, k)
    ∨ (t = fname
       ∧ ∃ j : nat,
           (length (instances_at (metadata st0) fname) ≤ j
            < length (instances_at (metadata st) fname))%nat
           ∧ k = wrap64 (Z.of_nat j)).

Definition edges_from (st0 : State) (fname : string) (st : State) : Prop :=
  ∀ c f, fifos (metadata st) !! c = Some f →
    edge_from st0 fname st (Fifo.produced_by f)
              (Fifo.produced_by (fifo_at (metadata st0) c))
    ∧ edge_from st0 fname st (Fifo.consumed_by f)
                (Fifo.consumed_by (fifo_at (metadata st0) c)).

Definition edges_from_kept (st0 : State) (fname : string) : relation State :=
  λ st st',
    edges_from st0 fname st
    ∧ (length (instances_at (metadata st0) fname)
       < length (instances_at (metadata st) fname))%nat →
    edges_from st0 fname st'
    ∧ (length (instances_at (metadata st0) fname)
       < length (instances_at (metadata st') fname))%nat.

(** ** Diagnostics are only ever appended *)

Definition extends : relation State := λ st st',
  diagnostics st `prefix_of` diagnostics st'.

(** ** What the phases keep *)

Definition same_edges : relation State := λ st st',
  ∀ c, Fifo.produced_by (fifo_at (metadata st') c)
       = Fifo.produced_by (fifo_at (metadata st) c)
     ∧ Fifo.consumed_by (fifo_at (metadata st') c)
       = Fifo.consumed_by (fifo_at (metadata st) c).

Definition same_depths : relation State := λ st st',
  ∀ c, Fifo.depth (fifo_at (metadata st') c)
       = Fifo.depth (fifo_at (metadata st) c).

Definition same_instances (t : string) : relation State := λ st st',
  instances_at (metadata st') t = instances_at (metadata st) t.


(** The callee named by the first runtime argument of an invocation. *)
Definition callee_of (invoke : CXXMemberCallExpr) : option string :=
  match call_args invoke with
  | DeclRefExpr fname _ _ None :: _ => Some fname
  | _ => None
  end.

(** The number of replicas an invocation is processed for. *)
Definition replicas (invoke : CXXMemberCallExpr) : nat :=
  match getCalleeDecl invoke with
  | Some targs => Z.to_nat (default 0 (vec_length <$> header_of targs))
  | None => 1
  end.

(** ** The names of the ports of a parameter *)

Definition mmap_cat (param : ParmVarDecl) : string :=
  if IsTapaType (parm_type param) p_async_mmap_or_mmaps
  then "async_mmap" else "mmap".

(** Name and category of the ports a parameter of the task gives rise
    to. *)
Definition port_names (param : ParmVarDecl) : list (string * string) :=
  if IsTapaType (parm_type param) p_any_mmap then
    [(parm_name param, mmap_cat param)]
  else if IsTapaType (parm_type param) p_any_mmaps then
    match GetArraySize (parm_type param) with
    | Some n =>
        (λ i, (parm_name param +:+ "[" +:+ to_string i +:+ "]",
               mmap_cat param)) <$> seqZ 0 n
    | None => []
    end
  else if IsStreamInterface param then []
  else [(parm_name param, "scalar")].

Definition port_name_cat (p : Port.t) : string * string :=
  (Port.name p, Port.cat p).

(** ** Statements below a statement *)

Definition is_task (s : Stmt) : bool :=
  match s with
  | ExprWithCleanups ty _ => bool_decide (ty = "struct tapa::task")
  | _ => false
  end.

Definition is_invoke (invoke : CXXMemberCallExpr) : bool :=
  bool_decide (record_name invoke = "tapa::task")
  && bool_decide (method_name invoke = "invoke").

(** [invoke] is a call of [tapa::task::invoke] at [stmt] or below it. *)
Inductive invoked_below (invoke : CXXMemberCallExpr) : Stmt → Prop :=
  | invoked_here c :
      is_invoke invoke = true → invoked_below invoke (MemberCall invoke c)
  | invoked_child stmt child :
      child ∈ children_of stmt → invoked_below invoke child →
      invoked_below invoke stmt.


(** * Properties *)

(** ** Reasoning about computations *)

Lemma bind_Some {A B} (c : M A) (k : A → M B) st r :
  (c ≫= k) st = Some r ↔ ∃ a st', c st = Some (a, st') ∧ k a st' = Some r.
Proof.
  unfold mbind, M_bind. split.
  - destruct (c st) as [[a st']|] eqn:E; [eauto | discriminate].
  - intros (a & st' & -> & ?). done.
Qed.

Lemma lift_Some {A} (o : option A) st r :
  lift o st = Some r ↔ ∃ a, o = Some a ∧ r = (a, st).
Proof.
  destruct o; simpl; unfold mret, M_ret, undefined; split.
  - intros [= <-]. eauto.
  - intros (? & [= <-] & ->). done.
  - discriminate.
  - intros (? & ? & _). discriminate.
Qed.

Lemma mret_Some {A} (a : A) st r :
  (mret a : M A) st = Some r ↔ r = (a, st).
Proof. unfold mret, M_ret. split; [intros [= <-] | intros ->]; done. Qed.

Lemma lift_bind {A B} (a : A) (k : A → M B) st :
  (lift (Some a) ≫= k) st = k a st.
Proof. done. Qed.




Section respects.
Context (R : relation State) `{!PreOrder R}.

Lemma respects_mret {A} (a : A) : respects R (mret a).
Proof. intros st a' st' [= _ <-]%mret_Some. done. Qed.

Lemma respects_undefined {A} : respects R (@undefined A).
Proof. intros st a st'. discriminate. Qed.

Lemma respects_lift {A} (o : option A) : respects R (lift o).
Proof. destruct o; [apply respects_mret | apply respects_undefined]. Qed.

Lemma respects_bind {A B} (c : M A) (k : A → M B) :
  respects R c → (∀ a, respects R (k a)) → respects R (c ≫= k).
Proof.
  intros Hc Hk st b st' (a & st1 & H1 & H2)%bind_Some.
  etrans; [by eapply Hc | by eapply Hk].
Qed.

Lemma respects_when b (c : M unit) : respects R c → respects R (when b c).
Proof. destruct b; [done | intros _; apply respects_mret]. Qed.

Lemma respects_for_each {A} (l : list A) (body : A → M unit) :
  (∀ x, respects R (body x)) → respects R (for_each l body).
Proof.
  intros Hb. induction l; simpl.
  - apply respects_mret.
  - apply respects_bind; [apply Hb | done].
Qed.

Lemma respects_for_fold {A B} (l : list A) (body : B → A → M B) b :
  (∀ b x, respects R (body b x)) → respects R (for_fold l body b).
Proof.
  intros Hb. revert b. induction l; intros b; simpl.
  - apply respects_mret.
  - apply respects_bind; [apply Hb | done].
Qed.

Lemma respects_EvalAsInt e :
  (∀ d, respects R (Report d)) → respects R (EvalAsInt e).
Proof.
  intros HR. destruct e; simpl; [apply respects_mret|].
  apply respects_bind; [apply HR | intros; apply respects_mret].
Qed.
End respects.

(** Breaks a computation down along its control structure. *)
Tactic Notation "rapply" uconstr(lem) := (apply lem; try exact _).

Ltac respects_intro := repeat lazymatch goal with |- ∀ _, _ => intro end.

Ltac respects_step :=
  first
    [ rapply respects_mret
    | rapply respects_undefined
    | rapply respects_lift
    | rapply respects_when
    | rapply respects_for_each
    | rapply respects_for_fold
    | rapply respects_bind
    | match goal with
      | |- respects _ (match ?x with _ => _ end) => destruct x
      | |- respects _ (if ?b then _ else _) => destruct b
      | |- respects _ (let '(_, _) := ?x in _) => destruct x
      end ];
  respects_intro.
Ltac respects_auto := repeat (respects_step; try done).

(** ** Relations respected by the processing of invocations

    The invocation loop changes the state through five operations only:
    reporting a diagnostic, setting an edge of a fifo, updating the last
    instance of the current task, and appending an instance. *)

Section binding_respects.
Context (R : relation State) `{!PreOrder R}.
Context (tn : string).
Hypothesis R_Report : ∀ d, respects R (Report d).
Hypothesis R_consumed :
  ∀ name e, respects R (update_fifo name (set_consumed_by e)).
Hypothesis R_produced :
  ∀ name e, respects R (update_fifo name (set_produced_by e)).
Hypothesis R_set_arg :
  ∀ port a, respects R (update_last_instance tn (set_arg port a)).
Hypothesis R_set_name :
  ∀ s, respects R (update_last_instance tn (set_name s)).

Lemma respects_get_metadata : respects R get_metadata.
Proof. intros st a st' [= _ <-]. done. Qed.

Lemma respects_get_name is_vec name i decl_ref :
  respects R (get_name is_vec name i decl_ref).
Proof.
  unfold get_name.
  repeat first [ apply R_Report | by rapply respects_EvalAsInt
               | respects_step; try done ].
Qed.

Lemma respects_register_arg arg_name param_name param_cat arg port :
  respects R (register_arg tn arg_name param_name param_cat arg port).
Proof. apply R_set_arg. Qed.

Lemma respects_register_consumer arg_name arg :
  respects R (register_consumer tn arg_name arg).
Proof.
  unfold register_consumer.
  repeat first [ apply R_Report | apply R_consumed
               | apply respects_get_metadata | respects_step; try done ].
Qed.

Lemma respects_register_producer arg_name arg :
  respects R (register_producer tn arg_name arg).
Proof.
  unfold register_producer.
  repeat first [ apply R_Report | apply R_produced
               | apply respects_get_metadata | respects_step; try done ].
Qed.

Lemma respects_bind_param h i_vec loc i arg_name decl_ref arg_is_seq :
  task_name loc = tn →
  respects R (bind_param h i_vec loc i arg_name decl_ref arg_is_seq).
Proof.
  intros Htn. unfold bind_param. rewrite Htn.
  repeat first
    [ apply respects_register_arg
    | apply respects_register_consumer
    | apply respects_register_producer
    | apply respects_get_name
    | respects_step; try done ].
Qed.

Lemma respects_process_arg_rest h i_vec loc i arg :
  task_name loc = tn → i ≠ 0 →
  respects R (process_arg h i_vec loc (i, arg)).
Proof.
  intros Htn Hi. unfold process_arg.
  destruct (decide (i = 0)) as [|_]; [done|].
  repeat first
    [ by apply respects_bind_param
    | rewrite Htn; apply R_set_name
    | apply R_Report
    | by rapply respects_EvalAsInt
    | respects_step; try done ].
Qed.
End binding_respects.

Section invocation_respects.
Context (R : relation State) `{!PreOrder R}.
Hypothesis R_Report : ∀ d, respects R (Report d).
Hypothesis R_consumed :
  ∀ name e, respects R (update_fifo name (set_consumed_by e)).
Hypothesis R_produced :
  ∀ name e, respects R (update_fifo name (set_produced_by e)).
Hypothesis R_set_arg :
  ∀ tn port a, respects R (update_last_instance tn (set_arg port a)).
Hypothesis R_set_name :
  ∀ tn s, respects R (update_last_instance tn (set_name s)).
Hypothesis R_push : ∀ tn inst, respects R (push_instance tn inst).

Lemma respects_process_arg h i_vec loc ia :
  respects R (process_arg h i_vec loc ia).
Proof.
  destruct ia as [i arg]. destruct (decide (i = 0)) as [->|Hi].
  - unfold process_arg. simpl.
    repeat first
      [ apply R_push | apply R_Report
      | by rapply respects_EvalAsInt
      | respects_step; try done ].
  - apply (respects_process_arg_rest R (task_name loc)); try exact _; auto.
Qed.

Lemma respects_process_replica h invoke loc i_vec :
  respects R (process_replica h invoke loc i_vec).
Proof. rapply respects_for_fold. intros. apply respects_process_arg. Qed.

Lemma respects_invoke_header invoke : respects R (invoke_header invoke).
Proof.
  unfold invoke_header.
  repeat first [ apply R_Report | respects_step; try done ].
Qed.

Lemma respects_process_invoke invoke : respects R (process_invoke invoke).
Proof.
  unfold process_invoke.
  rapply respects_bind; [apply respects_invoke_header | intros h].
  rapply respects_bind; [|intros; by rapply respects_mret].
  rapply respects_for_fold. intros. apply respects_process_replica.
Qed.

Lemma respects_invokes invokes :
  respects R (for_each invokes process_invoke).
Proof. rapply respects_for_each. apply respects_process_invoke. Qed.
End invocation_respects.

(** ** Rounding helpers *)

Lemma wrap64_small z : 0 ≤ z < 2 ^ 64 → wrap64 z = z.
Proof. intros. unfold wrap64. by apply Z.mod_small. Qed.

Lemma round_up_div_exact N i :
  1 ≤ N → 1 ≤ i < 2 ^ 64 → util.round_up_div N i = (i - 1) / N + 1.
Proof.
  intros HN Hi. unfold util.round_up_div.
  rewrite (wrap64_small (i - 1)) by lia.
  apply wrap64_small.
  assert (0 ≤ (i - 1) / N) by (apply Z.div_pos; lia).
  assert ((i - 1) / N ≤ i - 1) by (apply Z.div_le_upper_bound; nia).
  lia.
Qed.

(** C10: for [N >= 1] and [1 <= i < 2^64], [round_up_div<N>(i)] is the
    ceiling of [i / N]; when that ceiling times [N] fits in 64 bits,
    [round_up<N>(i)] is the least multiple of [N] that is at least [i].
    At [i = 0] the subtraction wraps to [2^64 - 1], and for [N >= 2] the
    result is not the ceiling [0]. *)
Theorem round_up_div_ceiling (N i : Z) :
  1 ≤ N < 2 ^ 64 → 1 ≤ i < 2 ^ 64 →
  let q := util.round_up_div N i in
  (q - 1) * N < i ≤ q * N
  ∧ q = (i + N - 1) / N
  ∧ (q * N < 2 ^ 64 →
       util.round_up N i = q * N
       ∧ (N | util.round_up N i)
       ∧ i ≤ util.round_up N i
       ∧ ∀ m, (N | m) → i ≤ m → util.round_up N i ≤ m)
  ∧ util.round_up_div N 0 = wrap64 ((2 ^ 64 - 1) / N + 1)
  ∧ (2 ≤ N → util.round_up_div N 0 ≠ 0).
Proof.
  intros HN Hi q.
  assert (Hq : q = (i - 1) / N + 1) by (apply round_up_div_exact; lia).
  pose proof (Z.div_mod (i - 1) N ltac:(lia)) as Hdm.
  pose proof (Z.mod_pos_bound (i - 1) N ltac:(lia)) as Hmod.
  assert (Hceil : (q - 1) * N < i ≤ q * N) by (rewrite Hq; nia).
  split; [done|]. split.
  { replace (i + N - 1) with (i - 1 + 1 * N) by lia.
    rewrite Z.div_add by lia. lia. }
  split.
  { intros Hfit.
    assert (Hr : util.round_up N i = q * N).
    { unfold util.round_up. fold (util.round_up_div N i). fold q.
      apply wrap64_small. nia. }
    rewrite Hr. split; [done|]. split; [by exists q|]. split; [lia|].
    intros m [k ->] Hm.
    assert (q - 1 < k) by nia. nia. }
  split.
  { unfold util.round_up_div. f_equal. }
  intros HN2. unfold util.round_up_div.
  change (wrap64 (0 - 1)) with (2 ^ 64 - 1).
  assert (0 ≤ (2 ^ 64 - 1) / N) by (apply Z.div_pos; lia).
  assert ((2 ^ 64 - 1) / N < 2 ^ 63).
  { apply Z.div_lt_upper_bound; lia. }
  rewrite wrap64_small by lia. lia.
Qed.

Lemma round_up_div_ceiling_witness :
  let q := util.round_up_div 4 10 in
  (q - 1) * 4 < 10 ≤ q * 4
  ∧ q = (10 + 4 - 1) / 4
  ∧ (q * 4 < 2 ^ 64 →
       util.round_up 4 10 = q * 4
       ∧ (4 | util.round_up 4 10)
       ∧ 10 ≤ util.round_up 4 10
       ∧ ∀ m, (4 | m) → 10 ≤ m → util.round_up 4 10 ≤ m)
  ∧ util.round_up_div 4 0 = wrap64 ((2 ^ 64 - 1) / 4 + 1)
  ∧ (2 ≤ 4 → util.round_up_div 4 0 ≠ 0).
Proof. apply (round_up_div_ceiling 4 10); lia. Defined.

(** At [N = 1] the two wrap-arounds cancel. *)
Example round_up_div_one_zero : util.round_up_div 1 0 = 0.
Proof. reflexivity. Qed.

Example round_up_div_two_zero : util.round_up_div 2 0 = 2 ^ 63.
Proof. reflexivity. Qed.

(** ** Host glue: the access mode of buffers *)

(** C8, as stated, fails: the mode selected for a buffer is never
    [ReadOnly], so not each of the three modes is produced. *)
Lemma direction_not_all_modes :
  ¬ (∀ mode, mode ∈ access_modes → ∃ ty, direction ty = Some mode).
Proof.
  intros H. destruct (H "ReadOnly") as [ty Hty].
  { unfold access_modes. set_solver. }
  unfold direction in Hty.
  destruct (GetTemplateArg0 ty) as [[[? c] ?]|]; [|discriminate].
  simpl in Hty. destruct c; discriminate.
Qed.

(** C8 (amended): for every mmap or async-mmap parameter, singular or
    array, the mode is [WriteOnly] when the element type is
    const-qualified and [ReadWrite] otherwise, and every buffer entry
    emitted for the parameter uses that mode. *)
Theorem frt_param_direction (param : ParmVarDecl) elem (c : bool) w :
  IsTapaType (parm_type param) p_any_mmap_or_mmaps = true →
  GetTemplateArg0 (parm_type param) = Some (elem, c, w) →
  let mode := if c then "WriteOnly" else "ReadWrite" in
  direction (parm_type param) = Some mode
  ∧ (IsTapaType (parm_type param) p_any_mmaps = false →
       frt_param param
       = Some [add_param mode (parm_name param) (parm_name param)])
  ∧ (∀ n, IsTapaType (parm_type param) p_any_mmaps = true →
       GetArraySize (parm_type param) = Some n →
       frt_param param
       = Some ((λ i, add_param mode (GetArrayElem (parm_name param) i)
                               (ArrayNameAt (parm_name param) i))
                 <$> seqZ 0 (wrap64 n))).
Proof.
  intros Hty Harg mode.
  assert (Hd : direction (parm_type param) = Some mode).
  { unfold direction. rewrite Harg. simpl. by destruct c. }
  split; [done|]. unfold frt_param. rewrite Hty, Hd. simpl. split.
  - by intros ->.
  - intros n -> ->. done.
Qed.

Lemma frt_param_direction_witness :
  direction mmap_const_float = Some "WriteOnly"
  ∧ frt_param (mkParm "a" mmap_const_float)
    = Some [add_param "WriteOnly" "a" "a"].
Proof.
  destruct (frt_param_direction (mkParm "a" mmap_const_float)
              "const float" true 32) as (Hd & Hs & _).
  - reflexivity.
  - reflexivity.
  - split; [exact Hd | apply Hs; reflexivity].
Defined.

(** ** The state changes of the primitive operations *)

Lemma Report_Some d st r :
  Report d st = Some r
  ↔ r = (tt, mkState (metadata st) (diagnostics st ++ [d])).
Proof. unfold Report. split; [intros [= <-] | intros ->]; done. Qed.

Lemma modify_metadata_Some f st r :
  modify_metadata f st = Some r
  ↔ r = (tt, mkState (f (metadata st)) (diagnostics st)).
Proof. unfold modify_metadata. split; [intros [= <-] | intros ->]; done. Qed.

Lemma update_last_instance_Some tn f st r :
  update_last_instance tn f st = Some r
  ↔ ∃ inst, last (instances_at (metadata st) tn) = Some inst
      ∧ r = (tt, mkState
                   (set_tasks (<[tn := removelast (instances_at (metadata st) tn)
                                       ++ [f inst]]> (tasks (metadata st)))
                              (metadata st))
                   (diagnostics st)).
Proof.
  unfold update_last_instance, mbind, M_bind, get_metadata. simpl.
  destruct (last (instances_at (metadata st) tn)) as [inst|]; split.
  - intros [= <-]. eauto.
  - intros (? & [= <-] & ->). done.
  - discriminate.
  - intros (? & ? & _). discriminate.
Qed.

(** ** The ports of a task *)

Global Instance same_ports_preorder : PreOrder same_ports.
Proof.
  split; [done|]. intros x y z H1 H2. unfold same_ports in *. congruence.
Qed.

Lemma same_ports_Report d : respects same_ports (Report d).
Proof. by intros st a st' [= _ ->]%Report_Some. Qed.

Lemma same_ports_modify f :
  (∀ md, ports (f md) = ports md) → respects same_ports (modify_metadata f).
Proof. intros Hf st a st' [= _ ->]%modify_metadata_Some. apply Hf. Qed.

Lemma same_ports_update_last tn f :
  respects same_ports (update_last_instance tn f).
Proof. by intros st a st' (inst & _ & [= _ ->])%update_last_instance_Some. Qed.

Lemma same_ports_invokes invokes :
  respects same_ports (for_each invokes process_invoke).
Proof.
  rapply respects_invokes; intros;
    first [ apply same_ports_Report | apply same_ports_update_last
          | by apply same_ports_modify ].
Qed.

Lemma same_ports_process_decl decls child :
  respects same_ports (process_decl decls child).
Proof.
  unfold process_decl, declare_fifo.
  repeat first [ by apply same_ports_modify | respects_step; try done ].
Qed.

Lemma same_ports_validate decls : respects same_ports (validate decls).
Proof.
  unfold validate, validate_fifo, erase_fifo.
  repeat first [ by apply same_ports_modify | apply same_ports_Report
               | by intros st a st' [= _ <-]
               | respects_step; try done ].
Qed.

Lemma ProcessUpperLevelTask_Some task func st r :
  ProcessUpperLevelTask task func st = Some r →
  ∃ func_body st1 fifo_decls st2 st3,
    getBody func = Some func_body
    ∧ for_each (parameters func) process_port
        (mkState (set_fifos ∅ (metadata st)) (diagnostics st)) = Some (tt, st1)
    ∧ for_fold func_body process_decl ∅ st1 = Some (fifo_decls, st2)
    ∧ for_each (GetTapaInvokes task) process_invoke st2 = Some (tt, st3)
    ∧ validate fifo_decls st3 = Some r.
Proof.
  unfold ProcessUpperLevelTask. intros H.
  apply bind_Some in H as (func_body & st0 & (b & Hb & [= -> ->])%lift_Some & H).
  apply bind_Some in H as ([] & st0 & [= ->]%modify_metadata_Some & H).
  apply bind_Some in H as ([] & st1 & H1 & H).
  apply bind_Some in H as (fifo_decls & st2 & H2 & H).
  apply bind_Some in H as ([] & st3 & H3 & H).
  by exists b, st1, fifo_decls, st2, st3.
Qed.

Lemma process_ports_mmap_scalar_ostream st :
  for_each mmap_scalar_ostream process_port st
  = Some (tt, mkState
                (set_ports ((ports (metadata st)
                             ++ [Port.mk "a" "mmap" 32 "float*"])
                            ++ [Port.mk "n" "scalar" 32 "int"])
                           (metadata st))
                (diagnostics st)).
Proof. by destruct st as [[] ?]. Qed.

(** C7: a task with parameters [(mmap<float> a, int n, ostream<int> o)]
    gets exactly the two ports [a] (category mmap) and [n] (category
    scalar): the loop over the parameters returns with these two ports
    appended, and the rest of the processing leaves them as they are; [o]
    gets no port (it is a fifos entry once it is passed to an
    invocation). *)
Theorem ports_of_mmap_scalar_ostream (func : FunctionDecl) (task : Stmt)
    (st : State) :
  parameters func = mmap_scalar_ostream →
  let new_ports :=
    [Port.mk "a" "mmap" 32 "float*"; Port.mk "n" "scalar" 32 "int"] in
  (∃ st1, for_each (parameters func) process_port st = Some (tt, st1)
     ∧ ports (metadata st1) = ports (metadata st) ++ new_ports)
  ∧ ∀ st', ProcessUpperLevelTask task func st = Some (tt, st') →
      ports (metadata st') = ports (metadata st) ++ new_ports
      ∧ (ports (metadata st) = [] →
           length (ports (metadata st')) = 2%nat
           ∧ ∀ p, p ∈ ports (metadata st') → Port.name p ≠ "o").
Proof.
  intros Hparams new_ports. split.
  { rewrite Hparams, process_ports_mmap_scalar_ostream. eexists.
    split; [done|]. simpl. by rewrite <- app_assoc. }
  intros st' Hrun.
  apply ProcessUpperLevelTask_Some in Hrun
    as (body & st1 & decls & st2 & st3 & _ & H1 & H2 & H3 & H4).
  assert (Hports : ports (metadata st') = ports (metadata st) ++ new_ports).
  { rewrite (same_ports_validate _ _ _ _ H4).
    rewrite (same_ports_invokes _ _ _ _ H3).
    assert (Hd : same_ports st1 st2).
    { revert H2. rapply respects_for_fold. apply same_ports_process_decl. }
    rewrite Hd. rewrite Hparams, process_ports_mmap_scalar_ostream in H1.
    injection H1 as <-. simpl. by rewrite <- app_assoc. }
  split; [done|]. intros Hnil. rewrite Hports, Hnil. simpl. split; [done|].
  intros p [->|[->|[]%elem_of_nil]%elem_of_cons]%elem_of_cons; done.
Qed.

Lemma ports_of_mmap_scalar_ostream_witness :
  ∃ st', ProcessUpperLevelTask Top_task Top initial_state = Some (tt, st')
    ∧ ports (metadata st')
      = [Port.mk "a" "mmap" 32 "float*"; Port.mk "n" "scalar" 32 "int"]
    ∧ fifos (metadata st') !! "o"
      = Some (Fifo.mk None (Some ("Producer", 0)) None).
Proof.
  destruct (ProcessUpperLevelTask Top_task Top initial_state)
    as [[[] st']|] eqn:Hrun; [|by vm_compute in Hrun].
  exists st'. split; [done|].
  split.
  - destruct (ports_of_mmap_scalar_ostream Top Top_task initial_state)
      as [_ Hports]; [reflexivity|].
    by apply Hports.
  - vm_compute in Hrun. by injection Hrun as <-.
Defined.

(** ** The instances of a task *)

Lemma instances_at_insert md tn l :
  instances_at (set_tasks (<[tn := l]> (tasks md)) md) tn = l.
Proof. unfold instances_at. simpl. by rewrite lookup_insert_eq. Qed.

Lemma instances_at_insert_ne md tn tn' l :
  tn ≠ tn' →
  instances_at (set_tasks (<[tn := l]> (tasks md)) md) tn' = instances_at md tn'.
Proof. intros. unfold instances_at. simpl. by rewrite lookup_insert_ne. Qed.

Lemma last_Some_snoc {A} (l : list A) x :
  last l = Some x → l = removelast l ++ [x].
Proof.
  destruct l as [|y l] using rev_ind; [done|].
  rewrite last_snoc, removelast_last. by intros [= ->].
Qed.

Lemma length_replace_last {A} (l : list A) x y :
  last l = Some x → length (removelast l ++ [y]) = length l.
Proof.
  intros H%last_Some_snoc. rewrite H at 2. by rewrite !length_app.
Qed.

(** ** Registering channel edges *)

Lemma update_fifo_Some name f st r :
  update_fifo name f st = Some r
  ↔ r = (tt, mkState
               (set_fifos (<[name := f (fifo_at (metadata st) name)]>
                            (fifos (metadata st))) (metadata st))
               (diagnostics st)).
Proof. unfold update_fifo. by rewrite modify_metadata_Some. Qed.


Lemma register_consumer_eq tn arg_name arg st :
  let c := if is_empty arg then arg_name else arg in
  let edge := (tn, last_ordinal (metadata st) tn) in
  register_consumer tn arg_name arg st
  = Some (tt, mkState
                (set_fifos (<[c := set_consumed_by edge (fifo_at (metadata st) c)]>
                              (fifos (metadata st))) (metadata st))
                (diagnostics st
                 ++ if bool_decide (is_Some (Fifo.consumed_by (fifo_at (metadata st) c)))
                    then [consumed_more_than_once c] else [])).
Proof.
  intros c edge. unfold register_consumer. fold c.
  unfold mbind, M_bind, get_metadata, when.
  destruct (bool_decide _); simpl; [done|].
  by rewrite app_nil_r.
Qed.

Lemma register_producer_eq tn arg_name arg st :
  let c := if is_empty arg then arg_name else arg in
  let edge := (tn, last_ordinal (metadata st) tn) in
  register_producer tn arg_name arg st
  = Some (tt, mkState
                (set_fifos (<[c := set_produced_by edge (fifo_at (metadata st) c)]>
                              (fifos (metadata st))) (metadata st))
                (diagnostics st
                 ++ if bool_decide (is_Some (Fifo.produced_by (fifo_at (metadata st) c)))
                    then [produced_more_than_once c] else [])).
Proof.
  intros c edge. unfold register_producer. fold c.
  unfold mbind, M_bind, get_metadata, when.
  destruct (bool_decide _); simpl; [done|].
  by rewrite app_nil_r.
Qed.



(** ** Vectorised invocations and array-typed actual arguments *)




Lemma ArrayNameAt_nonempty name idx : is_empty (ArrayNameAt name idx) = false.
Proof. by destruct name. Qed.



(** For a stream array the replicas that wrap around are bound to a slot
    that already has its edge: the duplicate-edge error follows each
    remark. *)
Example wraparound_invoke_diagnostics :
  (λ r : unit * State, diagnostics r.2)
    <$> process_invoke wraparound_invoke initial_state
  = Some [invocation_accesses "3" "a" "0" "tapa::streams<int, 3, 2>";
          consumed_more_than_once "a[0]";
          invocation_accesses "4" "a" "1" "tapa::streams<int, 3, 2>";
          consumed_more_than_once "a[1]"].
Proof. by vm_compute. Qed.

(** ** The display name of an instance *)

(** C3, as stated, fails: with explicit naming enabled, the display name
    is taken from the literal at argument index 1 although the last runtime
    argument is the channel; with the literal in the last position the
    channel is looked up at parameter index [1 - 2], out of the callee's
    range. *)
Lemma display_name_is_not_last_argument :
  (∃ st', process_invoke name_first initial_state = Some (tt, st')
     ∧ Instance.name <$> instances_at (metadata st') "Consumer"
       = [Some "first"]
     ∧ last (call_args name_first) = Some channel_c)
  ∧ process_invoke name_last initial_state = None.
Proof.
  split; [|by vm_compute].
  destruct (process_invoke name_first initial_state)
    as [[[] st']|] eqn:Hrun; [|by vm_compute in Hrun].
  exists st'. split; [done|].
  vm_compute in Hrun. injection Hrun as <-. split; by vm_compute.
Qed.

(** C3 (amended): with explicit naming enabled, a string literal at
    argument index 1, right after the callee, sets the display name of the
    instance created last for the current task; it changes no argument
    binding of the instance, no fifo and no diagnostic.  A string literal
    at any other index is reported as an unexpected argument and changes
    no metadata. *)
Theorem name_literal_sets_display_name (h : InvokeHeader) (i_vec : Z)
    (loc : Locals) (s : string) (st : State) (inst : Instance.t) :
  has_name h = true →
  last (instances_at (metadata st) (task_name loc)) = Some inst →
  (∃ st', process_arg h i_vec loc (1, StringLiteral s) st = Some (loc, st')
     ∧ last (instances_at (metadata st') (task_name loc))
       = Some (Instance.mk (Instance.step inst) (Some s) (Instance.args inst))
     ∧ length (instances_at (metadata st') (task_name loc))
       = length (instances_at (metadata st) (task_name loc))
     ∧ fifos (metadata st') = fifos (metadata st)
     ∧ diagnostics st' = diagnostics st)
  ∧ (∀ i, i ≠ 1 →
       process_arg h i_vec loc (i, StringLiteral s) st
       = Some (loc, mkState (metadata st)
                      (diagnostics st ++ [unexpected_argument "StringLiteral"]))).
Proof.
  intros Hname Hlast. split.
  - unfold process_arg. simpl. rewrite Hname. simpl.
    unfold mbind, M_bind.
    destruct (update_last_instance (task_name loc) (set_name s) st)
      as [[[] st']|] eqn:Hupd.
    + apply update_last_instance_Some in Hupd as (inst' & Hl & [= ->]).
      rewrite Hlast in Hl. injection Hl as <-.
      eexists. split; [done|]. simpl.
      rewrite instances_at_insert, last_snoc.
      split; [done|]. split; [|done].
      by eapply length_replace_last.
    + exfalso.
      destruct (update_last_instance_Some (task_name loc) (set_name s) st
                  (tt, mkState
                     (set_tasks
                        (<[task_name loc :=
                             removelast (instances_at (metadata st) (task_name loc))
                             ++ [set_name s inst]]> (tasks (metadata st)))
                        (metadata st)) (diagnostics st))) as [_ H].
      rewrite Hupd in H. discriminate H. by exists inst.
  - intros i Hi. unfold process_arg. simpl.
    rewrite bool_decide_eq_false_2 by done. done.
Qed.

Lemma name_literal_sets_display_name_witness :
  ∃ st', process_arg (mkHeader 0 true false 1) 0
           (mkLocals (Some Consumer) "Consumer") (1, StringLiteral "first")
           after_callee
         = Some (mkLocals (Some Consumer) "Consumer", st')
    ∧ last (instances_at (metadata st') "Consumer")
      = Some (Instance.mk 0 (Some "first") ∅).
Proof.
  destruct (name_literal_sets_display_name (mkHeader 0 true false 1) 0
              (mkLocals (Some Consumer) "Consumer") "first" after_callee
              (Instance.mk 0 None ∅)) as [(st' & Hrun & Hl & _) _].
  - reflexivity.
  - reflexivity.
  - exists st'. split; [exact Hrun | exact Hl].
Defined.

(** ** End-of-task validation *)

Lemma validate_fifo_eq decls entry st :
  validate_fifo decls entry st
  = if implb (edgeless entry.2) (bool_decide (is_Some (decls !! entry.1)))
    then Some (tt, mkState
                     (set_fifos (pruned [entry] (fifos (metadata st)))
                                (metadata st))
                     (diagnostics st ++ entry_diagnostics decls entry))
    else None.
Proof.
  destruct entry as [c f]. unfold validate_fifo, entry_diagnostics, pruned.
  simpl. unfold edgeless.
  destruct (bool_decide (is_Some (Fifo.consumed_by f))),
           (bool_decide (is_Some (Fifo.produced_by f))); simpl;
    try (destruct (decls !! c) eqn:E; simpl;
         [rewrite ?bool_decide_eq_true_2 by eauto
         |rewrite ?bool_decide_eq_false_2 by (by intros [? ?])]; simpl);
    try done;
    destruct st as [[] ?]; simpl; by rewrite ?app_nil_r.
Qed.

Lemma validate_loop_eq decls l st :
  for_each l (validate_fifo decls) st
  = if validation_defined decls l
    then Some (tt, mkState
                     (set_fifos (pruned l (fifos (metadata st))) (metadata st))
                     (diagnostics st ++ (l ≫= entry_diagnostics decls)))
    else None.
Proof.
  revert st. induction l as [|entry l IH]; intros st; simpl.
  - rewrite app_nil_r. by destruct st as [[] ?].
  - unfold mbind at 1, M_bind. rewrite validate_fifo_eq.
    destruct (implb _ _); [|done]. simpl. rewrite IH. simpl.
    destruct (validation_defined decls l); [|done].
    by rewrite <- app_assoc.
Qed.

Lemma validate_eq decls st :
  validate decls st
  = let l := map_to_list (fifos (metadata st)) in
    if validation_defined decls l
    then Some (tt, mkState
                     (set_fifos (pruned l (fifos (metadata st))) (metadata st))
                     (diagnostics st ++ (l ≫= entry_diagnostics decls)))
    else None.
Proof. unfold validate, mbind at 1, M_bind, get_metadata. apply validate_loop_eq. Qed.

Lemma pruned_lookup_None l m c : m !! c = None → pruned l m !! c = None.
Proof.
  revert m. induction l as [|[c' f] l IH]; intros m Hm; simpl; [done|].
  apply IH. destruct (edgeless f); [|done].
  destruct (decide (c' = c)) as [->|];
    [apply lookup_delete_eq | by rewrite lookup_delete_ne].
Qed.

Lemma pruned_lookup_edgeless l m c f :
  (c, f) ∈ l → edgeless f = true → pruned l m !! c = None.
Proof.
  revert m. induction l as [|[c' f'] l IH]; intros m Hin He; simpl.
  - by apply elem_of_nil in Hin.
  - apply elem_of_cons in Hin as [[= <- <-]|Hin]; [|by apply IH].
    simpl. rewrite He. apply pruned_lookup_None, lookup_delete_eq.
Qed.

Lemma pruned_lookup_kept l m c :
  (∀ f, (c, f) ∈ l → edgeless f = false) → pruned l m !! c = m !! c.
Proof.
  revert m. induction l as [|[c' f'] l IH]; intros m Hl; simpl; [done|].
  rewrite IH by (intros f ?; apply Hl; by right).
  destruct (edgeless f') eqn:He; [|done]. simpl.
  destruct (decide (c' = c)) as [->|]; [|by rewrite lookup_delete_ne].
  rewrite (Hl f') in He; [done | by left].
Qed.

(** The loop keeps exactly the fifos that have an edge. *)
Lemma pruned_lookup (m : gmap string Fifo.t) c :
  pruned (map_to_list m) m !! c
  = f ← m !! c; if edgeless f then None else Some f.
Proof.
  destruct (m !! c) as [f|] eqn:Hm; simpl.
  - destruct (edgeless f) eqn:He.
    + eapply pruned_lookup_edgeless; [|done]. by apply elem_of_map_to_list.
    + rewrite pruned_lookup_kept; [done|].
      intros f' Hin%elem_of_map_to_list. congruence.
  - by apply pruned_lookup_None.
Qed.



Lemma edgeless_cases f :
  edgeless f
  = match Fifo.produced_by f, Fifo.consumed_by f with
    | None, None => true
    | _, _ => false
    end.
Proof.
  unfold edgeless. by destruct (Fifo.produced_by f), (Fifo.consumed_by f).
Qed.





(** ** Declared channels *)



Lemma int_range_Some n r : int_range n = Some r → r = seqZ 0 n.
Proof. unfold int_range. case_decide; by intros [= <-]. Qed.



(** ** Channel conservation *)




Lemma Pipeline_run :
  ProcessUpperLevelTask Pipeline_task Pipeline initial_state
  = Some (tt, mkState
                (mkMetadata None []
                   {[ "c" := Fifo.mk (Some 2) (Some ("Producer", 0))
                                     (Some ("Consumer", 0)) ]}
                   {[ "Producer" :=
                        [Instance.mk 0 None {[ "out" := Arg.mk "ostream" "c" ]}];
                      "Consumer" :=
                        [Instance.mk 0 None {[ "in" := Arg.mk "istream" "c" ]}] ]})
                []).
Proof. by vm_compute. Qed.


(** ** The invocation loop only adds to the graph *)

Lemma edgeless_false f :
  edgeless f = false
  ↔ is_Some (Fifo.produced_by f) ∨ is_Some (Fifo.consumed_by f).
Proof.
  rewrite edgeless_cases.
  split.
  - destruct (Fifo.produced_by f), (Fifo.consumed_by f); intros; eauto.
    discriminate.
  - intros [[e He]|[e He]]; rewrite He; [done|].
    by destruct (Fifo.produced_by f).
Qed.

Global Instance grows_preorder : PreOrder grows.
Proof.
  split.
  - intros st. split; [done | by eauto 6 | congruence].
  - intros st1 st2 st3 [Hd1 Hf1 Hn1] [Hd2 Hf2 Hn2]. split.
    + by etrans.
    + intros c f Hf.
      destruct (Hf1 c f Hf) as (f' & Hf' & Hdepth & Hp & Hc).
      destruct (Hf2 c f' Hf') as (f'' & Hf'' & Hdepth' & Hp' & Hc').
      exists f''. split; [done|]. split; [congruence|]. split; auto.
    + intros c f'' Hnone Hf''.
      destruct (fifos (metadata st2) !! c) as [f'|] eqn:Hf'; [|by eauto].
      pose proof (Hn1 c f' Hnone Hf') as He. apply edgeless_false in He.
      destruct (Hf2 c f' Hf') as (g & Hg & _ & Hp & Hc).
      rewrite Hf'' in Hg. injection Hg as <-.
      apply edgeless_false. destruct He; [left | right]; auto.
Qed.

Lemma grows_same_fifos st st' :
  fifos (metadata st') = fifos (metadata st) →
  diagnostics st `prefix_of` diagnostics st' →
  grows st st'.
Proof. intros Hf Hd. split; [done | |]; rewrite Hf; [by eauto 6 | congruence]. Qed.

Lemma grows_Report d : respects grows (Report d).
Proof.
  intros st a st' [= _ ->]%Report_Some.
  apply grows_same_fifos; [done | by apply prefix_app_r].
Qed.

Lemma grows_update_last tn f : respects grows (update_last_instance tn f).
Proof.
  intros st a st' (inst & _ & [= _ ->])%update_last_instance_Some.
  by apply grows_same_fifos.
Qed.

Lemma grows_push tn inst : respects grows (push_instance tn inst).
Proof.
  intros st a st' [= _ ->]%modify_metadata_Some. by apply grows_same_fifos.
Qed.

Lemma grows_set_edge name (set : Fifo.t → Fifo.t) :
  (∀ f, Fifo.depth (set f) = Fifo.depth f) →
  (∀ f, is_Some (Fifo.produced_by f) → is_Some (Fifo.produced_by (set f))) →
  (∀ f, is_Some (Fifo.consumed_by f) → is_Some (Fifo.consumed_by (set f))) →
  (∀ f, edgeless (set f) = false) →
  respects grows (update_fifo name set).
Proof.
  intros Hdepth Hp Hc He st a st' [= _ ->]%update_fifo_Some.
  split; simpl; [done | |].
  - intros c f Hf. destruct (decide (name = c)) as [->|Hne].
    + rewrite lookup_insert_eq. unfold fifo_at. rewrite Hf. simpl.
      eexists. split; [done|]. by auto.
    + rewrite lookup_insert_ne by done. by eauto 6.
  - intros c f' Hnone. destruct (decide (name = c)) as [->|Hne].
    + rewrite lookup_insert_eq. intros [= <-]. apply He.
    + rewrite lookup_insert_ne by done. congruence.
Qed.

Lemma grows_produced name e :
  respects grows (update_fifo name (set_produced_by e)).
Proof.
  apply grows_set_edge; intros; simpl; eauto;
    apply edgeless_false; left; simpl; eauto.
Qed.

Lemma grows_consumed name e :
  respects grows (update_fifo name (set_consumed_by e)).
Proof.
  apply grows_set_edge; intros; simpl; eauto;
    apply edgeless_false; right; simpl; eauto.
Qed.

Lemma grows_process_invoke invoke : respects grows (process_invoke invoke).
Proof.
  rapply respects_process_invoke; intros;
    first [ apply grows_Report | apply grows_update_last | apply grows_push
          | apply grows_produced | apply grows_consumed ].
Qed.

Lemma grows_invokes invokes : respects grows (for_each invokes process_invoke).
Proof. rapply respects_for_each. apply grows_process_invoke. Qed.

Lemma edgeless_declared_grows decls st st' :
  grows st st' → edgeless_declared decls st → edgeless_declared decls st'.
Proof.
  intros [_ Hf Hn] H c f' Hf' He.
  destruct (fifos (metadata st) !! c) as [f|] eqn:Hc.
  - destruct (Hf c f Hc) as (g & Hg & _ & Hp & Hq).
    rewrite Hf' in Hg. injection Hg as <-.
    apply (H c f Hc). destruct (edgeless f) eqn:E; [done|].
    apply edgeless_false in E. assert (edgeless f' = false); [|congruence].
    apply edgeless_false. destruct E; [left | right]; auto.
  - rewrite (Hn c f' Hc Hf') in He. done.
Qed.

Lemma for_fold_invariant {A B} (I : B → State → Prop) (l : list A)
    (body : B → A → M B) b st b' st' :
  (∀ b x st b' st', I b st → body b x st = Some (b', st') → I b' st') →
  I b st → for_fold l body b st = Some (b', st') → I b' st'.
Proof.
  intros Hbody. revert b st. induction l as [|x l IH]; intros b st Hb; simpl.
  - by intros [= <- <-]%mret_Some.
  - intros (b1 & st1 & H1 & H2)%bind_Some. eauto.
Qed.

Global Instance same_fifos_preorder : PreOrder same_fifos.
Proof.
  split; [done|]. intros x y z H1 H2. unfold same_fifos in *. congruence.
Qed.

Lemma same_fifos_ports params : respects same_fifos (for_each params process_port).
Proof.
  assert (Hadd : ∀ p, respects same_fifos (add_port p)).
  { intros p st a st' [= _ ->]%modify_metadata_Some. done. }
  rapply respects_for_each. intros param.
  unfold process_port, add_mmap_meta.
  repeat first [ apply Hadd | respects_step; try done ].
Qed.

Lemma declare_fifo_all_declared v d decls name st decls' st' :
  all_declared decls st →
  declare_fifo v d decls name st = Some (decls', st') →
  all_declared decls' st'.
Proof.
  intros Hall (? & st1 & [= _ ->]%update_fifo_Some & [= -> ->]%mret_Some)%bind_Some.
  intros c. simpl. destruct (decide (name = c)) as [->|].
  - rewrite !lookup_insert_eq. eauto.
  - rewrite !lookup_insert_ne by done. apply Hall.
Qed.

Lemma process_decl_all_declared decls child st decls' st' :
  all_declared decls st →
  process_decl decls child st = Some (decls', st') →
  all_declared decls' st'.
Proof.
  intros Hall. unfold process_decl.
  destruct child as [[v|]| | |]; try by intros [= <- <-]%mret_Some.
  destruct (IsTapaType (var_type v) p_stream).
  - intros H.
    apply bind_Some in H as (? & ? & (? & _ & [= <- <-])%lift_Some & H).
    apply bind_Some in H as (? & ? & (? & _ & [= <- <-])%lift_Some & H).
    by eapply declare_fifo_all_declared.
  - destruct (IsTapaType (var_type v) p_streams);
      [|by intros [= <- <-]%mret_Some].
    intros H.
    apply bind_Some in H as (? & ? & (? & _ & [= <- <-])%lift_Some & H).
    apply bind_Some in H as (? & ? & (? & _ & [= <- <-])%lift_Some & H).
    apply bind_Some in H as (n & ? & (? & _ & [= <- <-])%lift_Some & H).
    apply bind_Some in H as (r & ? & (? & _ & [= <- <-])%lift_Some & H).
    revert H. apply for_fold_invariant; [|done].
    intros ? ? ? ? ? Hb Hs. by eapply declare_fifo_all_declared.
Qed.

(** The validation loop is defined on every state the pass reaches it
    with. *)
Lemma validation_is_defined func_params func_body invokes md ds st1 decls st2 st3 :
  for_each func_params process_port (mkState (set_fifos ∅ md) ds)
  = Some (tt, st1) →
  for_fold func_body process_decl ∅ st1 = Some (decls, st2) →
  for_each invokes process_invoke st2 = Some (tt, st3) →
  edgeless_declared decls st3 ∧ ∃ st', validate decls st3 = Some (tt, st').
Proof.
  intros H1 H2 H3.
  assert (Hd : edgeless_declared decls st3).
  { apply (edgeless_declared_grows decls st2); [by eapply grows_invokes|].
    assert (all_declared decls st2) as Hall.
    { revert H2. apply for_fold_invariant.
      - intros. by eapply process_decl_all_declared.
      - intros c. rewrite (same_fifos_ports _ _ _ _ H1). simpl.
        rewrite lookup_empty. by intros [? ?]. }
    intros c f Hf _. apply Hall. eauto. }
  split; [done|]. rewrite validate_eq. simpl.
  assert (Hv : validation_defined decls (map_to_list (fifos (metadata st3)))
               = true).
  { apply forallb_forall. intros [c' f'] Hin%list_elem_of_In. simpl.
    apply elem_of_map_to_list in Hin.
    destruct (edgeless f') eqn:He; [|done]. simpl.
    apply bool_decide_eq_true_2. by eapply Hd. }
  rewrite Hv. eauto.
Qed.

(** ** The structure of one replica

    The first runtime argument names the callee and appends the instance;
    the remaining arguments update that instance and leave the local
    variables alone. *)


(** Splits the hypotheses about runs of sequenced computations. *)
Ltac inv_run :=
  repeat match goal with
  | H : (_ ≫= _) _ = Some _ |- _ => apply bind_Some in H as (? & ? & ? & ?)
  | H : lift _ _ = Some _ |- _ => apply lift_Some in H as (? & ? & ?)
  | H : mret _ _ = Some _ |- _ => apply mret_Some in H
  | H : undefined _ = Some _ |- _ => discriminate H
  | H : (_, _) = (_, _) |- _ => injection H as ? ?
  | H : Some _ = Some _ |- _ => injection H as ?
  end; subst.

Lemma process_arg_locals h i_vec loc i arg st loc' st' :
  i ≠ 0 →
  process_arg h i_vec loc (i, arg) st = Some (loc', st') → loc' = loc.
Proof.
  intros Hi. unfold process_arg.
  destruct (decide (i = 0)) as [|_]; [done|].
  repeat case_match; intros Hrun; by inv_run.
Qed.

Lemma process_arg_callee h i_vec loc fname fty fn st :
  process_arg h i_vec loc (0, DeclRefExpr fname fty fn None) st
  = Some (mkLocals fn fname,
          mkState
            (set_tasks (<[fname := instances_at (metadata st) fname
                                   ++ [Instance.mk (step h) None ∅]]>
                          (tasks (metadata st))) (metadata st))
            (diagnostics st)).
Proof. done. Qed.

Section replica_respects.
Context (R : relation State) `{!PreOrder R}.
Context (tn : string).
Hypothesis R_Report : ∀ d, respects R (Report d).
Hypothesis R_consumed :
  ∀ name e, respects R (update_fifo name (set_consumed_by e)).
Hypothesis R_produced :
  ∀ name e, respects R (update_fifo name (set_produced_by e)).
Hypothesis R_set_arg :
  ∀ port a, respects R (update_last_instance tn (set_arg port a)).
Hypothesis R_set_name :
  ∀ s, respects R (update_last_instance tn (set_name s)).

Lemma process_args_rest h i_vec (l : list Expr) j loc st loc' st' :
  1 ≤ j → task_name loc = tn →
  for_fold (indexed_from j l) (process_arg h i_vec) loc st = Some (loc', st') →
  loc' = loc ∧ R st st'.
Proof.
  revert j st. induction l as [|arg l IH]; intros j st Hj Htn; simpl.
  - intros [= <- <-]%mret_Some. done.
  - intros (loc1 & st1 & H1 & H2)%bind_Some.
    assert (loc1 = loc) as -> by (eapply process_arg_locals; [|done]; lia).
    apply IH in H2 as [-> HR]; [|lia|done]. split; [done|].
    etrans; [|done]. revert H1.
    rapply (respects_process_arg_rest R tn); [done..|lia].
Qed.
End replica_respects.

(** ** Replicas of a vectorised invocation *)

Global Instance keeps_instances_preorder tn : PreOrder (keeps_instances tn).
Proof.
  split.
  - intros st. by split.
  - intros st1 st2 st3 [Ho1 Hi1 Hs1] [Ho2 Hi2 Hs2]. split.
    + intros t Ht. rewrite Ho2, Ho1; done.
    + congruence.
    + congruence.
Qed.

Lemma keeps_same_tasks tn st st' :
  tasks (metadata st') = tasks (metadata st) → keeps_instances tn st st'.
Proof. intros H. split; intros; unfold instances_at; by rewrite H. Qed.

Lemma keeps_Report tn d : respects (keeps_instances tn) (Report d).
Proof. intros st a st' [= _ ->]%Report_Some. by apply keeps_same_tasks. Qed.

Lemma keeps_update_fifo tn name f :
  respects (keeps_instances tn) (update_fifo name f).
Proof. intros st a st' [= _ ->]%update_fifo_Some. by apply keeps_same_tasks. Qed.

Lemma keeps_update_last tn f :
  (∀ inst, Instance.step (f inst) = Instance.step inst) →
  respects (keeps_instances tn) (update_last_instance tn f).
Proof.
  intros Hf st a st' (inst & Hlast & [= _ ->])%update_last_instance_Some.
  split; simpl.
  - intros t Ht. by rewrite instances_at_insert_ne.
  - by rewrite instances_at_insert, removelast_last.
  - rewrite instances_at_insert, last_snoc, Hlast. simpl. by rewrite Hf.
Qed.

Lemma replica_appends h invoke fname fty fn rest loc i_vec st loc' st' :
  call_args invoke = DeclRefExpr fname fty fn None :: rest →
  process_replica h invoke loc i_vec st = Some (loc', st') →
  loc' = mkLocals fn fname
  ∧ (∀ t, t ≠ fname →
       instances_at (metadata st') t = instances_at (metadata st) t)
  ∧ ∃ inst, instances_at (metadata st') fname
            = instances_at (metadata st) fname ++ [inst]
      ∧ Instance.step inst = step h.
Proof.
  intros Hargs. unfold process_replica. rewrite Hargs.
  cbn [indexed_from for_fold].
  intros (loc0 & st0 & H0 & Hrest)%bind_Some.
  rewrite process_arg_callee in H0. injection H0 as <- <-.
  apply (process_args_rest (keeps_instances fname) fname) in Hrest
    as [-> [Hother Hinit Hstep]]; try done; try lia;
    try (intros; first [ apply keeps_Report | apply keeps_update_fifo
                       | by apply keeps_update_last ]).
  split; [done|]. simpl in *. split.
  - intros t Ht. rewrite Hother by done. by rewrite instances_at_insert_ne.
  - rewrite instances_at_insert in Hinit, Hstep.
    rewrite removelast_last in Hinit. rewrite last_snoc in Hstep. simpl in Hstep.
    destruct (last (instances_at (metadata st') fname)) as [inst|] eqn:Hl;
      [|done].
    injection Hstep as Hstep. exists inst. split; [|done].
    rewrite (last_Some_snoc _ _ Hl). by rewrite Hinit.
Qed.

Lemma replicas_append h invoke fname fty fn rest (l : list Z) loc st loc' st' :
  call_args invoke = DeclRefExpr fname fty fn None :: rest →
  for_fold l (process_replica h invoke) loc st = Some (loc', st') →
  (∀ t, t ≠ fname →
     instances_at (metadata st') t = instances_at (metadata st) t)
  ∧ ∃ new, instances_at (metadata st') fname
           = instances_at (metadata st) fname ++ new
      ∧ length new = length l
      ∧ Forall (λ inst, Instance.step inst = step h) new.
Proof.
  intros Hargs. revert loc st.
  induction l as [|i_vec l IH]; intros loc st; simpl.
  - intros [= <- <-]%mret_Some. split; [done|]. exists [].
    by rewrite app_nil_r.
  - intros (loc1 & st1 & H1 & H2)%bind_Some.
    eapply replica_appends in H1 as (_ & Hother1 & inst & Hinst & Hstep);
      [|done].
    apply IH in H2 as (Hother & new & Hnew & Hlen & Hsteps). split.
    + intros t Ht. by rewrite Hother, Hother1.
    + exists (inst :: new). rewrite Hnew, Hinst, <- app_assoc. simpl.
      split; [done|]. split; [by rewrite Hlen|]. by constructor.
Qed.












(** ** Duplicate producers *)
















(** * Further properties *)

(** ** More on the rounding helpers *)

Lemma round_up_exact N i :
  1 ≤ N → 1 ≤ i < 2 ^ 64 →
  util.round_up N i = wrap64 (((i - 1) / N + 1) * N).
Proof.
  intros HN Hi. unfold util.round_up.
  change (wrap64 (wrap64 (i - 1) / N + 1)) with (util.round_up_div N i).
  by rewrite round_up_div_exact.
Qed.

(** X1: a positive multiple of [N] is a fixed point of [round_up<N>], and
    [round_up_div<N>] is then the exact quotient; hence rounding up twice
    is rounding up once, whenever the first result fits in 64 bits. *)
Theorem round_up_fixes_multiples (N i : Z) :
  1 ≤ N → 1 ≤ i < 2 ^ 64 →
  ((N | i) → util.round_up N i = i ∧ util.round_up_div N i = i / N)
  ∧ (((i - 1) / N + 1) * N < 2 ^ 64 →
       util.round_up N (util.round_up N i) = util.round_up N i).
Proof.
  intros HN Hi.
  assert (Hmult : ∀ j, 1 ≤ j < 2 ^ 64 → (N | j) →
            util.round_up N j = j ∧ util.round_up_div N j = j / N).
  { intros j Hj [k ->].
    assert (Hq : (k * N - 1) / N = k - 1).
    { replace (k * N - 1) with ((N - 1) + (k - 1) * N) by lia.
      rewrite Z.div_add by lia. rewrite Z.div_small by lia. lia. }
    rewrite round_up_exact, round_up_div_exact, Hq by lia.
    rewrite Z.div_mul by lia.
    replace ((k - 1 + 1) * N) with (k * N) by lia.
    split; [apply wrap64_small; lia | lia]. }
  split; [by apply Hmult|]. intros Hfit.
  pose proof (Z.div_mod (i - 1) N ltac:(lia)) as Hdm.
  pose proof (Z.mod_pos_bound (i - 1) N ltac:(lia)) as Hmod.
  assert (Hr : util.round_up N i = ((i - 1) / N + 1) * N).
  { rewrite round_up_exact by lia. apply wrap64_small. nia. }
  rewrite Hr. apply Hmult; [nia | by eexists].
Qed.

Lemma round_up_fixes_multiples_witness :
  util.round_up 4 12 = 12 ∧ util.round_up_div 4 12 = 12 / 4.
Proof.
  destruct (round_up_fixes_multiples 4 12) as [H _]; [lia | lia |].
  apply H. by exists 3.
Defined.

(** X2: when the multiple of [N] above [i] does not fit in 64 bits,
    [round_up<N>(i)] wraps around: the result is that multiple minus
    [2^64], which is smaller than [i] (and smaller than [N]). *)
Theorem round_up_overflow (N i : Z) :
  1 ≤ N < 2 ^ 64 → 1 ≤ i < 2 ^ 64 →
  2 ^ 64 ≤ util.round_up_div N i * N →
  util.round_up N i = util.round_up_div N i * N - 2 ^ 64
  ∧ util.round_up N i < i
  ∧ util.round_up N i < N.
Proof.
  intros HN Hi. rewrite round_up_exact, round_up_div_exact by lia.
  intros Hover.
  pose proof (Z.div_mod (i - 1) N ltac:(lia)) as Hdm.
  pose proof (Z.mod_pos_bound (i - 1) N ltac:(lia)) as Hmod.
  assert (Hw : wrap64 (((i - 1) / N + 1) * N)
               = ((i - 1) / N + 1) * N - 2 ^ 64).
  { unfold wrap64. symmetry. apply (Z.mod_unique _ _ 1); nia. }
  rewrite Hw. split; [done|]. split; nia.
Qed.

Lemma round_up_overflow_witness :
  util.round_up 4 (2 ^ 64 - 1) = 0 ∧ util.round_up 4 (2 ^ 64 - 1) < 2 ^ 64 - 1.
Proof.
  destruct (round_up_overflow 4 (2 ^ 64 - 1)) as (H1 & H2 & _);
    [lia | lia | by vm_compute |].
  split; [exact H1 | exact H2].
Defined.

(** X3: on arguments from 1 on, [round_up_div<N>] is monotone, never
    exceeds its argument and is at least 1; for [N = 1] it is the
    identity. *)
Theorem round_up_div_monotone (N i j : Z) :
  1 ≤ N → 1 ≤ i ≤ j → j < 2 ^ 64 →
  1 ≤ util.round_up_div N i
  ∧ util.round_up_div N i ≤ util.round_up_div N j
  ∧ util.round_up_div N j ≤ j
  ∧ (N = 1 → util.round_up_div N i = i).
Proof.
  intros HN Hij Hj. rewrite !round_up_div_exact by lia.
  assert (0 ≤ (i - 1) / N) by (apply Z.div_pos; lia).
  assert ((i - 1) / N ≤ (j - 1) / N) by (apply Z.div_le_mono; lia).
  assert ((j - 1) / N ≤ j - 1) by (apply Z.div_le_upper_bound; nia).
  repeat split; try lia. intros ->. rewrite Z.div_1_r. lia.
Qed.

Lemma round_up_div_monotone_witness :
  1 ≤ util.round_up_div 8 9
  ∧ util.round_up_div 8 9 ≤ util.round_up_div 8 17
  ∧ util.round_up_div 8 17 ≤ 17.
Proof.
  destruct (round_up_div_monotone 8 9 17) as (H1 & H2 & H3 & _);
    [lia | lia | lia |].
  split; [exact H1 | split; [exact H2 | exact H3]].
Defined.

(** ** Edges refer to instances that exist *)

Lemma edges_valid_mono st st' :
  (∀ c f', fifos (metadata st') !! c = Some f' →
     ∃ f, fifos (metadata st) !! c = Some f
       ∧ Fifo.produced_by f' = Fifo.produced_by f
       ∧ Fifo.consumed_by f' = Fifo.consumed_by f) →
  (∀ t, (length (instances_at (metadata st) t)
         ≤ length (instances_at (metadata st') t))%nat) →
  edges_valid st → edges_valid st'.
Proof.
  intros Hf Hl Hv c f' Hc. destruct (Hf c f' Hc) as (f & Hcf & Ep & Eq).
  destruct (Hv c f Hcf) as [Hp Hq]. rewrite Ep, Eq.
  split; intros t k E;
    [specialize (Hp t k E) | specialize (Hq t k E)]; specialize (Hl t); lia.
Qed.

Global Instance edges_stay_preorder : PreOrder edges_stay.
Proof. split; unfold edges_stay; [intros ?|intros ???]; tauto. Qed.

Global Instance edges_kept_preorder tn : PreOrder (edges_kept tn).
Proof. split; unfold edges_kept; [intros ?|intros ???]; tauto. Qed.

Lemma edges_stay_Report d : respects edges_stay (Report d).
Proof. intros st a st' [= _ ->]%Report_Some Hv. exact Hv. Qed.

Lemma edges_stay_update_last tn f :
  respects edges_stay (update_last_instance tn f).
Proof.
  intros st a st' (inst & Hlast & [= _ ->])%update_last_instance_Some.
  intros Hv. eapply edges_valid_mono; [| |exact Hv]; simpl.
  - eauto.
  - intros t. destruct (decide (tn = t)) as [<-|].
    + rewrite instances_at_insert, (length_replace_last _ inst) by done. lia.
    + rewrite instances_at_insert_ne by done. lia.
Qed.

Lemma edges_stay_push tn inst : respects edges_stay (push_instance tn inst).
Proof.
  intros st a st' [= _ ->]%modify_metadata_Some.
  intros Hv. eapply edges_valid_mono; [| |exact Hv]; simpl.
  - eauto.
  - intros t. destruct (decide (tn = t)) as [<-|].
    + rewrite instances_at_insert, length_app. lia.
    + rewrite instances_at_insert_ne by done. lia.
Qed.

Lemma edges_stay_depth name d :
  respects edges_stay (update_fifo name (set_depth d)).
Proof.
  intros st a st' [= _ ->]%update_fifo_Some Hv c f'. simpl.
  rewrite lookup_insert_Some. intros [[<- <-]|[_ Hc]]; [|exact (Hv _ _ Hc)].
  simpl. unfold fifo_at. destruct (fifos (metadata st) !! name) eqn:E; simpl.
  - exact (Hv _ _ E).
  - split; intros ?? [=].
Qed.

Lemma edges_kept_Report tn d : respects (edges_kept tn) (Report d).
Proof. intros st a st' [= _ ->]%Report_Some Hv. exact Hv. Qed.

Lemma edges_kept_update_last tn f :
  respects (edges_kept tn) (update_last_instance tn f).
Proof.
  intros st a st' Hrun [Hv Hne]. split.
  - by eapply edges_stay_update_last.
  - apply update_last_instance_Some in Hrun as (inst & Hlast & [= _ ->]).
    simpl. rewrite instances_at_insert. intros E.
    by apply app_eq_nil in E as [_ ?].
Qed.

Lemma last_ordinal_valid md tn :
  instances_at md tn ≠ [] →
  0 ≤ last_ordinal md tn < Z.of_nat (length (instances_at md tn)).
Proof.
  unfold last_ordinal, wrap64. intros Hne.
  destruct (instances_at md tn) as [|x l]; [done|]. simpl length.
  pose proof (Z.mod_pos_bound (Z.of_nat (S (length l)) - 1) (2 ^ 64)).
  pose proof (Z.mod_le (Z.of_nat (S (length l)) - 1) (2 ^ 64)). lia.
Qed.

Lemma edges_kept_register_consumer tn arg_name arg :
  respects (edges_kept tn) (register_consumer tn arg_name arg).
Proof.
  intros st a st'.
  pose proof (register_consumer_eq tn arg_name arg st) as E. cbv zeta in E.
  rewrite E. intros [= <- <-] [Hv Hne]. split; [|exact Hne].
  intros c f'. simpl.
  rewrite lookup_insert_Some. intros [[<- <-]|[_ Hc]]; [|exact (Hv _ _ Hc)].
  simpl. split.
  - unfold fifo_at. destruct (fifos (metadata st) !! _) eqn:E'; simpl.
    + exact (proj1 (Hv _ _ E')).
    + intros ?? [=].
  - intros t k [= <- <-]. exact (last_ordinal_valid _ _ Hne).
Qed.

Lemma edges_kept_register_producer tn arg_name arg :
  respects (edges_kept tn) (register_producer tn arg_name arg).
Proof.
  intros st a st'.
  pose proof (register_producer_eq tn arg_name arg st) as E. cbv zeta in E.
  rewrite E. intros [= <- <-] [Hv Hne]. split; [|exact Hne].
  intros c f'. simpl.
  rewrite lookup_insert_Some. intros [[<- <-]|[_ Hc]]; [|exact (Hv _ _ Hc)].
  simpl. split.
  - intros t k [= <- <-]. exact (last_ordinal_valid _ _ Hne).
  - unfold fifo_at. destruct (fifos (metadata st) !! _) eqn:E'; simpl.
    + exact (proj2 (Hv _ _ E')).
    + intros ?? [=].
Qed.

(** The binding of an argument, for relations that are respected by the
    registration of an edge as a whole. *)
Section binding_preserves.
Context (R : relation State) `{!PreOrder R}.
Context (tn : string).
Hypothesis R_Report : ∀ d, respects R (Report d).
Hypothesis R_consumer :
  ∀ arg_name arg, respects R (register_consumer tn arg_name arg).
Hypothesis R_producer :
  ∀ arg_name arg, respects R (register_producer tn arg_name arg).
Hypothesis R_set_arg :
  ∀ port a, respects R (update_last_instance tn (set_arg port a)).
Hypothesis R_set_name :
  ∀ s, respects R (update_last_instance tn (set_name s)).

Lemma preserves_bind_param h i_vec loc i arg_name decl_ref arg_is_seq :
  task_name loc = tn →
  respects R (bind_param h i_vec loc i arg_name decl_ref arg_is_seq).
Proof.
  intros Htn. unfold bind_param. rewrite Htn.
  repeat first
    [ apply R_set_arg
    | apply R_consumer
    | apply R_producer
    | by rapply respects_get_name
    | respects_step; try done ].
Qed.

Lemma preserves_process_arg_rest h i_vec loc i arg :
  task_name loc = tn → i ≠ 0 →
  respects R (process_arg h i_vec loc (i, arg)).
Proof.
  intros Htn Hi. unfold process_arg.
  destruct (decide (i = 0)) as [|_]; [done|].
  repeat first
    [ by apply preserves_bind_param
    | rewrite Htn; apply R_set_name
    | apply R_Report
    | by rapply respects_EvalAsInt
    | respects_step; try done ].
Qed.
End binding_preserves.

Lemma edges_process_arg_rest h i_vec loc i arg st loc' st' :
  i ≠ 0 → edges_invariant loc st →
  process_arg h i_vec loc (i, arg) st = Some (loc', st') →
  edges_invariant loc' st'.
Proof.
  intros Hi [Hv Hne] Hrun.
  assert (loc' = loc) as -> by by eapply process_arg_locals.
  destruct (task loc) as [callee|] eqn:Htask.
  - unfold edges_invariant. rewrite Htask.
    destruct (preserves_process_arg_rest (edges_kept (task_name loc))
                (task_name loc) (edges_kept_Report _)
                (edges_kept_register_consumer _)
                (edges_kept_register_producer _)
                (λ port a, edges_kept_update_last _ _)
                (λ s, edges_kept_update_last _ _)
                h i_vec loc i arg eq_refl Hi _ _ _ Hrun) as [??]; [|done].
    split; [done | by apply Hne].
  - split; [|rewrite Htask; by intros [? [=]]].
    revert Hv Hrun. unfold process_arg.
    destruct (decide (i = 0)) as [|_]; [done|].
    match goal with |- context [if ?b then _ else _] => destruct b end.
    + intros _ Hrun. inv_run.
      match goal with H : bind_param _ _ _ _ _ _ _ _ = Some _ |- _ =>
        unfold bind_param in H; rewrite Htask in H; discriminate H end.
    + intros Hv.
      match goal with |- ?c st = Some _ → _ =>
        assert (respects edges_stay c) as Hresp end.
      { repeat first [ apply edges_stay_Report | apply edges_stay_update_last
                     | respects_step; try done ]. }
      intros Hrun. exact (Hresp _ _ _ Hrun Hv).
Qed.

Lemma edges_process_arg_callee h i_vec loc arg st loc' st' :
  edges_invariant loc st →
  process_arg h i_vec loc (0, arg) st = Some (loc', st') →
  edges_invariant loc' st'.
Proof.
  intros [Hv Hne]. unfold process_arg.
  destruct (decide (0 = 0)) as [_|]; [|done].
  match goal with |- context [if ?b then _ else _] => destruct b end.
  - intros (arg_name & st1 & Hname & Hrest)%bind_Some.
    assert (edges_valid st1) as Hv1.
    { revert Hname.
      match goal with |- ?c st = Some _ → _ =>
        assert (respects edges_stay c) as Hresp end.
      { repeat first [ apply edges_stay_Report
                     | by rapply respects_EvalAsInt; apply edges_stay_Report
                     | respects_step; try done ]. }
      intros Hname. exact (Hresp _ _ _ Hname Hv). }
    apply bind_Some in Hrest as (u & st2 & Hpush & Hrest).
    apply bind_Some in Hrest as ([[? ?] fn] & st3 & Hdecl & Hrest).
    apply lift_Some in Hdecl as (? & _ & [= _ <-]).
    apply mret_Some in Hrest as [= -> ->].
    split; [exact (edges_stay_push _ _ _ _ _ Hpush Hv1)|].
    intros _. simpl.
    apply modify_metadata_Some in Hpush as [= _ ->]. simpl.
    rewrite instances_at_insert. intros E. by apply app_eq_nil in E as [_ ?].
  - match goal with |- ?c st = Some _ → _ =>
      assert (respects edges_stay c) as Hresp end.
    { repeat first [ apply edges_stay_Report | apply edges_stay_update_last
                   | respects_step; try done ]. }
    intros Hrun. split; [exact (Hresp _ _ _ Hrun Hv)|].
    assert (loc' = loc
            ∧ ∀ t, instances_at (metadata st) t ≠ [] →
                   instances_at (metadata st') t ≠ []) as [-> Ht].
    { revert Hrun. destruct arg; simpl;
        try (intros (? & ? & [= _ ->]%Report_Some & [= -> ->]%mret_Some)%bind_Some;
             done). }
    intros Htask. apply Ht. by apply Hne.
Qed.

Lemma edges_process_replica h invoke loc i_vec st loc' st' :
  edges_invariant loc st →
  process_replica h invoke loc i_vec st = Some (loc', st') →
  edges_invariant loc' st'.
Proof.
  intros Hinv. unfold process_replica.
  apply (for_fold_invariant edges_invariant); [|done].
  intros b [i arg] st0 b' st0' Hb.
  destruct (decide (i = 0)) as [->|Hi].
  - by apply edges_process_arg_callee.
  - by apply edges_process_arg_rest.
Qed.

Lemma edges_stay_process_invoke invoke :
  respects edges_stay (process_invoke invoke).
Proof.
  intros st a st' Hrun Hv. unfold process_invoke in Hrun.
  apply bind_Some in Hrun as (h & st1 & Hh & Hrun).
  apply bind_Some in Hrun as (loc' & st2 & Hrun & [= _ ->]%mret_Some).
  assert (edges_valid st1) as Hv1.
  { assert (respects edges_stay (invoke_header invoke)) as Hresp.
    { unfold invoke_header.
      repeat first [ apply edges_stay_Report | respects_step; try done ]. }
    exact (Hresp _ _ _ Hh Hv). }
  eapply (for_fold_invariant edges_invariant) in Hrun as [? _]; [done| |].
  - intros b i_vec st0 b' st0'. apply edges_process_replica.
  - split; [done|]. simpl. by intros [? [=]].
Qed.

Lemma edges_stay_invokes invokes :
  respects edges_stay (for_each invokes process_invoke).
Proof. rapply respects_for_each. apply edges_stay_process_invoke. Qed.

Lemma edges_stay_modify f :
  (∀ md, fifos (f md) = fifos md ∧ tasks (f md) = tasks md) →
  respects edges_stay (modify_metadata f).
Proof.
  intros Hf st a st' [= _ ->]%modify_metadata_Some Hv.
  destruct (Hf (metadata st)) as [Ef Et].
  eapply edges_valid_mono; [| |exact Hv]; simpl.
  - rewrite Ef. eauto.
  - intros t. unfold instances_at. by rewrite Et.
Qed.

Lemma edges_stay_ports params :
  respects edges_stay (for_each params process_port).
Proof.
  rapply respects_for_each. intros param. unfold process_port, add_mmap_meta.
  repeat first [ by apply edges_stay_modify | respects_step; try done ].
Qed.

Lemma edges_stay_process_decl decls child :
  respects edges_stay (process_decl decls child).
Proof.
  unfold process_decl, declare_fifo.
  repeat first [ apply edges_stay_depth | respects_step; try done ].
Qed.

Lemma validate_run decls st st' :
  validate decls st = Some (tt, st') →
  st' = mkState
          (set_fifos (pruned (map_to_list (fifos (metadata st)))
                             (fifos (metadata st))) (metadata st))
          (diagnostics st
           ++ map_to_list (fifos (metadata st)) ≫= entry_diagnostics decls).
Proof.
  rewrite validate_eq. cbv zeta.
  destruct (validation_defined _ _); [|done]. by intros [= <-].
Qed.

Lemma edges_stay_validate decls : respects edges_stay (validate decls).
Proof.
  intros st [] st' ->%validate_run Hv.
  eapply edges_valid_mono; [| |exact Hv]; simpl.
  - intros c f'. rewrite pruned_lookup.
    destruct (fifos (metadata st) !! c) as [f|]; [|done]. simpl.
    destruct (edgeless f); [done|]. intros [= <-]. eauto.
  - done.
Qed.

Lemma edges_valid_run task func st st' :
  ProcessUpperLevelTask task func st = Some (tt, st') → edges_valid st'.
Proof.
  intros (func_body & st1 & decls & st2 & st3 & _ & H1 & H2 & H3 & H4)
    %ProcessUpperLevelTask_Some.
  apply (edges_stay_validate _ _ _ _ H4).
  apply (edges_stay_invokes _ _ _ _ H3).
  assert (respects edges_stay (for_fold func_body process_decl ∅)) as Hd.
  { rapply respects_for_fold. intros. apply edges_stay_process_decl. }
  apply (Hd _ _ _ H2).
  apply (edges_stay_ports _ _ _ _ H1).
  intros c f. simpl. by rewrite lookup_empty.
Qed.

(** X4: in the document of a processed upper-level task, every edge of
    every fifo refers to an instance that exists: the ordinal of a
    [produced_by] or [consumed_by] entry is an index into the instance
    list of the task it names. *)
Theorem edges_refer_to_instances (task : Stmt) (func : FunctionDecl)
    (st st' : State) (c : string) (f : Fifo.t) (t : string) (k : Z) :
  ProcessUpperLevelTask task func st = Some (tt, st') →
  fifos (metadata st') !! c = Some f →
  Fifo.produced_by f = Some (t, k) ∨ Fifo.consumed_by f = Some (t, k) →
  0 ≤ k ∧ is_Some (instances_at (metadata st') t !! Z.to_nat k).
Proof.
  intros Hrun Hc He.
  destruct (edges_valid_run _ _ _ _ Hrun c f Hc) as [Hp Hq].
  assert (0 ≤ k < Z.of_nat (length (instances_at (metadata st') t))) as Hk
    by (destruct He; auto).
  split; [lia|]. apply lookup_lt_is_Some. lia.
Qed.

Lemma edges_refer_to_instances_witness :
  ∃ st', ProcessUpperLevelTask Pipeline_task Pipeline initial_state
         = Some (tt, st')
    ∧ 0 ≤ 0
    ∧ is_Some (instances_at (metadata st') "Consumer" !! Z.to_nat 0).
Proof.
  eexists. split; [exact Pipeline_run|].
  eapply (edges_refer_to_instances Pipeline_task Pipeline initial_state _ "c").
  - exact Pipeline_run.
  - reflexivity.
  - by right.
Defined.

(** ** What a visit leaves alone *)

Global Instance extends_preorder : PreOrder extends.
Proof.
  unfold extends. split; [by intros ?|]. intros x y z ??. by etrans.
Qed.

Lemma extends_Report d : respects extends (Report d).
Proof.
  intros st a st' [= _ ->]%Report_Some. unfold extends. simpl.
  by apply prefix_app_r.
Qed.

Lemma extends_modify f : respects extends (modify_metadata f).
Proof. intros st a st' [= _ ->]%modify_metadata_Some. by unfold extends. Qed.

Lemma extends_update_fifo name f : respects extends (update_fifo name f).
Proof. apply extends_modify. Qed.

Lemma extends_update_last tn f :
  respects extends (update_last_instance tn f).
Proof.
  intros st a st' (inst & _ & [= _ ->])%update_last_instance_Some.
  by unfold extends.
Qed.

(** The phases of [ProcessUpperLevelTask], for a relation respected by
    the operations on the document and by the invocations of [task]. *)
Section run_respects.
Context (R : relation State) `{!PreOrder R}.
Context (task : Stmt).
Hypothesis R_Report : ∀ d, respects R (Report d).
Hypothesis R_reset : respects R (modify_metadata (set_fifos ∅)).
Hypothesis R_port : ∀ p, respects R (add_port p).
Hypothesis R_depth : ∀ name d, respects R (update_fifo name (set_depth d)).
Hypothesis R_erase : ∀ name, respects R (erase_fifo name).
Hypothesis R_invokes :
  respects R (for_each (GetTapaInvokes task) process_invoke).

Lemma respects_ports params : respects R (for_each params process_port).
Proof.
  rapply respects_for_each. intros param. unfold process_port, add_mmap_meta.
  repeat first [ apply R_port | respects_step; try done ].
Qed.

Lemma respects_decls func_body decls :
  respects R (for_fold func_body process_decl decls).
Proof.
  rapply respects_for_fold. intros. unfold process_decl, declare_fifo.
  repeat first [ apply R_depth | respects_step; try done ].
Qed.

Lemma respects_validate decls : respects R (validate decls).
Proof.
  unfold validate, validate_fifo.
  repeat first [ apply R_erase | apply R_Report
               | by rapply respects_get_metadata
               | respects_step; try done ].
Qed.

Lemma respects_run func : respects R (ProcessUpperLevelTask task func).
Proof.
  unfold ProcessUpperLevelTask.
  repeat first [ apply R_reset | apply respects_ports | apply respects_decls
               | apply R_invokes | apply respects_validate
               | respects_step; try done ].
Qed.
End run_respects.

Lemma extends_run task func :
  respects extends (ProcessUpperLevelTask task func).
Proof.
  rapply respects_run; intros;
    first [ apply extends_Report | apply extends_update_fifo
          | apply extends_modify | idtac ].
  rapply respects_invokes; intros;
    first [ apply extends_Report | apply extends_update_fifo
          | apply extends_update_last | apply extends_modify ].
Qed.

(** X5: a visit of a function never changes the set of rewriters, never
    drops a diagnostic reported before, and never touches the document of
    another function.  In the collecting pass (no rewriters yet) it only
    records the function; in a rewriting pass the list of functions stays,
    and for a function other than the current task the documents and the
    diagnostics stay as well (only its source text is removed). *)
Theorem VisitFunctionDecl_frame (top_name : string)
    (current_task : option string)
    (getRewrittenText : FunctionDecl → string * string)
    (func : FunctionDecl) (v v' : Visitor) :
  VisitFunctionDecl top_name current_task getRewrittenText func v = Some v' →
  rewriters_ v' = rewriters_ v
  ∧ reported v `prefix_of` reported v'
  ∧ (∀ other, other ≠ getNameAsString func →
       metadata_ v' !! other = metadata_ v !! other)
  ∧ (rewriters_ v = [] →
       metadata_ v' = metadata_ v ∧ reported v' = reported v
       ∧ (funcs_ v' = funcs_ v ∨ funcs_ v' = funcs_ v ++ [func]))
  ∧ (rewriters_ v ≠ [] → funcs_ v' = funcs_ v)
  ∧ (rewriters_ v ≠ [] → current_task ≠ Some (getNameAsString func) →
       v' = v).
Proof.
  unfold VisitFunctionDecl.
  assert (Hsame : Some v = Some v' →
    rewriters_ v' = rewriters_ v
    ∧ reported v `prefix_of` reported v'
    ∧ (∀ other, other ≠ getNameAsString func →
         metadata_ v' !! other = metadata_ v !! other)
    ∧ (rewriters_ v = [] →
         metadata_ v' = metadata_ v ∧ reported v' = reported v
         ∧ (funcs_ v' = funcs_ v ∨ funcs_ v' = funcs_ v ++ [func]))
    ∧ (rewriters_ v ≠ [] → funcs_ v' = funcs_ v)
    ∧ (rewriters_ v ≠ [] → current_task ≠ Some (getNameAsString func) →
         v' = v)).
  { intros [= <-]. repeat split; auto. }
  destruct (getBody func) as [body|]; [|done].
  destruct (isGlobal func && isWrittenInMainFile func); [|done].
  destruct (bool_decide (rewriters_ v = [])) eqn:Hrw.
  { apply bool_decide_eq_true in Hrw. intros [= <-]. simpl.
    repeat split; auto; done. }
  apply bool_decide_eq_false in Hrw.
  destruct (bool_decide (getNameAsString func ∈ rewriters_ v)); [|done].
  destruct (bool_decide (current_task = Some (getNameAsString func))) eqn:Hcur;
    [|done].
  apply bool_decide_eq_true in Hcur.
  destruct (GetTapaTask body) as [task|]; [|done].
  destruct (if bool_decide (top_name = getNameAsString func) then _ else _)
    as [md|]; [|done]. simpl.
  destruct (ProcessUpperLevelTask task func _) as [[[] st']|] eqn:Hrun; [|done].
  simpl. intros [= <-]. simpl.
  split; [done|]. split; [exact (extends_run _ _ _ _ _ Hrun)|].
  split; [intros other Hother; by rewrite lookup_insert_ne|].
  repeat split; done.
Qed.

Lemma VisitFunctionDecl_frame_witness :
  ∃ v', VisitFunctionDecl "Fork" (Some "Fork") no_text Fork Fork_visitor
        = Some v'
    ∧ rewriters_ v' = ["Fork"]
    ∧ funcs_ v' = []
    ∧ metadata_ v' !! "Producer" = None.
Proof.
  destruct (VisitFunctionDecl "Fork" (Some "Fork") no_text Fork Fork_visitor)
    as [v'|] eqn:Hrun; [|by vm_compute in Hrun].
  exists v'. split; [reflexivity|].
  destruct (VisitFunctionDecl_frame "Fork" (Some "Fork") no_text Fork
              Fork_visitor v' Hrun) as (Hrw & _ & Hother & _ & Hfuncs & _).
  split; [exact Hrw|]. split; [by apply Hfuncs|].
  by rewrite Hother.
Defined.

(** ** Declared channels at the end of the task *)








(** ** A task that invokes nothing *)

Global Instance same_edges_preorder : PreOrder same_edges.
Proof.
  split; [by intros ??|]. intros x y z H1 H2 c.
  destruct (H1 c), (H2 c). split; congruence.
Qed.

Global Instance same_instances_preorder t : PreOrder (same_instances t).
Proof.
  unfold same_instances. split; [by intros ?|]. intros x y z ??. congruence.
Qed.


Lemma same_instances_Report t d : respects (same_instances t) (Report d).
Proof. by intros st a st' [= _ ->]%Report_Some. Qed.

Lemma same_instances_modify t f :
  (∀ md, tasks (f md) = tasks md) →
  respects (same_instances t) (modify_metadata f).
Proof.
  intros Hf st a st' [= _ ->]%modify_metadata_Some.
  unfold same_instances, instances_at. simpl. by rewrite Hf.
Qed.




(** ** The depth of a channel *)

Global Instance same_depths_preorder : PreOrder same_depths.
Proof.
  unfold same_depths. split; [by intros ??|]. intros x y z H1 H2 c.
  by rewrite H2, H1.
Qed.









Lemma callee_of_Some invoke fname :
  callee_of invoke = Some fname →
  ∃ fty fn rest, call_args invoke = DeclRefExpr fname fty fn None :: rest.
Proof.
  unfold callee_of. destruct (call_args invoke) as [|[n ty fn [v|]| | |] rest];
    try done. intros [= ->]. eauto.
Qed.

(** ** The ports of the task, in the order of its parameters *)

Lemma add_port_run p st a st' :
  add_port p st = Some (a, st') →
  st' = mkState (set_ports (ports (metadata st) ++ [p]) (metadata st))
                (diagnostics st).
Proof. by intros [= _ ->]%modify_metadata_Some. Qed.

Lemma add_mmap_meta_names param name st a st' :
  add_mmap_meta param name st = Some (a, st') →
  port_name_cat <$> ports (metadata st')
  = (port_name_cat <$> ports (metadata st)) ++ [(name, mmap_cat param)].
Proof.
  unfold add_mmap_meta. intros Hrun. inv_run.
  match goal with H : (let '(_, _) := ?x in _) _ = Some _ |- _ =>
    destruct x as [[elem c] w] end.
  match goal with H : add_port _ _ = Some _ |- _ =>
    apply add_port_run in H as -> end.
  simpl. by rewrite fmap_app.
Qed.

Lemma add_mmap_metas_names param (name : Z → string) r st a st' :
  for_each r (λ i, add_mmap_meta param (name i)) st = Some (a, st') →
  port_name_cat <$> ports (metadata st')
  = (port_name_cat <$> ports (metadata st))
    ++ ((λ i, (name i, mmap_cat param)) <$> r).
Proof.
  revert st. induction r as [|i r IH]; intros st; simpl.
  - intros [= _ <-]. by rewrite app_nil_r.
  - intros (? & st1 & H1%add_mmap_meta_names & Hrest%IH)%bind_Some.
    by rewrite Hrest, H1, <- app_assoc.
Qed.

Lemma process_port_names param st a st' :
  process_port param st = Some (a, st') →
  port_name_cat <$> ports (metadata st')
  = (port_name_cat <$> ports (metadata st)) ++ port_names param.
Proof.
  unfold process_port, port_names.
  destruct (IsTapaType (parm_type param) p_any_mmap);
    [apply add_mmap_meta_names|].
  destruct (IsTapaType (parm_type param) p_any_mmaps).
  { intros Hrun. inv_run.
    match goal with H : int_range _ = Some _ |- _ =>
      apply int_range_Some in H as -> end.
    match goal with H : GetArraySize _ = Some _ |- _ => rewrite H end.
    match goal with H : for_each _ _ _ = Some _ |- _ =>
      by apply (add_mmap_metas_names param
                  (λ i, parm_name param +:+ "[" +:+ to_string i +:+ "]")) in H
    end. }
  destruct (IsStreamInterface param).
  - intros [= _ <-]. by rewrite app_nil_r.
  - intros ->%add_port_run. simpl. by rewrite fmap_app.
Qed.

Lemma process_ports_names params st a st' :
  for_each params process_port st = Some (a, st') →
  port_name_cat <$> ports (metadata st')
  = (port_name_cat <$> ports (metadata st)) ++ (params ≫= port_names).
Proof.
  revert st. induction params as [|param params IH]; intros st; simpl.
  - intros [= _ <-]. by rewrite app_nil_r.
  - intros (? & st1 & H1%process_port_names & Hrest%IH)%bind_Some.
    by rewrite Hrest, H1, <- app_assoc.
Qed.

(** X9: the ports of the document are appended in the order of the
    parameters of the task: one port per mmap or async-mmap parameter, one
    port named [name[i]] for each element of an array of them, one scalar
    port for any other parameter, and none for a parameter that is a single
    stream; the arrays are categorised like their elements.  The other
    phases of the task add no port. *)
Theorem ports_follow_parameters (task : Stmt) (func : FunctionDecl)
    (st st' : State) :
  ProcessUpperLevelTask task func st = Some (tt, st') →
  port_name_cat <$> ports (metadata st')
  = (port_name_cat <$> ports (metadata st))
    ++ (parameters func ≫= port_names).
Proof.
  intros (body & st1 & decls & st2 & st3 & Hb & H1 & H2 & H3 & H4)
    %ProcessUpperLevelTask_Some.
  rewrite (same_ports_validate _ _ _ _ H4).
  rewrite (same_ports_invokes _ _ _ _ H3).
  assert (ports (metadata st2) = ports (metadata st1)) as ->.
  { change (same_ports st1 st2). revert H2. rapply respects_for_fold.
    apply same_ports_process_decl. }
  by rewrite (process_ports_names _ _ _ _ H1).
Qed.

Lemma ports_follow_parameters_witness :
  ∃ st', ProcessUpperLevelTask (task_of [])
           (mkFunction "Idle" mmap_scalar_ostream (Some [task_of []]) true true)
           initial_state = Some (tt, st')
    ∧ port_name_cat <$> ports (metadata st')
      = [("a", "mmap"); ("n", "scalar")].
Proof.
  destruct (ProcessUpperLevelTask (task_of [])
              (mkFunction "Idle" mmap_scalar_ostream (Some [task_of []])
                 true true) initial_state)
    as [[[] st']|] eqn:Hrun; [|by vm_compute in Hrun].
  exists st'. split; [reflexivity|].
  exact (ports_follow_parameters _ _ _ _ Hrun).
Defined.

(** ** Finding the task statement and its invocations *)

Lemma GetTapaTask_cons s rest :
  GetTapaTask (s :: rest) = if is_task s then Some s else GetTapaTask rest.
Proof. by destruct s. Qed.

(** X10: [GetTapaTask] returns the first child that is an
    [ExprWithCleanups] of type [struct tapa::task], whatever follows it,
    and nothing exactly when no child is one; a function of a rewriting
    pass whose body has no such child leaves the visitor's documents and
    diagnostics as they are. *)
Theorem GetTapaTask_first (children : list Stmt) :
  match GetTapaTask children with
  | Some t =>
      ∃ pre post, children = pre ++ t :: post ∧ is_task t = true
        ∧ Forall (λ s, is_task s = false) pre
  | None => Forall (λ s, is_task s = false) children
  end
  ∧ ∀ top_name current_task getRewrittenText func v,
      getBody func = Some children →
      GetTapaTask children = None →
      rewriters_ v ≠ [] →
      VisitFunctionDecl top_name current_task getRewrittenText func v
      = Some v.
Proof.
  split.
  - induction children as [|s rest IH]; [by constructor|].
    rewrite GetTapaTask_cons. destruct (is_task s) eqn:Hs.
    + exists [], rest. by repeat split.
    + destruct (GetTapaTask rest) as [t|].
      * destruct IH as (pre & post & -> & Ht & Hpre).
        exists (s :: pre), post. repeat split; [done|]. by constructor.
      * by constructor.
  - intros top_name current_task getRewrittenText func v Hbody Hnone Hrw.
    unfold VisitFunctionDecl. rewrite Hbody, Hnone.
    rewrite (bool_decide_eq_false_2 _ Hrw). by repeat case_match.
Qed.

Lemma GetTapaTask_first_witness :
  (∃ pre post, Pipeline_body = pre ++ Pipeline_task :: post
     ∧ is_task Pipeline_task = true
     ∧ Forall (λ s, is_task s = false) pre)
  ∧ VisitFunctionDecl "Fork" (Some "Fork") no_text
      (mkFunction "Leaf" [] (Some []) true true) Fork_visitor
    = Some Fork_visitor.
Proof.
  split.
  - exact (proj1 (GetTapaTask_first Pipeline_body)).
  - apply (proj2 (GetTapaTask_first [])); [reflexivity | reflexivity | done].
Defined.

Lemma Stmt_ind_children (P : Stmt → Prop) :
  (∀ first, P (DeclStmt first)) →
  (∀ ty c, Forall P c → P (ExprWithCleanups ty c)) →
  (∀ call c, Forall P c → P (MemberCall call c)) →
  (∀ c, Forall P c → P (OtherStmt c)) →
  ∀ s, P s.
Proof.
  intros H1 H2 H3 H4. fix IH 1. intros [first|ty c|call c|c].
  - apply H1.
  - apply H2. induction c as [|s c IHc]; constructor; [apply IH | exact IHc].
  - apply H3. induction c as [|s c IHc]; constructor; [apply IH | exact IHc].
  - apply H4. induction c as [|s c IHc]; constructor; [apply IH | exact IHc].
Qed.

Lemma GetTapaInvokes_eq stmt :
  GetTapaInvokes stmt
  = (children_of stmt ≫= GetTapaInvokes)
    ++ match stmt with
       | MemberCall invoke _ => if is_invoke invoke then [invoke] else []
       | _ => []
       end.
Proof.
  assert (Hbelow : ∀ l,
    (fix below (l : list Stmt) : list CXXMemberCallExpr :=
       match l with
       | [] => []
       | child :: l' => GetTapaInvokes child ++ below l'
       end) l = l ≫= GetTapaInvokes).
  { induction l as [|s l IH]; [done|]. simpl. by rewrite IH. }
  destruct stmt as [first|ty c|call c|c]; simpl.
  - done.
  - by rewrite Hbelow, app_nil_r.
  - by rewrite Hbelow.
  - by rewrite Hbelow, app_nil_r.
Qed.

(** X11: [GetTapaInvokes] returns exactly the calls of
    [tapa::task::invoke] at or below the statement, those below a call
    before the call itself (so that chained invocations come in source
    order), and a statement without children that is no such call yields
    none. *)
Theorem GetTapaInvokes_complete (stmt : Stmt) (invoke : CXXMemberCallExpr) :
  (invoke ∈ GetTapaInvokes stmt ↔ invoked_below invoke stmt)
  ∧ (∀ call c, is_invoke call = true →
       GetTapaInvokes (MemberCall call c)
       = (c ≫= GetTapaInvokes) ++ [call]).
Proof.
  split; [split|].
  - revert stmt. apply (Stmt_ind_children
      (λ stmt, invoke ∈ GetTapaInvokes stmt → invoked_below invoke stmt)).
    + by intros first ?%elem_of_nil.
    + intros ty c IH. rewrite GetTapaInvokes_eq, app_nil_r. simpl.
      intros (child & Hin & Hchild)%list_elem_of_bind.
      apply (invoked_child _ _ child); [done|].
      by apply (proj1 (Forall_forall _ _) IH child).
    + intros call c IH. rewrite GetTapaInvokes_eq. simpl.
      intros [(child & Hin & Hchild)%list_elem_of_bind|Hhere]%elem_of_app.
      * apply (invoked_child _ _ child); [done|].
        by apply (proj1 (Forall_forall _ _) IH child).
      * destruct (is_invoke call) eqn:Hcall; [|by apply elem_of_nil in Hhere].
        apply list_elem_of_singleton in Hhere as ->. by constructor.
    + intros c IH. rewrite GetTapaInvokes_eq, app_nil_r. simpl.
      intros (child & Hin & Hchild)%list_elem_of_bind.
      apply (invoked_child _ _ child); [done|].
      by apply (proj1 (Forall_forall _ _) IH child).
  - induction 1 as [c Hinv|stmt child Hin _ IH].
    + rewrite GetTapaInvokes_eq, Hinv. apply elem_of_app. right. by left.
    + rewrite GetTapaInvokes_eq. apply elem_of_app. left.
      apply list_elem_of_bind. by exists child.
  - intros call c Hcall. by rewrite GetTapaInvokes_eq, Hcall.
Qed.

Lemma GetTapaInvokes_complete_witness :
  invoked_below (plain_invoke 0 Consumer [channel_c]) Pipeline_task
  ∧ GetTapaInvokes (MemberCall (plain_invoke 0 Consumer [channel_c]) [])
    = [plain_invoke 0 Consumer [channel_c]].
Proof.
  split.
  - apply (proj1 (GetTapaInvokes_complete Pipeline_task
                    (plain_invoke 0 Consumer [channel_c]))).
    vm_compute. right. by left.
  - apply (proj2 (GetTapaInvokes_complete Pipeline_task
                    (plain_invoke 0 Consumer [channel_c]))).
    reflexivity.
Defined.

(** ** Arguments that are constants or array elements *)

Lemma register_arg_default tn arg_name param_name cat inst st :
  is_empty arg_name = false →
  last (instances_at (metadata st) tn) = Some inst →
  ∀ arg, arg = EmptyString ∨ arg = arg_name →
  register_arg tn arg_name param_name cat arg EmptyString st
  = Some (tt, mkState
                (set_tasks
                   (<[tn := removelast (instances_at (metadata st) tn)
                            ++ [set_arg param_name (Arg.mk cat arg_name) inst]]>
                      (tasks (metadata st)))
                   (metadata st))
                (diagnostics st)).
Proof.
  intros Hne Hlast arg Harg. unfold register_arg.
  assert ((if is_empty arg then arg_name else arg) = arg_name) as ->.
  { destruct Harg as [->| ->]; [done | by rewrite Hne]. }
  change (is_empty EmptyString) with true. cbv iota.
  apply update_last_instance_Some. eauto.
Qed.

(** X12: an argument that evaluates to an integer constant [v] and is
    bound to a scalar parameter is recorded as the literal [64'd<v>], with
    [v] read as an unsigned 64-bit number (a negative constant wraps
    around); no fifo and no diagnostic is touched. *)
Theorem constant_argument (h : InvokeHeader) (i_vec : Z) (loc : Locals)
    (i : Z) (arg : Expr) (v : Z) (st : State) (callee : Callee)
    (param : ParmVarDecl) (inst : Instance.t) :
  i ≠ 0 →
  EvaluateAsInt arg = Some v →
  as_CXXOperatorCallExpr arg = None →
  IsTapaType (getType arg) p_seq = false →
  task loc = Some callee →
  getParamDecl callee (wrap32 (if has_name h then i - 2 else i - 1))
  = Some param →
  scalar_parameter (parm_type param) = true →
  last (instances_at (metadata st) (task_name loc)) = Some inst →
  ∃ st', process_arg h i_vec loc (i, arg) st = Some (loc, st')
    ∧ last (instances_at (metadata st') (task_name loc))
      = Some (set_arg (parm_name param)
                (Arg.mk "scalar" ("64'd" +:+ to_string (v mod 2 ^ 64))) inst)
    ∧ fifos (metadata st') = fifos (metadata st)
    ∧ diagnostics st' = diagnostics st.
Proof.
  intros Hi Hv Hop Hseq Htask Hparam Hscalar Hlast.
  unfold scalar_parameter in Hscalar. apply negb_true_iff in Hscalar.
  repeat (apply orb_false_iff in Hscalar as [Hscalar ?]).
  assert (Hbind :
    bind_param h i_vec loc i ("64'd" +:+ to_string (wrap64 v))
               (as_DeclRefExpr arg) false st
    = Some (tt, mkState
                  (set_tasks
                     (<[task_name loc :=
                          removelast (instances_at (metadata st) (task_name loc))
                          ++ [set_arg (parm_name param)
                                (Arg.mk "scalar"
                                   ("64'd" +:+ to_string (wrap64 v)))
                                inst]]> (tasks (metadata st)))
                     (metadata st))
                  (diagnostics st))).
  { unfold bind_param. rewrite Htask. simpl.
    unfold mbind at 1, M_bind at 1. simpl. rewrite Hparam. simpl.
    unfold mbind at 1, M_bind at 1. simpl.
    repeat match goal with
           | H : IsTapaType _ _ = false |- _ => rewrite H; clear H
           end.
    apply (register_arg_default _ _ _ _ inst); [done | done | by left]. }
  unfold process_arg. rewrite Hseq, Hop, Hv.
  destruct (decide (i = 0)) as [|_]; [done|].
  rewrite orb_false_r.
  replace (bool_decide (is_Some (Some v))) with true
    by (symmetry; apply bool_decide_eq_true_2; eauto).
  rewrite orb_true_r. unfold mbind, M_bind. simpl.
  unfold mbind, M_bind in Hbind. rewrite Hbind.
  eexists. split; [done|]. simpl.
  by rewrite instances_at_insert, last_snoc.
Qed.

Lemma constant_argument_witness :
  ∃ st', process_arg (mkHeader 0 false false 1) 0
           (mkLocals (Some Worker) "Worker")
           (1, OtherExpr "UnaryOperator" int_type (Some (-1)))
           (mkState (set_tasks {[ "Worker" := [Instance.mk 0 None ∅] ]}
                               null_metadata) [])
         = Some (mkLocals (Some Worker) "Worker", st')
    ∧ last (instances_at (metadata st') "Worker")
      = Some (set_arg "n" (Arg.mk "scalar" "64'd18446744073709551615")
                      (Instance.mk 0 None ∅)).
Proof.
  destruct (constant_argument (mkHeader 0 false false 1) 0
              (mkLocals (Some Worker) "Worker") 1
              (OtherExpr "UnaryOperator" int_type (Some (-1))) (-1)
              (mkState (set_tasks {[ "Worker" := [Instance.mk 0 None ∅] ]}
                                  null_metadata) [])
              Worker (mkParm "n" int_type) (Instance.mk 0 None ∅))
    as (st' & Hrun & Hlast & _); try reflexivity; [done|].
  exists st'. split; [exact Hrun | exact Hlast].
Defined.

Lemma istream_exclusive ty :
  IsTapaType ty p_istream = true →
  IsTapaType ty p_mmap = false ∧ IsTapaType ty p_async_mmap = false.
Proof.
  unfold IsTapaType. destruct (template_name ty) as [n|]; [|done].
  intros H%bool_decide_eq_true. simpl in H.
  apply list_elem_of_singleton in H as ->. done.
Qed.

(** X13: an argument [base[index]] bound to an input-stream parameter
    registers the instance as the consumer of the channel named
    [base[index]].  When the index is no compile-time constant the error
    [fail to evaluate as integer at compile time] is reported and the
    argument is bound all the same, under the name [base[-1]]. *)
Theorem array_element_argument (h : InvokeHeader) (i_vec : Z) (loc : Locals)
    (i : Z) (base : string) (index : IntExpr) (ty : QualType) (st : State)
    (callee : Callee) (param : ParmVarDecl) (inst : Instance.t) :
  i ≠ 0 →
  IsTapaType ty p_seq = false →
  task loc = Some callee →
  getParamDecl callee (wrap32 (if has_name h then i - 2 else i - 1))
  = Some param →
  IsTapaType (parm_type param) p_istream = true →
  last (instances_at (metadata st) (task_name loc)) = Some inst →
  let name := ArrayNameAt base (default (-1) index) in
  ∃ st',
    process_arg h i_vec loc (i, CXXOperatorCallExpr (Some base) index ty None)
                st
    = Some (loc, st')
    ∧ fifos (metadata st') !! name
      = Some (set_consumed_by
                (task_name loc, last_ordinal (metadata st) (task_name loc))
                (fifo_at (metadata st) name))
    ∧ last (instances_at (metadata st') (task_name loc))
      = Some (set_arg (parm_name param) (Arg.mk "istream" name) inst)
    ∧ (is_Some index →
       Fifo.consumed_by (fifo_at (metadata st) name) = None →
       diagnostics st' = diagnostics st)
    ∧ (index = None →
       name = base +:+ "[-1]"
       ∧ fail_to_evaluate ∈ diagnostics st'
       ∧ level fail_to_evaluate = Error).
Proof.
  intros Hi Hseq Htask Hparam Hin Hlast name.
  destruct (istream_exclusive _ Hin) as [Hmmap Hasync].
  assert (Hne : is_empty name = false) by apply ArrayNameAt_nonempty.
  assert (Hbind : ∀ st0,
    metadata st0 = metadata st →
    bind_param h i_vec loc i name None false st0
    = Some (tt, mkState
          (set_tasks
             (<[task_name loc :=
                  removelast (instances_at (metadata st) (task_name loc))
                  ++ [set_arg (parm_name param) (Arg.mk "istream" name) inst]]>
                (tasks (metadata st)))
             (set_fifos
                (<[name := set_consumed_by
                     (task_name loc, last_ordinal (metadata st) (task_name loc))
                     (fifo_at (metadata st) name)]> (fifos (metadata st)))
                (metadata st)))
          (diagnostics st0
           ++ if bool_decide
                   (is_Some (Fifo.consumed_by (fifo_at (metadata st) name)))
              then [consumed_more_than_once name] else []))).
  { intros st0 Hmd. unfold bind_param. rewrite Htask. simpl.
    unfold mbind at 1, M_bind at 1. simpl. rewrite Hparam. simpl.
    unfold mbind at 1, M_bind at 1. simpl.
    rewrite Hmmap, Hasync, Hin.
    unfold mbind at 1, M_bind at 1. simpl.
    unfold mbind at 1, M_bind at 1.
    pose proof (register_consumer_eq (task_name loc) name name st0) as E.
    cbv zeta in E. rewrite Hne in E. rewrite E, Hmd.
    erewrite (register_arg_default _ _ _ _ inst);
      [done | exact Hne | done | by right]. }
  unfold process_arg. cbv beta iota zeta.
  change (as_DeclRefExpr (CXXOperatorCallExpr (Some base) index ty None))
    with (@None (string * QualType * option Callee)).
  change (as_CXXOperatorCallExpr (CXXOperatorCallExpr (Some base) index ty None))
    with (Some (Some base, index)).
  change (getType (CXXOperatorCallExpr (Some base) index ty None)) with ty.
  change (EvaluateAsInt (CXXOperatorCallExpr (Some base) index ty None))
    with (@None Z).
  rewrite Hseq.
  destruct (decide (i = 0)) as [|_]; [done|].
  match goal with |- context [if ?b then _ else _] =>
    replace b with true by reflexivity end.
  cbv iota. subst name.
  destruct index as [k|];
    [change (default (-1) (Some k)) with k in *
    |change (default (-1) (@None Z)) with (-1) in *];
    unfold EvalAsInt in *;
    unfold mbind, M_bind, lift, mret, M_ret, Report in *;
    cbv beta iota.
  - rewrite (Hbind st eq_refl). eexists. split; [done|]. simpl.
    split; [by rewrite lookup_insert_eq|].
    split; [unfold instances_at; simpl; rewrite lookup_insert_eq; apply last_snoc|].
    split; [|done]. intros _ ->. simpl. by rewrite app_nil_r.
  - rewrite (Hbind (mkState (metadata st) (diagnostics st ++ [fail_to_evaluate]))
               eq_refl).
    eexists. split; [done|]. simpl.
    split; [by rewrite lookup_insert_eq|].
    split; [unfold instances_at; simpl; rewrite lookup_insert_eq; apply last_snoc|].
    split; [by intros [? [=]]|]. intros _. split; [done|]. split; [|done].
    apply elem_of_app. left. apply elem_of_app. right. by left.
Qed.

Lemma array_element_argument_witness :
  ∃ st', process_arg (mkHeader 0 false false 1) 0
           (mkLocals (Some Consumer) "Consumer")
           (1, CXXOperatorCallExpr (Some "qs") None istream_int None)
           (mkState (set_tasks {[ "Consumer" := [Instance.mk 0 None ∅] ]}
                               null_metadata) [])
         = Some (mkLocals (Some Consumer) "Consumer", st')
    ∧ fail_to_evaluate ∈ diagnostics st'
    ∧ is_Some (fifos (metadata st') !! "qs[-1]").
Proof.
  destruct (array_element_argument (mkHeader 0 false false 1) 0
              (mkLocals (Some Consumer) "Consumer") 1 "qs" None istream_int
              (mkState (set_tasks {[ "Consumer" := [Instance.mk 0 None ∅] ]}
                                  null_metadata) [])
              Consumer (mkParm "in" istream_int) (Instance.mk 0 None ∅))
    as (st' & Hrun & Hfifo & _ & _ & Hnone); try reflexivity; [done|].
  exists st'. split; [exact Hrun|].
  destruct (Hnone eq_refl) as (_ & Hd & _). split; [exact Hd|].
  exact (ex_intro _ _ Hfifo).
Defined.

(** ** An invocation whose callee declaration is no method *)

Lemma extends_replicas h invoke l loc :
  respects extends (for_fold l (process_replica h invoke) loc).
Proof.
  rapply respects_for_fold. intros.
  rapply respects_process_replica; intros;
    first [ apply extends_Report | apply extends_update_fifo
          | apply extends_update_last | apply extends_modify ].
Qed.

(** X14: an invocation whose callee declaration is not a method is
    reported by the error [unexpected invocation] and processed all the
    same, once and with step [-1]: the callee gets one more instance, and
    that instance is a detached one. *)
Theorem unexpected_invocation_processed (invoke : CXXMemberCallExpr)
    (fname : string) (fty : QualType) (fn : option Callee) (rest : list Expr)
    (st st' : State) :
  getCalleeDecl invoke = None →
  call_args invoke = DeclRefExpr fname fty fn None :: rest →
  process_invoke invoke st = Some (tt, st') →
  unexpected_invocation "CXXMemberCallExpr" ∈ diagnostics st'
  ∧ level (unexpected_invocation "CXXMemberCallExpr") = Error
  ∧ ∃ inst,
      instances_at (metadata st') fname
      = instances_at (metadata st) fname ++ [inst]
      ∧ Instance.step inst = util.detach.
Proof.
  intros Hcallee Hargs. unfold process_invoke, invoke_header.
  rewrite Hcallee.
  intros (h & st1 & Hh & Hrun)%bind_Some.
  apply bind_Some in Hh as (? & st0 & [= _ ->]%Report_Some & [= -> ->]%mret_Some).
  apply bind_Some in Hrun as (loc' & st2 & Hrun & [= <-]%mret_Some).
  split; [|split; [done|]].
  - destruct (extends_replicas _ _ _ _ _ _ _ Hrun) as [more ->]. simpl.
    apply elem_of_app. left. apply elem_of_app. right. by left.
  - eapply replicas_append in Hrun as (_ & new & Hnew & Hlen & Hsteps);
      [|done].
    destruct new as [|inst [|??]]; try done. exists inst.
    split; [done|]. by apply Forall_inv in Hsteps.
Qed.

Lemma unexpected_invocation_processed_witness :
  ∃ st', process_invoke (mkCall "tapa::task" "invoke" None
                           [callee_ref Producer]) initial_state
         = Some (tt, st')
    ∧ unexpected_invocation "CXXMemberCallExpr" ∈ diagnostics st'.
Proof.
  destruct (process_invoke (mkCall "tapa::task" "invoke" None
                              [callee_ref Producer]) initial_state)
    as [[[] st']|] eqn:Hrun; [|by vm_compute in Hrun].
  exists st'. split; [reflexivity|].
  by destruct (unexpected_invocation_processed
                 (mkCall "tapa::task" "invoke" None [callee_ref Producer])
                 "Producer" function_type (Some Producer) [] initial_state st'
                 eq_refl eq_refl Hrun) as [H _].
Defined.

(** ** The layout of the host glue *)

Lemma append_cons a (s t : string) : String a s +:+ t = String a (s +:+ t).
Proof. reflexivity. Qed.

Lemma append_nil_r (s : string) : s +:+ EmptyString = s.
Proof.
  induction s as [|a s IH]; [done|]. by rewrite append_cons, IH.
Qed.

Lemma append_assoc (s t u : string) : (s +:+ t) +:+ u = s +:+ t +:+ u.
Proof.
  induction s as [|a s IH]; [done|]. by rewrite !append_cons, IH.
Qed.

Lemma concat_empty_cons (x : string) (l : list string) :
  String.concat EmptyString (x :: l) = x +:+ String.concat EmptyString l.
Proof. destruct l as [|y l]; [by rewrite append_nil_r | done]. Qed.

Lemma concat_empty_app (l1 l2 : list string) :
  String.concat EmptyString (l1 ++ l2)
  = String.concat EmptyString l1 +:+ String.concat EmptyString l2.
Proof.
  induction l1 as [|x l1 IH]; [done|].
  by rewrite <- app_comm_cons, !concat_empty_cons, IH, append_assoc.
Qed.





(** ** [ObjectInfo] *)

Lemma length_append (s t : string) :
  String.length (s +:+ t) = (String.length s + String.length t)%nat.
Proof.
  induction s as [|a s IH]; [done|]. rewrite append_cons. simpl. by rewrite IH.
Qed.

Lemma substring_append (s t : string) :
  String.substring 0 (String.length s) (s +:+ t) = s.
Proof.
  induction s as [|a s IH]; [by destruct t|].
  rewrite append_cons. simpl. by rewrite IH.
Qed.

Lemma substr_erase n (s p : string) :
  substr n s = p → String.length p = n → s = p +:+ erase n s.
Proof.
  unfold substr. revert s p.
  induction n as [|n IH]; intros s p Hp Hlen.
  - destruct s; simpl in Hp; by subst p.
  - destruct s as [|a s]; simpl in Hp; subst p; [done|].
    simpl in Hlen. injection Hlen as Hlen.
    rewrite append_cons. f_equal. by apply IH.
Qed.

(** X16: the constructor of [ObjectInfo] keeps the name and strips one
    leading [struct ] or [class ] keyword from the type, and nothing else:
    the stored type is what follows the keyword, a type with neither
    keyword is stored unchanged, and a second keyword behind the first one
    stays. *)
Theorem ObjectInfo_strips_keyword (name type : string) :
  let info := ObjectInfo.init name type in
  ObjectInfo.name info = name
  ∧ (∀ s, type = "struct " +:+ s → ObjectInfo.type info = s)
  ∧ (∀ s, type = "class " +:+ s → ObjectInfo.type info = s)
  ∧ ((∀ s, type ≠ "struct " +:+ s) → (∀ s, type ≠ "class " +:+ s) →
       ObjectInfo.type info = type)
  ∧ ∃ keyword, keyword ∈ ["struct "; "class "; EmptyString]
      ∧ type = keyword +:+ ObjectInfo.type info.
Proof.
  unfold ObjectInfo.init. repeat split.
  - by repeat case_match.
  - intros s ->.
    rewrite bool_decide_eq_true_2
      by apply (substring_append "struct " s). reflexivity.
  - intros s ->.
    rewrite bool_decide_eq_false_2 by (by destruct s).
    rewrite bool_decide_eq_true_2
      by apply (substring_append "class " s). reflexivity.
  - intros Hstruct Hclass.
    destruct (bool_decide (substr 7 type = "struct ")) eqn:H7.
    { apply bool_decide_eq_true in H7.
      by destruct (Hstruct _ (substr_erase _ _ _ H7 eq_refl)). }
    destruct (bool_decide (substr 6 type = "class ")) eqn:H6; [|done].
    apply bool_decide_eq_true in H6.
    by destruct (Hclass _ (substr_erase _ _ _ H6 eq_refl)).
  - destruct (bool_decide (substr 7 type = "struct ")) eqn:H7.
    { apply bool_decide_eq_true in H7. exists "struct ".
      split; [by left|]. by apply substr_erase. }
    destruct (bool_decide (substr 6 type = "class ")) eqn:H6.
    { apply bool_decide_eq_true in H6. exists "class ".
      split; [right; by left|]. by apply substr_erase. }
    exists EmptyString. split; [|done]. right. right. by left.
Qed.

Lemma ObjectInfo_strips_keyword_witness :
  ObjectInfo.type (ObjectInfo.init "x" "struct class Foo") = "class Foo"
  ∧ ObjectInfo.type (ObjectInfo.init "y" "unsigned int") = "unsigned int".
Proof.
  split.
  - destruct (ObjectInfo_strips_keyword "x" "struct class Foo")
      as (_ & Hstruct & _).
    apply Hstruct. reflexivity.
  - destruct (ObjectInfo_strips_keyword "y" "unsigned int")
      as (_ & _ & _ & Hplain & _).
    apply Hplain; intros s Hs; by vm_compute in Hs.
Defined.

(** ** [GetSignature] *)

Lemma resize_append (s t : string) :
  resize (String.length (s +:+ t) - String.length t) (s +:+ t) = s.
Proof.
  unfold resize. rewrite length_append.
  replace (String.length s + String.length t - String.length t)%nat
    with (String.length s) by lia.
  rewrite substring_append.
  replace (String.length s - (String.length s + String.length t))%nat
    with 0%nat by lia.
  apply append_nil_r.
Qed.

Lemma signature_loop (signature : string) (types : list string) :
  foldl (λ signature ty, (signature +:+ ty) +:+ ", ") signature types
  = signature
    +:+ String.concat EmptyString ((λ ty, ty +:+ ", ") <$> types).
Proof.
  revert signature. induction types as [|ty types IH]; intros signature.
  - by rewrite append_nil_r.
  - simpl foldl. rewrite IH, fmap_cons, concat_empty_cons.
    by rewrite !append_assoc.
Qed.

Lemma concat_sep_snoc (sep : string) (types : list string) (last : string) :
  String.concat sep (types ++ [last])
  = String.concat EmptyString ((λ ty, ty +:+ sep) <$> types) +:+ last.
Proof.
  induction types as [|ty types IH]; [done|].
  rewrite fmap_cons, concat_empty_cons, append_assoc, <- IH, append_assoc.
  destruct types; reflexivity.
Qed.

Lemma concat_comma_trailing (types : list string) :
  types ≠ [] →
  String.concat EmptyString ((λ ty, ty +:+ ", ") <$> types)
  = String.concat ", " types +:+ ", ".
Proof.
  intros Hne. destruct (exists_last Hne) as [init' [last' ->]].
  rewrite fmap_app, concat_empty_app, concat_sep_snoc.
  by rewrite append_assoc.
Qed.

(** X17: [GetSignature] fails on a null callee; otherwise it prints the
    qualified name of the callee (of the template it instantiates, if
    any), the parameter types separated by [", "] between parentheses,
    with [...] as a last entry for a variadic function, and then the
    qualifiers. *)
Theorem GetSignature_closed_form (callee : DirectCallee) :
  let target :=
    default (declared callee) (getTemplateInstantiationPattern callee) in
  GetSignature None = None
  ∧ GetSignature (Some callee)
    = Some (qualifiers (target_type target)
              (getQualifiedNameAsString target +:+ "("
               +:+ String.concat ", "
                     (target_parameters target
                      ++ if isVariadic target then ["..."] else [])
               +:+ ")")).
Proof.
  intros target. split; [done|]. unfold GetSignature.
  cbn [mbind option_bind]. fold target. do 2 f_equal.
  generalize (getQualifiedNameAsString target) (target_parameters target).
  intros name types. rewrite signature_loop.
  destruct (isVariadic target).
  - rewrite concat_sep_snoc, !append_assoc. reflexivity.
  - rewrite app_nil_r. destruct types as [|ty types].
    + rewrite bool_decide_eq_false_2 by (simpl; lia).
      rewrite append_nil_r, append_assoc. reflexivity.
    + rewrite bool_decide_eq_true_2 by (simpl; lia).
      rewrite concat_comma_trailing by done.
      rewrite <- !append_assoc.
      change 2%nat with (String.length ", ").
      rewrite resize_append, !append_assoc. reflexivity.
Qed.

(** ** Pragmas of stream parameters and of lower-level tasks *)

Section pragma_properties.
Variable GetFifoVar : string → string.
Variable GetPeekVar : string → string.

Lemma stream_pragmas_length {A} (names : list A) (f g : A → list (list string))
    (is_input : bool) :
  (∀ name, length (f name) = 2%nat) → (∀ name, length (g name) = 2%nat) →
  length (names ≫= λ name, f name ++ (if is_input then g name else []))
  = ((if is_input then 4 else 2) * length names)%nat.
Proof.
  intros Hf Hg. induction names as [|name names IH]; [by destruct is_input|].
  rewrite bind_cons, !length_app, IH, Hf. destruct is_input; simpl.
  - rewrite Hg. lia.
  - lia.
Qed.

(** X18: for a stream parameter, [AddPragmaForStream] emits the
    disaggregate pragma of the parameter and then, for the stream itself
    or for every element [name[i]] of an array of streams, the interface
    and the aggregate pragma of its fifo variable, followed by those of its
    peek variable exactly when the parameter is an input; an array is also
    partitioned completely.  On a parameter that is no stream the
    assertion fails. *)
Theorem AddPragmaForStream_pragmas (param : ParmVarDecl)
    (pragmas : list (list string)) :
  AddPragmaForStream GetFifoVar GetPeekVar param = Some pragmas →
  let ty := parm_type param in
  let is_input := IsTapaType ty p_istream_or_istreams in
  let names :=
    if IsTapaType ty p_any_streams
    then ArrayNameAt (parm_name param)
           <$> seqZ 0 (default 0 (GetArraySize ty))
    else [parm_name param] in
  IsTapaType ty p_any_stream_or_streams = true
  ∧ head pragmas = Some ["disaggregate variable ="; parm_name param]
  ∧ length pragmas
    = ((if IsTapaType ty p_any_streams then 2 else 1)
       + (if is_input then 4 else 2) * length names)%nat
  ∧ (["array_partition variable ="; parm_name param; "complete"] ∈ pragmas
     ↔ IsTapaType ty p_any_streams = true)
  ∧ ∀ name, name ∈ names →
      ["interface ap_fifo port ="; GetFifoVar name] ∈ pragmas
      ∧ ["aggregate variable ="; GetFifoVar name; "bit"] ∈ pragmas
      ∧ (is_input = true →
           ["interface ap_fifo port ="; GetPeekVar name] ∈ pragmas
           ∧ ["aggregate variable ="; GetPeekVar name; "bit"] ∈ pragmas).
Proof.
  intros Hrun ty is_input names. unfold AddPragmaForStream in Hrun.
  fold ty in Hrun. fold is_input in Hrun.
  destruct (IsTapaType ty p_any_stream_or_streams); [|done].
  split; [done|].
  assert (∃ names', pragmas
            = [["disaggregate variable ="; parm_name param]]
              ++ (if IsTapaType ty p_any_streams
                  then [["array_partition variable ="; parm_name param;
                         "complete"]]
                  else [])
              ++ (names' ≫= λ name,
                    [["interface ap_fifo port ="; GetFifoVar name];
                     ["aggregate variable ="; GetFifoVar name; "bit"]]
                    ++ (if is_input then
                          [["interface ap_fifo port ="; GetPeekVar name];
                           ["aggregate variable ="; GetPeekVar name; "bit"]]
                        else []))
            ∧ names' = names) as (names' & -> & ->).
  { subst names. destruct (IsTapaType ty p_any_streams).
    - destruct (GetArraySize ty) as [n|]; [|done].
      cbn [mbind option_bind] in Hrun.
      destruct (decide (0 ≤ n)); [|done].
      exists (ArrayNameAt (parm_name param) <$> seqZ 0 n).
      split; [|reflexivity]. symmetry. exact (Some_inj _ _ Hrun).
    - exists [parm_name param].
      split; [|reflexivity]. symmetry. exact (Some_inj _ _ Hrun). }
  clear Hrun. split; [done|]. split; [|split].
  - rewrite !length_app, stream_pragmas_length by done.
    destruct (IsTapaType ty p_any_streams); simpl; lia.
  - split.
    + intros Hin. destruct (IsTapaType ty p_any_streams); [done|].
      exfalso. revert Hin. rewrite app_nil_l.
      intros [Hin|Hin]%elem_of_app;
        [by apply list_elem_of_singleton in Hin|].
      apply list_elem_of_bind in Hin as (name & Hin & _).
      destruct is_input; simpl in Hin;
        repeat (apply elem_of_cons in Hin as [Hin|Hin]; [done|]);
        by apply elem_of_nil in Hin.
    + intros ->. apply elem_of_app. right. apply elem_of_app. left. by left.
  - intros name Hname.
    assert (Hbind : ∀ p,
      p ∈ [["interface ap_fifo port ="; GetFifoVar name];
           ["aggregate variable ="; GetFifoVar name; "bit"]]
          ++ (if is_input then
                [["interface ap_fifo port ="; GetPeekVar name];
                 ["aggregate variable ="; GetPeekVar name; "bit"]]
              else []) →
      p ∈ [["disaggregate variable ="; parm_name param]]
          ++ (if IsTapaType ty p_any_streams
              then [["array_partition variable ="; parm_name param;
                     "complete"]]
              else [])
          ++ (names ≫= λ name,
                [["interface ap_fifo port ="; GetFifoVar name];
                 ["aggregate variable ="; GetFifoVar name; "bit"]]
                ++ (if is_input then
                      [["interface ap_fifo port ="; GetPeekVar name];
                       ["aggregate variable ="; GetPeekVar name; "bit"]]
                    else []))).
    { intros p Hp. apply elem_of_app. right. apply elem_of_app. right.
      apply list_elem_of_bind. by exists name. }
    split; [apply Hbind; by left|].
    split; [apply Hbind; right; by left|].
    intros Hinput. split; apply Hbind; rewrite Hinput.
    + right. right. by left.
    + right. right. right. by left.
Qed.

Lemma AddPragmaForStream_defined param :
  IsTapaType (parm_type param) p_any_stream_or_streams = true →
  (IsTapaType (parm_type param) p_any_streams = true →
     ∃ n, GetArraySize (parm_type param) = Some n ∧ 0 ≤ n) →
  is_Some (AddPragmaForStream GetFifoVar GetPeekVar param).
Proof.
  intros Hstream Hsize. unfold AddPragmaForStream. rewrite Hstream.
  destruct (IsTapaType (parm_type param) p_any_streams); [|by eexists].
  destruct Hsize as (n & -> & Hn); [done|]. cbn [mbind option_bind].
  rewrite decide_True by done. by eexists.
Qed.

Lemma mmaps_no_pragma ty :
  IsTapaType ty p_any_mmaps = true →
  IsTapaType ty p_any_stream_or_streams = false
  ∧ IsTapaType ty p_async_mmap = false ∧ IsTapaType ty p_mmap = false.
Proof.
  unfold IsTapaType. destruct (template_name ty) as [n|]; [|done].
  intros H%bool_decide_eq_true. simpl in H.
  repeat (apply elem_of_cons in H as [->|H]; [by vm_compute|]).
  by apply elem_of_nil in H.
Qed.

Lemma join_lines (body : list string) :
  llvm_join ([EmptyString] ++ body ++ [EmptyString]) newline
  = newline +:+ String.concat EmptyString ((λ l, l +:+ newline) <$> body).
Proof.
  unfold llvm_join. rewrite <- (append_nil_r (String.concat _ (_ <$> _))).
  rewrite <- concat_sep_snoc. generalize newline. intros sep.
  by destruct body.
Qed.

(** X19: [ProcessLowerLevelTask] inserts one text for each parameter of
    the function, in the order of the parameters: an empty line followed
    by the parameter's pragmas, each on a line of its own that starts with
    [#pragma HLS].  It is defined whenever the arrays of streams have a
    size; an array of mmaps or async-mmaps gets no pragma, only the empty
    line. *)
Theorem ProcessLowerLevelTask_texts (func : FunctionDecl) :
  (∀ texts,
     ProcessLowerLevelTask GetFifoVar GetPeekVar func = Some texts →
     Forall2 (λ param text,
                ∃ pragmas,
                  parameter_pragmas GetFifoVar GetPeekVar param = Some pragmas
                  ∧ text = newline
                           +:+ String.concat EmptyString
                                 ((λ args, ("#pragma HLS "
                                            +:+ String.concat " " args)
                                           +:+ newline) <$> pragmas))
             (parameters func) texts)
  ∧ (is_Some (getBody func) →
     (∀ param, param ∈ parameters func →
        IsTapaType (parm_type param) p_any_streams = true →
        ∃ n, GetArraySize (parm_type param) = Some n ∧ 0 ≤ n) →
     is_Some (ProcessLowerLevelTask GetFifoVar GetPeekVar func))
  ∧ (∀ param, IsTapaType (parm_type param) p_any_mmaps = true →
       parameter_lines GetFifoVar GetPeekVar param
       = Some [EmptyString; EmptyString]).
Proof.
  split; [|split].
  - intros texts Hrun%mapM_Some. eapply Forall2_impl; [exact Hrun|].
    intros param text Htext. cbv beta in Htext.
    unfold parameter_lines in Htext.
    destruct (parameter_pragmas GetFifoVar GetPeekVar param) as [pragmas|];
      [|done].
    exists pragmas. split; [done|].
    destruct (getBody func); [|done].
    assert (text = llvm_join ([EmptyString] ++ (pragma_line <$> pragmas)
                              ++ [EmptyString]) newline) as ->
      by (symmetry; exact (Some_inj _ _ Htext)).
    rewrite join_lines. f_equal. f_equal.
    by rewrite <- list_fmap_compose.
  - intros [body Hbody] Hsize. unfold ProcessLowerLevelTask.
    apply mapM_is_Some. apply Forall_forall. intros param Hin.
    unfold compose, parameter_lines, parameter_pragmas. cbv zeta.
    rewrite Hbody.
    destruct (IsTapaType (parm_type param) p_any_stream_or_streams) eqn:Hs.
    + destruct (AddPragmaForStream_defined param Hs (Hsize param Hin))
        as [pragmas ->]. by eexists.
    + repeat case_match; by eexists.
  - intros param (Hs & Ha & Hm)%mmaps_no_pragma.
    unfold parameter_lines, parameter_pragmas. cbv zeta.
    by rewrite Hs, Ha, Hm.
Qed.
End pragma_properties.

Lemma AddPragmaForStream_pragmas_witness :
  ∃ pragmas,
    AddPragmaForStream (λ name, name) (λ name, name +:+ "_peek")
                       (mkParm "in" istream_int) = Some pragmas
    ∧ length pragmas = 5%nat.
Proof.
  eexists. split; [reflexivity|].
  destruct (AddPragmaForStream_pragmas (λ name, name)
              (λ name, name +:+ "_peek") (mkParm "in" istream_int) _ eq_refl)
    as (_ & _ & Hlen & _).
  exact Hlen.
Defined.

Lemma ProcessLowerLevelTask_texts_witness :
  is_Some (ProcessLowerLevelTask (λ name, name) (λ name, name +:+ "_peek")
             (mkFunction "Leaf" mmap_scalar_ostream (Some []) true true)).
Proof.
  apply (ProcessLowerLevelTask_texts (λ name, name) (λ name, name +:+ "_peek")
           (mkFunction "Leaf" mmap_scalar_ostream (Some []) true true));
    [by eexists|].
  intros param Hin Hstreams. exfalso.
  repeat (apply elem_of_cons in Hin as [->|Hin]; [by vm_compute in Hstreams|]).
  by apply elem_of_nil in Hin.
Defined.

(** ** Parameters rewritten to base addresses *)

Lemma concat_sep_cons (sep x : string) (l : list string) :
  String.concat sep (x :: l)
  = x +:+ String.concat EmptyString ((λ y, sep +:+ y) <$> l).
Proof.
  revert x. induction l as [|y l IH]; intros x.
  - by rewrite append_nil_r.
  - change (String.concat sep (x :: y :: l))
      with (x +:+ sep +:+ String.concat sep (y :: l)).
    by rewrite IH, fmap_cons, concat_empty_cons, append_assoc.
Qed.

Lemma append_not_empty (s t : string) :
  is_empty s = false → is_empty (s +:+ t) = false.
Proof. by destruct s. Qed.

Lemma rewritten_text_loop (param_name : string) (text : string) (r : list Z) :
  is_empty text = false →
  foldl (λ rewritten_text i,
           (if is_empty rewritten_text then rewritten_text
            else rewritten_text +:+ ", ")
           +:+ "uint64_t " +:+ GetArrayElem param_name i) text r
  = text +:+ String.concat EmptyString
               ((λ y, ", " +:+ y)
                  <$> ((λ i, "uint64_t " +:+ GetArrayElem param_name i) <$> r)).
Proof.
  revert text. induction r as [|i r IH]; intros text Hne.
  - by rewrite append_nil_r.
  - cbn [foldl]. rewrite Hne, IH by by do 2 apply append_not_empty.
    rewrite !fmap_cons, concat_empty_cons, !append_assoc. reflexivity.
Qed.

Lemma mmaps_no_mmap ty :
  IsTapaType ty p_any_mmaps = true → IsTapaType ty p_any_mmap = false.
Proof.
  unfold IsTapaType. destruct (template_name ty) as [n|]; [|done].
  intros H%bool_decide_eq_true. simpl in H.
  repeat (apply elem_of_cons in H as [->|H]; [by vm_compute|]).
  by apply elem_of_nil in H.
Qed.

(** X20: an array parameter of mmaps or async-mmaps of size [n] is
    replaced by [n] parameters of type [uint64_t], named by
    [GetArrayElem] and separated by [", "] (by the empty text when [n] is
    not positive); of a single mmap or async-mmap only the type is
    replaced, by [uint64_t]; no other parameter is edited. *)
Theorem parameters_become_addresses (param : ParmVarDecl) :
  let name := parm_name param in
  let ty := parm_type param in
  (∀ r, rewritten_text name r
        = String.concat ", "
            ((λ i, "uint64_t " +:+ GetArrayElem name i) <$> r))
  ∧ (∀ n, IsTapaType ty p_any_mmaps = true →
       GetArraySize ty = Some n → n ≤ INT_MAX →
       rewrite_parameter param
       = Some [ReplaceParameter name
                 (String.concat ", "
                    ((λ i, "uint64_t " +:+ GetArrayElem name i)
                       <$> seqZ 0 n))]
       ∧ (n ≤ 0 →
          rewrite_parameter param
          = Some [ReplaceParameter name EmptyString]))
  ∧ (IsTapaType ty p_any_mmap = true →
       rewrite_parameter param = Some [ReplaceTypeOf name "uint64_t"])
  ∧ (IsTapaType ty p_any_mmap = false →
     IsTapaType ty p_any_mmaps = false →
       rewrite_parameter param = Some []).
Proof.
  intros name ty.
  assert (Htext : ∀ r, rewritten_text name r
        = String.concat ", "
            ((λ i, "uint64_t " +:+ GetArrayElem name i) <$> r)).
  { intros [|i r]; [done|]. unfold rewritten_text. cbn [foldl].
    change (is_empty EmptyString) with true. cbv iota.
    rewrite rewritten_text_loop by done.
    by rewrite fmap_cons, concat_sep_cons. }
  split; [exact Htext|]. unfold rewrite_parameter. fold name ty.
  split; [|split].
  - intros n Hmmaps Hsize Hn.
    rewrite (mmaps_no_mmap _ Hmmaps), Hmmaps, Hsize.
    cbn [mbind option_bind]. unfold int_range.
    rewrite decide_True by done. cbn [mbind option_bind].
    rewrite Htext. split; [done|].
    intros Hle. by rewrite seqZ_nil by lia.
  - by intros ->.
  - by intros -> ->.
Qed.

Lemma parameters_become_addresses_witness :
  rewrite_parameter (mkParm "a" mmap_float)
  = Some [ReplaceTypeOf "a" "uint64_t"]
  ∧ rewrite_parameter (mkParm "n" int_type) = Some [].
Proof.
  split.
  - by apply (parameters_become_addresses (mkParm "a" mmap_float)).
  - by apply (parameters_become_addresses (mkParm "n" int_type)).
Defined.

(** ** The number of instances of a task *)

Lemma process_invoke_appends invoke fname t st st' :
  callee_of invoke = Some fname →
  process_invoke invoke st = Some (tt, st') →
  ∃ new,
    instances_at (metadata st') t = instances_at (metadata st) t ++ new
    ∧ length new = if decide (fname = t) then replicas invoke else 0%nat.
Proof.
  intros (fty & fn & rest & Hargs)%callee_of_Some Hrun.
  unfold process_invoke in Hrun.
  apply bind_Some in Hrun as (h & st1 & Hh & Hrun).
  apply bind_Some in Hrun as (loc' & st2 & Hrun & [= ->]%mret_Some).
  assert (instances_at (metadata st1) t = instances_at (metadata st) t
          ∧ replicas invoke = length (seqZ 0 (vec_length h))) as [E1 Hlen].
  { unfold invoke_header in Hh. unfold replicas.
    destruct (getCalleeDecl invoke) as [targs|].
    - apply lift_Some in Hh as (h' & -> & [= -> ->]). simpl.
      by rewrite length_seqZ.
    - apply bind_Some in Hh
        as (? & st0 & [= _ ->]%Report_Some & [= -> ->]%mret_Some).
      done. }
  destruct (replicas_append _ _ _ _ _ _ _ _ _ _ _ Hargs Hrun)
    as (Hother & new & Hnew & Hnew_len & _).
  destruct (decide (fname = t)) as [<-|Hne].
  - exists new. rewrite Hnew, E1. split; [done|]. by rewrite Hlen.
  - exists []. rewrite app_nil_r, Hother, E1 by done. done.
Qed.

Lemma process_invokes_append invokes t st st' :
  (∀ invoke, invoke ∈ invokes → is_Some (callee_of invoke)) →
  for_each invokes process_invoke st = Some (tt, st') →
  ∃ new,
    instances_at (metadata st') t = instances_at (metadata st) t ++ new
    ∧ length new
      = sum_list (replicas
                    <$> filter (λ invoke, callee_of invoke = Some t) invokes).
Proof.
  revert st. induction invokes as [|invoke invokes IH]; intros st Hcallee.
  - intros [= <-]. exists []. by rewrite app_nil_r.
  - simpl. intros ([] & st1 & H1 & Hrest)%bind_Some.
    destruct (Hcallee invoke) as [fname Hfname]; [by left|].
    destruct (process_invoke_appends _ _ t _ _ Hfname H1)
      as (new1 & E1 & Hlen1).
    destruct (IH st1) as (new2 & E2 & Hlen2);
      [intros; apply Hcallee; by right | done |].
    exists (new1 ++ new2). rewrite E2, E1, <- app_assoc. split; [done|].
    rewrite length_app, Hlen1, Hlen2, filter_cons, Hfname.
    destruct (decide (fname = t)) as [->|Hne].
    + by rewrite decide_True.
    + rewrite decide_False by congruence. done.
Qed.

(** X21: when every invocation of the task statement names its callee,
    processing the task only appends to the instance lists, and the number
    of instances appended to the list of a task [t] is the sum of the
    vector lengths of the invocations that name [t] (an invocation that is
    not vectorised counts once). *)
Theorem instances_count (task : Stmt) (func : FunctionDecl) (st st' : State)
    (t : string) :
  ProcessUpperLevelTask task func st = Some (tt, st') →
  (∀ invoke, invoke ∈ GetTapaInvokes task → is_Some (callee_of invoke)) →
  ∃ new,
    instances_at (metadata st') t = instances_at (metadata st) t ++ new
    ∧ length new
      = sum_list (replicas
                    <$> filter (λ invoke, callee_of invoke = Some t)
                               (GetTapaInvokes task)).
Proof.
  intros (body & st1 & decls & st2 & st3 & Hb & H1 & H2 & H3 & H4)
    %ProcessUpperLevelTask_Some Hcallee.
  destruct (process_invokes_append _ t _ _ Hcallee H3) as (new & E & Hlen).
  exists new. split; [|done].
  assert (same_instances t st3 st') as ->.
  { revert H4. apply (respects_validate (same_instances t)); try exact _;
      intros;
      first [ apply same_instances_Report | by apply same_instances_modify ]. }
  rewrite E. f_equal.
  assert (same_instances t st1 st2) as ->.
  { revert H2. apply (respects_decls (same_instances t)); try exact _.
    intros. by apply same_instances_modify. }
  revert H1. apply (respects_ports (same_instances t)); try exact _.
  intros. by apply same_instances_modify.
Qed.

Lemma instances_count_witness :
  ∃ st' new,
    ProcessUpperLevelTask Fork_task Fork initial_state = Some (tt, st')
    ∧ instances_at (metadata st') "Producer" = [] ++ new
    ∧ length new = 2%nat.
Proof.
  destruct (ProcessUpperLevelTask Fork_task Fork initial_state)
    as [[[] st']|] eqn:Hrun; [|by vm_compute in Hrun].
  destruct (instances_count Fork_task Fork initial_state st' "Producer" Hrun)
    as (new & Hnew & Hlen).
  - intros invoke Hin. vm_compute in Hin.
    repeat (apply elem_of_cons in Hin as [->|Hin]; [by eexists|]).
    apply elem_of_nil in Hin. destruct Hin.
  - exists st', new. split; [reflexivity|]. split; [exact Hnew | exact Hlen].
Defined.

(** ** An array of streams bound to an array parameter *)

Lemma append_inj_r (s t u : string) : s +:+ u = t +:+ u → s = t.
Proof.
  revert t. induction s as [|a s IH]; intros [|b t] H; [done| | |].
  - apply (f_equal String.length) in H.
    rewrite !length_append in H. simpl in H. lia.
  - apply (f_equal String.length) in H.
    rewrite !length_append in H. simpl in H. lia.
  - rewrite !append_cons in H. injection H as -> H. f_equal. by apply IH.
Qed.

Lemma ArrayNameAt_inj name i j :
  ArrayNameAt name i = ArrayNameAt name j → i = j.
Proof.
  unfold ArrayNameAt, to_string. intros H.
  apply String.app_inj, String.app_inj in H.
  by apply append_inj_r, pretty_Z_inj in H.
Qed.

Lemma last_ordinal_length md md' tn :
  length (instances_at md' tn) = length (instances_at md tn) →
  last_ordinal md' tn = last_ordinal md tn.
Proof. unfold last_ordinal. by intros ->. Qed.

Section array_binding.
Context (tn arg_name pname cat : string).
Context (reg : string → string → string → M unit).
Context (set : string * Z → Fifo.t → Fifo.t).
Context (get : Fifo.t → option (string * Z)).
Hypothesis get_set : ∀ e f, get (set e f) = Some e.
Hypothesis reg_eq : ∀ a st,
  is_empty a = false →
  ∃ ds, reg tn arg_name a st
        = Some (tt, mkState
                      (set_fifos
                         (<[a := set (tn, last_ordinal (metadata st) tn)
                                     (fifo_at (metadata st) a)]>
                            (fifos (metadata st))) (metadata st))
                      (diagnostics st ++ ds)).

Lemma array_binding_loop (r : list Z) (st : State) (inst : Instance.t) :
  last (instances_at (metadata st) tn) = Some inst →
  ∃ st' inst',
    for_each r (λ k,
      let a := ArrayNameAt arg_name k in
      reg tn arg_name a;;
      register_arg tn arg_name pname cat a (ArrayNameAt pname k)) st
    = Some (tt, st')
    ∧ last (instances_at (metadata st') tn) = Some inst'
    ∧ length (instances_at (metadata st') tn)
      = length (instances_at (metadata st) tn)
    ∧ (∀ k, k ∈ r →
         get (fifo_at (metadata st') (ArrayNameAt arg_name k))
         = Some (tn, last_ordinal (metadata st) tn))
    ∧ (∀ c, c ∉ ArrayNameAt arg_name <$> r →
         fifos (metadata st') !! c = fifos (metadata st) !! c)
    ∧ (∀ k, k ∈ r →
         (Instance.args inst') !! ArrayNameAt pname k
         = Some (Arg.mk cat (ArrayNameAt arg_name k)))
    ∧ (∀ port, port ∉ ArrayNameAt pname <$> r →
         (Instance.args inst') !! port = Instance.args inst !! port).
Proof.
  revert st inst. induction r as [|k r IH]; intros st inst Hlast.
  - exists st, inst. repeat split; try done; by intros ? ?%elem_of_nil.
  - destruct (reg_eq (ArrayNameAt arg_name k) st (ArrayNameAt_nonempty _ _))
      as [ds Hreg].
    set (st1 := mkState
                  (set_fifos
                     (<[ArrayNameAt arg_name k :=
                          set (tn, last_ordinal (metadata st) tn)
                              (fifo_at (metadata st) (ArrayNameAt arg_name k))]>
                        (fifos (metadata st))) (metadata st))
                  (diagnostics st ++ ds)) in *.
    set (inst1 := set_arg (ArrayNameAt pname k)
                    (Arg.mk cat (ArrayNameAt arg_name k)) inst).
    set (st2 := mkState
                  (set_tasks
                     (<[tn := removelast (instances_at (metadata st1) tn)
                              ++ [inst1]]> (tasks (metadata st1)))
                     (metadata st1))
                  (diagnostics st1)).
    assert (Harg : register_arg tn arg_name pname cat (ArrayNameAt arg_name k)
                     (ArrayNameAt pname k) st1 = Some (tt, st2)).
    { unfold register_arg. rewrite !ArrayNameAt_nonempty.
      apply update_last_instance_Some. exists inst. done. }
    assert (Hlast2 : last (instances_at (metadata st2) tn) = Some inst1).
    { unfold st2, instances_at. simpl. rewrite lookup_insert_eq. simpl.
      apply last_snoc. }
    assert (Hlen2 : length (instances_at (metadata st2) tn)
                    = length (instances_at (metadata st) tn)).
    { unfold st2, instances_at. simpl. rewrite lookup_insert_eq. simpl.
      exact (length_replace_last _ inst inst1 Hlast). }
    destruct (IH st2 inst1 Hlast2)
      as (st' & inst' & Hrun & Hlast' & Hlen' & Hget & Hother & Hargs & Hports).
    exists st', inst'. split.
    { cbn [for_each]. unfold mbind, M_bind in *. cbv zeta.
      rewrite Hreg, Harg. exact Hrun. }
    split; [done|]. split; [congruence|].
    rewrite (last_ordinal_length _ _ _ Hlen2) in Hget.
    split; [|split; [|split]].
    + intros k' Hk'. destruct (decide (k' ∈ r)) as [Hin|Hout]; [by apply Hget|].
      apply elem_of_cons in Hk' as [->|?]; [|done].
      unfold fifo_at. rewrite Hother.
      * unfold st2, st1. simpl. rewrite lookup_insert_eq. simpl.
        apply get_set.
      * intros (k' & Heq & Hin)%list_elem_of_fmap.
        apply ArrayNameAt_inj in Heq as <-. done.
    + intros c Hc. rewrite Hother by (intros ?; apply Hc; by right).
      unfold st2, st1. simpl. rewrite lookup_insert_ne; [done|].
      intros <-. apply Hc. by left.
    + intros k' Hk'. destruct (decide (k' ∈ r)) as [Hin|Hout]; [by apply Hargs|].
      apply elem_of_cons in Hk' as [->|?]; [|done].
      rewrite Hports.
      * unfold inst1. simpl. by rewrite lookup_insert_eq.
      * intros (k' & Heq & Hin)%list_elem_of_fmap.
        apply ArrayNameAt_inj in Heq as <-. done.
    + intros port Hport. rewrite Hports by (intros ?; apply Hport; by right).
      unfold inst1. simpl. rewrite lookup_insert_ne; [done|].
      intros <-. apply Hport. by left.
Qed.
End array_binding.

Lemma streams_exclusive ty (input : bool) :
  IsTapaType ty (if input then p_istreams else p_ostreams) = true →
  IsTapaType ty p_mmap = false ∧ IsTapaType ty p_async_mmap = false
  ∧ IsTapaType ty p_istream = false ∧ IsTapaType ty p_ostream = false
  ∧ IsTapaType ty p_istreams = input.
Proof.
  unfold IsTapaType. destruct (template_name ty) as [n|]; [|by destruct input].
  intros H%bool_decide_eq_true.
  destruct input; simpl in H; apply list_elem_of_singleton in H as ->; done.
Qed.

(** X22: an array of streams bound to an array parameter of size [n] is
    bound element by element: for every [k < n] the channel [arg[k]] gets
    the instance as its consumer (for input streams) or producer (for
    output streams), and the port [param[k]] of the instance is bound to
    [arg[k]]; no instance is added. *)
Theorem stream_array_argument (h : InvokeHeader) (i_vec : Z) (loc : Locals)
    (i : Z) (arg_name : string)
    (decl_ref : option (string * QualType * option Callee)) (seq : bool)
    (st : State) (callee : Callee) (param : ParmVarDecl) (n : Z)
    (inst : Instance.t) (input : bool) :
  task loc = Some callee →
  getParamDecl callee (wrap32 (if has_name h then i - 2 else i - 1))
  = Some param →
  IsTapaType (parm_type param) (if input then p_istreams else p_ostreams)
  = true →
  GetArraySize (parm_type param) = Some n →
  n ≤ INT_MAX →
  last (instances_at (metadata st) (task_name loc)) = Some inst →
  let edge := (task_name loc,
               last_ordinal (metadata st) (task_name loc)) in
  ∃ st' inst',
    bind_param h i_vec loc i arg_name decl_ref seq st = Some (tt, st')
    ∧ last (instances_at (metadata st') (task_name loc)) = Some inst'
    ∧ length (instances_at (metadata st') (task_name loc))
      = length (instances_at (metadata st) (task_name loc))
    ∧ ∀ k, 0 ≤ k < n →
        (if input then Fifo.consumed_by else Fifo.produced_by)
          (fifo_at (metadata st') (ArrayNameAt arg_name k)) = Some edge
        ∧ Instance.args inst' !! ArrayNameAt (parm_name param) k
          = Some (Arg.mk (if input then "istream" else "ostream")
                         (ArrayNameAt arg_name k)).
Proof.
  intros Htask Hparam Hty Hsize Hn Hlast edge.
  destruct (streams_exclusive _ _ Hty) as (H1 & H2 & H3 & H4 & H5).
  unfold bind_param. rewrite Htask, lift_bind, Hparam, lift_bind.
  rewrite H1, H2, H3, H4, H5.
  destruct input.
  - rewrite Hsize, lift_bind. unfold int_range.
    rewrite decide_True by done. rewrite lift_bind.
    destruct (array_binding_loop (task_name loc) arg_name (parm_name param)
                "istream" register_consumer set_consumed_by Fifo.consumed_by)
      with (r := seqZ 0 n) (st := st) (inst := inst)
      as (st' & inst' & Hrun & Hlast' & Hlen & Hget & _ & Hargs & _);
      [done| |done|].
    { intros a st0 Ha.
      pose proof (register_consumer_eq (task_name loc) arg_name a st0) as E.
      cbv zeta in E. rewrite Ha in E. eauto. }
    exists st', inst'. repeat split; try done.
    + apply Hget. apply elem_of_seqZ. lia.
    + apply Hargs. apply elem_of_seqZ. lia.
  - rewrite Hty, Hsize, lift_bind. unfold int_range.
    rewrite decide_True by done. rewrite lift_bind.
    destruct (array_binding_loop (task_name loc) arg_name (parm_name param)
                "ostream" register_producer set_produced_by Fifo.produced_by)
      with (r := seqZ 0 n) (st := st) (inst := inst)
      as (st' & inst' & Hrun & Hlast' & Hlen & Hget & _ & Hargs & _);
      [done| |done|].
    { intros a st0 Ha.
      pose proof (register_producer_eq (task_name loc) arg_name a st0) as E.
      cbv zeta in E. rewrite Ha in E. eauto. }
    exists st', inst'. repeat split; try done.
    + apply Hget. apply elem_of_seqZ. lia.
    + apply Hargs. apply elem_of_seqZ. lia.
Qed.

Lemma stream_array_argument_witness :
  ∃ st' inst',
    bind_param (mkHeader 0 false false 1) 0
      (mkLocals
         (Some (mkCallee "Router"
                  [mkParm "in"
                     (mkQualType "tapa::istreams<int, 2> &"
                        (Some "tapa::istreams")
                        [Type_ "int" false 32; Integral 2] 64)]))
         "Router")
      1 "qs" None false
      (mkState (set_tasks {[ "Router" := [Instance.mk 0 None ∅] ]}
                          null_metadata) [])
    = Some (tt, st')
    ∧ last (instances_at (metadata st') "Router") = Some inst'
    ∧ Instance.args inst' !! "in[1]" = Some (Arg.mk "istream" "qs[1]").
Proof.
  destruct (stream_array_argument (mkHeader 0 false false 1) 0
              (mkLocals
                 (Some (mkCallee "Router"
                          [mkParm "in"
                             (mkQualType "tapa::istreams<int, 2> &"
                                (Some "tapa::istreams")
                                [Type_ "int" false 32; Integral 2] 64)]))
                 "Router")
              1 "qs" None false
              (mkState (set_tasks {[ "Router" := [Instance.mk 0 None ∅] ]}
                                  null_metadata) [])
              (mkCallee "Router"
                 [mkParm "in"
                    (mkQualType "tapa::istreams<int, 2> &"
                       (Some "tapa::istreams")
                       [Type_ "int" false 32; Integral 2] 64)])
              (mkParm "in"
                 (mkQualType "tapa::istreams<int, 2> &"
                    (Some "tapa::istreams")
                    [Type_ "int" false 32; Integral 2] 64))
              2 (Instance.mk 0 None ∅) true)
    as (st' & inst' & Hrun & Hlast & _ & Hk);
    [reflexivity | reflexivity | reflexivity | reflexivity | by vm_compute
    | reflexivity |].
  exists st', inst'. split; [exact Hrun|]. split; [exact Hlast|].
  apply (Hk 1). lia.
Defined.

(** ** The edges an invocation adds *)

Lemma edges_from_mono st0 fname st st' :
  fifos (metadata st') = fifos (metadata st) →
  (length (instances_at (metadata st) fname)
   ≤ length (instances_at (metadata st') fname))%nat →
  edges_from st0 fname st → edges_from st0 fname st'.
Proof.
  intros Ef Hlen Hfrom c f Hc. rewrite Ef in Hc.
  destruct (Hfrom c f Hc) as [Hp Hq].
  split; intros t k E;
    [destruct (Hp t k E) as [?|(-> & j & Hj & ->)]
    |destruct (Hq t k E) as [?|(-> & j & Hj & ->)]];
    first [ by left | right; split; [done|]; exists j; split; [lia | done] ].
Qed.

Global Instance edges_from_kept_preorder st0 fname :
  PreOrder (edges_from_kept st0 fname).
Proof. split; unfold edges_from_kept; [intros ?|intros ???]; tauto. Qed.

Lemma edges_from_kept_Report st0 fname d :
  respects (edges_from_kept st0 fname) (Report d).
Proof. intros st a st' [= _ ->]%Report_Some H. exact H. Qed.

Lemma edges_from_kept_update_last st0 fname f :
  respects (edges_from_kept st0 fname) (update_last_instance fname f).
Proof.
  intros st a st' (inst & Hlast & [= _ ->])%update_last_instance_Some [Hfrom Hlt].
  assert (length (instances_at
                    (set_tasks
                       (<[fname := removelast (instances_at (metadata st) fname)
                                   ++ [f inst]]> (tasks (metadata st)))
                       (metadata st)) fname)
          = length (instances_at (metadata st) fname)) as Hlen.
  { rewrite instances_at_insert. by apply (length_replace_last _ inst). }
  split.
  - eapply edges_from_mono; [| |exact Hfrom]; simpl; [done|]. by rewrite Hlen.
  - simpl. by rewrite Hlen.
Qed.

Lemma last_ordinal_from md0 md fname :
  (length (instances_at md0 fname) < length (instances_at md fname))%nat →
  ∃ j : nat,
    (length (instances_at md0 fname) ≤ j < length (instances_at md fname))%nat
    ∧ last_ordinal md fname = wrap64 (Z.of_nat j).
Proof.
  intros Hlt. exists (length (instances_at md fname) - 1)%nat.
  split; [lia|]. unfold last_ordinal. f_equal. lia.
Qed.

Lemma edges_from_kept_set_edge st0 fname c (set : Fifo.t → Fifo.t) st ds :
  (∀ f, edge_from st0 fname st (Fifo.produced_by f)
          (Fifo.produced_by (fifo_at (metadata st0) c)) →
        edge_from st0 fname st (Fifo.consumed_by f)
          (Fifo.consumed_by (fifo_at (metadata st0) c)) →
        edge_from st0 fname st (Fifo.produced_by (set f))
          (Fifo.produced_by (fifo_at (metadata st0) c))
        ∧ edge_from st0 fname st (Fifo.consumed_by (set f))
            (Fifo.consumed_by (fifo_at (metadata st0) c))) →
  edges_from st0 fname st →
  edges_from st0 fname
    (mkState (set_fifos (<[c := set (fifo_at (metadata st) c)]>
                           (fifos (metadata st))) (metadata st)) ds).
Proof.
  intros Hset Hfrom c' f'. simpl.
  rewrite lookup_insert_Some. intros [[<- <-]|[_ Hc]]; [|exact (Hfrom _ _ Hc)].
  apply Hset; unfold fifo_at;
    (destruct (fifos (metadata st) !! c) as [f|] eqn:E; simpl;
     [apply (Hfrom _ _ E) | intros ?? [=]]).
Qed.

Lemma edges_from_kept_consumer st0 fname arg_name arg :
  respects (edges_from_kept st0 fname) (register_consumer fname arg_name arg).
Proof.
  intros st a st'.
  pose proof (register_consumer_eq fname arg_name arg st) as E. cbv zeta in E.
  rewrite E. intros [= <- <-] [Hfrom Hlt]. split; [|exact Hlt].
  apply edges_from_kept_set_edge; [|done].
  intros f Hp Hq. split; [exact Hp|].
  intros t k [= <- <-]. right. split; [done|].
  by apply last_ordinal_from.
Qed.

Lemma edges_from_kept_producer st0 fname arg_name arg :
  respects (edges_from_kept st0 fname) (register_producer fname arg_name arg).
Proof.
  intros st a st'.
  pose proof (register_producer_eq fname arg_name arg st) as E. cbv zeta in E.
  rewrite E. intros [= <- <-] [Hfrom Hlt]. split; [|exact Hlt].
  apply edges_from_kept_set_edge; [|done].
  intros f Hp Hq. split; [|exact Hq].
  intros t k [= <- <-]. right. split; [done|].
  by apply last_ordinal_from.
Qed.

Lemma preserves_args_rest (R : relation State) `{!PreOrder R} tn :
  (∀ d, respects R (Report d)) →
  (∀ arg_name arg, respects R (register_consumer tn arg_name arg)) →
  (∀ arg_name arg, respects R (register_producer tn arg_name arg)) →
  (∀ port a, respects R (update_last_instance tn (set_arg port a))) →
  (∀ s, respects R (update_last_instance tn (set_name s))) →
  ∀ h i_vec l j loc st loc' st',
    1 ≤ j → task_name loc = tn →
    for_fold (indexed_from j l) (process_arg h i_vec) loc st
    = Some (loc', st') →
    loc' = loc ∧ R st st'.
Proof.
  intros H1 H2 H3 H4 H5 h i_vec l.
  induction l as [|arg l IH]; intros j loc st loc' st' Hj Htn.
  - intros [= <- <-]. done.
  - simpl. intros (loc1 & st1 & Harg & Hrest)%bind_Some.
    assert (loc1 = loc) as -> by (eapply process_arg_locals; [|done]; lia).
    destruct (IH (j + 1) loc st1 loc' st') as [-> HR]; [lia|done|done|].
    split; [done|]. etrans; [|exact HR].
    eapply (preserves_process_arg_rest R tn); [done..| |exact Harg]. lia.
Qed.

Lemma edges_from_replica st0 fname h invoke loc i_vec st loc' st' :
  callee_of invoke = Some fname →
  (length (instances_at (metadata st0) fname)
   ≤ length (instances_at (metadata st) fname))%nat →
  edges_from st0 fname st →
  process_replica h invoke loc i_vec st = Some (loc', st') →
  edges_from st0 fname st'
  ∧ (length (instances_at (metadata st0) fname)
     ≤ length (instances_at (metadata st') fname))%nat.
Proof.
  intros (fty & fn & rest & Hargs)%callee_of_Some Hle Hfrom.
  unfold process_replica. rewrite Hargs. cbn [indexed_from for_fold].
  intros (loc1 & st1 & Hcallee & Hrest)%bind_Some.
  rewrite process_arg_callee in Hcallee. injection Hcallee as <- <-.
  eapply (preserves_args_rest (edges_from_kept st0 fname) fname) in Hrest
    as [_ HR]; [|intros; first [ apply edges_from_kept_Report
                               | apply edges_from_kept_consumer
                               | apply edges_from_kept_producer
                               | apply edges_from_kept_update_last ]..
               |lia|done].
  destruct HR as [Hfrom' Hlt'].
  - split.
    + eapply edges_from_mono; [| |exact Hfrom]; simpl; [done|].
      rewrite instances_at_insert, length_app. lia.
    + simpl. rewrite instances_at_insert, length_app. simpl. lia.
  - split; [done | lia].
Qed.

(** X23: an invocation adds edges only for its own replicas: in the
    document after the invocation, an edge of a fifo is either the edge
    the fifo had before, or it names the callee of the invocation and the
    ordinal of one of the instances that the invocation has appended. *)
Theorem invocation_edges (invoke : CXXMemberCallExpr) (fname : string)
    (st st' : State) (c : string) (f : Fifo.t) (t : string) (k : Z) :
  callee_of invoke = Some fname →
  process_invoke invoke st = Some (tt, st') →
  fifos (metadata st') !! c = Some f →
  let appended e e0 :=
    e = Some (t, k) →
    e0 = Some (t, k)
    ∨ (t = fname
       ∧ ∃ j : nat,
           (length (instances_at (metadata st) fname) ≤ j
            < length (instances_at (metadata st') fname))%nat
           ∧ k = wrap64 (Z.of_nat j)) in
  appended (Fifo.produced_by f) (Fifo.produced_by (fifo_at (metadata st) c))
  ∧ appended (Fifo.consumed_by f)
             (Fifo.consumed_by (fifo_at (metadata st) c)).
Proof.
  intros Hcallee Hrun Hc appended.
  unfold process_invoke in Hrun.
  apply bind_Some in Hrun as (h & st1 & Hh & Hrun).
  apply bind_Some in Hrun as (loc' & st2 & Hrun & [= <-]%mret_Some).
  assert (metadata st1 = metadata st) as Hmd.
  { unfold invoke_header in Hh. destruct (getCalleeDecl invoke).
    - by apply lift_Some in Hh as (? & _ & [= _ ->]).
    - by apply bind_Some in Hh
        as (? & ? & [= _ ->]%Report_Some & [= _ ->]%mret_Some). }
  assert (edges_from st fname st') as Hfrom.
  { eapply (for_fold_invariant
              (λ (_ : Locals) s,
                 edges_from st fname s
                 ∧ (length (instances_at (metadata st) fname)
                    ≤ length (instances_at (metadata s) fname))%nat))
      in Hrun as [? _]; [done| |].
    - intros loc i_vec s loc1 s1 [Hfrom Hle]. by apply edges_from_replica.
    - unfold edges_from. rewrite Hmd. split; [|done].
      intros c' f' Hc'. unfold fifo_at. rewrite Hc'. simpl.
      split; intros ???; by left. }
  destruct (Hfrom c f Hc) as [Hp Hq]. split; intros E; [by apply Hp | by apply Hq].
Qed.

Lemma invocation_edges_witness :
  ∃ st',
    process_invoke (plain_invoke 0 Consumer [channel_c]) initial_state
    = Some (tt, st')
    ∧ (Fifo.consumed_by (fifo_at (metadata initial_state) "c")
       = Some ("Consumer", 0)
       ∨ ("Consumer" = "Consumer"
          ∧ ∃ j : nat,
              (length (instances_at (metadata initial_state) "Consumer") ≤ j
               < length (instances_at (metadata st') "Consumer"))%nat
              ∧ 0 = wrap64 (Z.of_nat j))).
Proof.
  destruct (process_invoke (plain_invoke 0 Consumer [channel_c]) initial_state)
    as [[[] st']|] eqn:Hrun; [|by vm_compute in Hrun].
  exists st'. split; [reflexivity|].
  destruct (invocation_edges (plain_invoke 0 Consumer [channel_c]) "Consumer"
              initial_state st' "c"
              (Fifo.mk None None (Some ("Consumer", 0))) "Consumer" 0
              eq_refl Hrun) as [_ Hq].
  - revert Hrun. vm_compute. by intros [= <-].
  - by apply Hq.
Defined.
